(** * Wildcard page resolution and sitemap synthesis (xmc-wildcard)

    A shallow embedding of
      - the module imported as [src/lib/wildcard-resolver]
        (resolvePageWithWildcard, queryTargetSiteAndCreatePage,
        logWildcardChildren, makeGraphQLRequest),
      - the module imported as [src/lib/sitemap-utils]
        (getTargetSiteChildren, getWildcardPathPrefix),
      - the sitemap route handler (enhanceSitemapWithWildcardPages,
        escapeXml),
    (the resolver module is the text that starts with
    [import { Page } from '@sitecore-content-sdk/nextjs'] in
    components/missing-component/MissingComponent.tsx, lines 85-1174; line
    numbers in the comments below refer to that file),
    followed by the properties of the resolver, the field overlay and the
    sitemap synthesizer.

    Conventions of the embedding.
      - JavaScript objects whose keys are probed by name are records whose
        optional members are [option]s; keys the code never names are kept in
        a [gmap string json] so that "the rest is preserved" is observable.
      - [Record<string, ...>] objects are [gmap string _].
      - The Content SDK client, [fetch], [new Date()] and [new URL()] are
        oracles of a [World]; they see the history of calls made so far, so
        they need not answer the same question twice in the same way.
      - [async] functions are computations in the monad [M]: a history of
        calls threaded through, and a result that is a value or a thrown
        exception.  [console.log] output is not modelled. *)

From Stdlib Require Import String Ascii List Bool ZArith Lia.
From stdpp Require Import base option list strings gmap.

Local Open Scope string_scope.
Local Open Scope list_scope.

(* ===================================================================== *)
(** * JavaScript strings and arrays *)
(* ===================================================================== *)

Module JS.

(** [s.startsWith(p)] *)
Definition startsWith (s p : string) : bool := String.prefix p s.

(** [s.slice(n)] for [0 <= n] *)
Fixpoint drop (n : nat) (s : string) : string :=
  match n, s with
  | O, _ => s
  | S n', String _ s' => drop n' s'
  | S _, EmptyString => EmptyString
  end.

(** [s.includes(p)] *)
Fixpoint includes (s p : string) : bool :=
  if String.prefix p s then true
  else match s with
       | EmptyString => false
       | String _ s' => includes s' p
       end.

(** [s.replace(p, r)] with a string pattern: the first occurrence only.
    (None of the replacement strings of the source contains a dollar
    sign, so no replacement pattern is involved.) *)
Fixpoint replace (s p r : string) : string :=
  if String.prefix p s then r +:+ drop (String.length p) s
  else match s with
       | EmptyString => EmptyString
       | String c s' => String c (replace s' p r)
       end.

(** [s.replace(/c/g, r)] for a one-character pattern [c] *)
Fixpoint replaceAllChar (c : ascii) (r : string) (s : string) : string :=
  match s with
  | EmptyString => EmptyString
  | String a s' =>
      (if Ascii.eqb a c then r else String a EmptyString)
        +:+ replaceAllChar c r s'
  end.

(** [s.replace(/\/$/, '')] : one trailing slash is removed *)
Fixpoint trimTrailingSlash (s : string) : string :=
  match s with
  | EmptyString => EmptyString
  | String a s' =>
      match s' with
      | EmptyString => if Ascii.eqb a "/" then EmptyString else s
      | String _ _ => String a (trimTrailingSlash s')
      end
  end.

(** [s.replace(/^p/, '')] for a literal prefix [p] *)
Definition stripPrefix (p s : string) : string :=
  if String.prefix p s then drop (String.length p) s else s.

(** [s.split(c)] for a one-character separator *)
Fixpoint splitChar (c : ascii) (s : string) : list string :=
  match s with
  | EmptyString => [EmptyString]
  | String a s' =>
      match splitChar c s' with
      | [] => [String a EmptyString]
      | w :: ws => if Ascii.eqb a c then EmptyString :: w :: ws
                   else String a w :: ws
      end
  end.

(** [xs.join(sep)] *)
Definition join (sep : string) (xs : list string) : string :=
  String.concat sep xs.

(** Truthiness of a string: non-empty. *)
Definition truthy (s : string) : bool := negb (String.eqb s "").

(** [a || b] on strings *)
Definition or (a b : string) : string := if truthy a then a else b.

(** Truthiness of a possibly undefined string *)
Definition truthy_opt (o : option string) : bool :=
  match o with Some s => truthy s | None => false end.

(** [xs.includes(x)] on an array of strings *)
Definition arrayIncludes (xs : list string) (x : string) : bool :=
  existsb (String.eqb x) xs.

(** [xs[xs.length - 1]] *)
Definition lastElem (xs : list string) : option string := List.last (map Some xs) None.

(** [xs.slice(0, -1)] *)
Definition sliceInit (xs : list string) : list string := List.removelast xs.

End JS.

(* ===================================================================== *)
(** * Data model *)
(* ===================================================================== *)

(** Values the code passes around without looking inside. *)
#[local] Unset Elimination Schemes.
Inductive json : Type :=
| JNull
| JBool (b : bool)
| JNum (n : Z)
| JStr (s : string)
| JArr (xs : list json)
| JObj (kvs : list (string * json)).
#[local] Set Elimination Schemes.

(** [{ value?: string }] with whatever other keys the layout service sent. *)
Record JsonValue := mkJsonValue {
  jv_value : option string;
  jv_rest : gmap string json
}.

(** [interface SitecoreField] *)
Record SitecoreField := mkField {
  value : option string;
  jsonValue : option JsonValue;
  field_rest : gmap string json
}.

(** [{ field?: { jsonValue?: { value?: string } } }], the shape of
    [data.datasource] and [data.contextItem] in a rendering. *)
Record BindingField := mkBindingField {
  bf_jsonValue : option JsonValue;
  bf_rest : gmap string json
}.

Record Binding := mkBinding {
  field : option BindingField;
  binding_rest : gmap string json
}.

Record RenderingData := mkRenderingData {
  datasource : option Binding;
  contextItem : option Binding;
  data_rest : gmap string json
}.

Record RenderingFields := mkRenderingFields {
  data : option RenderingData;
  fields_rest : gmap string json
}.

(** The [fields] member of a rendering as the layout service sends it:
    missing, [null], or an object. *)
Inductive FieldsMember :=
| FieldsAbsent
| FieldsNull
| FieldsObject (renderingFields : RenderingFields).

(** A component instance of a placeholder. *)
Record Rendering := mkRendering {
  componentName : option string;
  fields : FieldsMember;
  rendering_rest : gmap string json
}.

(** [layout.sitecore.route] *)
Record RouteData := mkRoute {
  name : string;
  itemId : string;
  route_fields : option (gmap string SitecoreField);
  placeholders : option (gmap string (list Rendering));
  route_rest : gmap string json
}.

(** [Page]: [layout?.sitecore?.route] and [layout?.sitecore?.context?.language]
    are the only members the resolver reads. *)
Record Page := mkPage {
  route : option RouteData;
  language : option string;
  page_rest : gmap string json
}.

(** [interface ItemField] *)
Record ItemField := mkItemField {
  if_name : string;
  if_value : string
}.

(** [interface WildcardChild] *)
Record WildcardChild := mkChild {
  child_id : string;
  child_name : string;
  child_path : string;
  child_url_path : string
}.

(** The [item] of a GraphQL answer; [ItemWithFieldsResponse] and
    [ChildrenResponse] select different members of it. *)
Record RemoteItem := mkItem {
  item_id : string;
  item_name : string;
  item_path : string;
  item_fields : option (list ItemField);
  item_children : option (list WildcardChild)
}.

(** Exceptions.  [RemoteUnavailable] and [RemoteQueryError] are the two
    [throw new Error] of [makeGraphQLRequest]; [TypeError] is what reading
    a member of [null] or [undefined] throws. *)
Inductive exn :=
| ApiKeyNotSet
| RemoteUnavailable (status body : string)
| RemoteQueryError (errors : string)
| FetchFailed
| JsonSyntaxError
| TypeError
| InvalidURL
| ClientError (msg : string).

(** How a piece of code ends: with a value, or with a thrown error. *)
Inductive result (A : Type) :=
| Ok (a : A)
| Throw (e : exn).
Arguments Ok {A} a.
Arguments Throw {A} e.

(** [JSON.parse(JSON.stringify(x))]: on plain data, a copy that shares
    nothing with [x]; with values instead of references, the identity. *)
Definition JSON_clone {A : Type} (x : A) : A := x.

(* ===================================================================== *)
(** * Field overlay (the page construction of queryTargetSiteAndCreatePage) *)
(* ===================================================================== *)

(** [f.name === 'Title' || f.name === 'title'] *)
Definition isTitleField (f : ItemField) : bool :=
  String.eqb (if_name f) "Title" || String.eqb (if_name f) "title".

(** [f.name === 'Content' || f.name === 'content'] *)
Definition isContentField (f : ItemField) : bool :=
  String.eqb (if_name f) "Content" || String.eqb (if_name f) "content".

(** [item.fields?.find(p)] *)
Definition findField (p : ItemField -> bool) (it : RemoteItem) : option ItemField :=
  match item_fields it with
  | Some fs => List.find p fs
  | None => None
  end.

(** [const title = titleField?.value || itemResponse.item.name] *)
Definition itemTitle (it : RemoteItem) : string :=
  JS.or (from_option if_value "" (findField isTitleField it)) (item_name it).

(** [const content = contentField?.value || ''] *)
Definition itemContent (it : RemoteItem) : string :=
  JS.or (from_option if_value "" (findField isContentField it)) "".

(** The object literal
    [{ ...(existing ? clone(existing) : {}), value: v,
       jsonValue: { ...(existing?.jsonValue ? clone(existing.jsonValue) : {}), value: v } }] *)
Definition overrideField (existing : option SitecoreField) (v : string) : SitecoreField :=
  {| value := Some v;
     jsonValue :=
       Some {| jv_value := Some v;
               jv_rest := match existing with
                          | Some f => match jsonValue f with
                                      | Some jv => jv_rest (JSON_clone jv)
                                      | None => ∅
                                      end
                          | None => ∅
                          end |};
     field_rest := match existing with
                   | Some f => field_rest (JSON_clone f)
                   | None => ∅
                   end |}.

(** [updatedFields]: a copy of the template's fields in which [Title] is
    overridden, and [Content] too when the remote content is non-empty. *)
Definition updateFields (existingFields : gmap string SitecoreField)
    (title content : string) : gmap string SitecoreField :=
  let existingTitleField := existingFields !! "Title" in
  let existingContentField := existingFields !! "Content" in
  let updatedFields := <["Title" := overrideField existingTitleField title]> existingFields in
  if JS.truthy content
  then <["Content" := overrideField existingContentField content]> updatedFields
  else updatedFields.

(** [titleField.value || titleField.jsonValue?.value || ''] *)
Definition bindingValue (titleField : SitecoreField) : string :=
  JS.or (default "" (value titleField))
        (JS.or (default "" (match jsonValue titleField with
                            | Some jv => jv_value jv
                            | None => None
                            end)) "").

(** One of the two guarded assignments of [updateRenderingFields]:
    [if (b?.field?.jsonValue && titleField) b.field.jsonValue.value = ...] *)
Definition updateBinding (titleField : option SitecoreField) (b : option Binding)
  : option Binding :=
  match b with
  | Some bd =>
      match field bd with
      | Some f =>
          match bf_jsonValue f, titleField with
          | Some jv, Some tf =>
              Some {| field := Some {| bf_jsonValue :=
                                         Some {| jv_value := Some (bindingValue tf);
                                                 jv_rest := jv_rest jv |};
                                       bf_rest := bf_rest f |};
                      binding_rest := binding_rest bd |}
          | _, _ => b
          end
      | None => b
      end
  | None => b
  end.

(** The helper [updateRenderingFields]; [titleField] and [contentField] are
    the two variables of the enclosing scope.  The guard is
    [rendering && typeof rendering === 'object' && 'fields' in rendering]:
    a rendering whose [fields] is [null] passes it, and reading
    [renderingFields.data] then throws a [TypeError]. *)
Definition updateRenderingFields (titleField contentField : option SitecoreField)
    (rendering : Rendering) : result Rendering :=
  match fields rendering with
  | FieldsObject renderingFields =>
      match data renderingFields with
      | Some d =>
          Ok {| componentName := componentName rendering;
                fields := FieldsObject
                            {| data := Some {| datasource :=
                                                 updateBinding titleField (datasource d);
                                               contextItem :=
                                                 updateBinding titleField (contextItem d);
                                               data_rest := data_rest d |};
                               fields_rest := fields_rest renderingFields |};
                rendering_rest := rendering_rest rendering |}
      | None => Ok rendering
      end
  | FieldsNull => Throw TypeError
  | FieldsAbsent => Ok rendering
  end.

(** [placeholder.forEach((rendering, index) => updateRenderingFields(...))]:
    the renderings in order; a thrown error ends the loop. *)
Fixpoint updateEach (titleField contentField : option SitecoreField)
    (placeholder : list Rendering) : result (list Rendering) :=
  match placeholder with
  | [] => Ok []
  | rendering :: rest =>
      match updateRenderingFields titleField contentField rendering with
      | Throw e => Throw e
      | Ok rendering' =>
          match updateEach titleField contentField rest with
          | Throw e => Throw e
          | Ok rest' => Ok (rendering' :: rest')
          end
      end
  end.

(** [Object.keys(placeholders).forEach(placeholderName => {...})]: the
    placeholders one after the other; a thrown error ends the traversal. *)
Definition updatePlaceholders (titleField contentField : option SitecoreField)
    (phs : gmap string (list Rendering)) : result (gmap string (list Rendering)) :=
  map_fold (fun placeholderName placeholder (acc : result (gmap string (list Rendering))) =>
              match acc with
              | Throw e => Throw e
              | Ok updated =>
                  match updateEach titleField contentField placeholder with
                  | Throw e => Throw e
                  | Ok placeholder' => Ok (<[placeholderName := placeholder']> updated)
                  end
              end) (Ok ∅) phs.

(** The page built on the wildcard page: route name, id and fields are
    replaced and the title is pushed into the placeholders.  [Ok None] is
    the [return null] of a template without a route; the block throws
    when [updateRenderingFields] does. *)
Definition overlayWildcard (wildcardPage : Page)
    (itemName itemIdent title content : string) : result (option Page) :=
  match route wildcardPage with
  | None => Ok None
  | Some rt =>
      let existingFields := default ∅ (route_fields rt) in
      let updatedFields := updateFields existingFields title content in
      let modifiedPage := JSON_clone wildcardPage in
      match route modifiedPage with
      | Some r =>
          match placeholders r with
          | Some phs =>
              match updatePlaceholders (updatedFields !! "Title")
                      (updatedFields !! "Content") phs with
              | Throw e => Throw e
              | Ok phs' =>
                  Ok (Some {| route := Some {| name := itemName;
                                               itemId := itemIdent;
                                               route_fields := Some updatedFields;
                                               placeholders := Some phs';
                                               route_rest := route_rest r |};
                              language := language modifiedPage;
                              page_rest := page_rest modifiedPage |})
              end
          | None =>
              Ok (Some {| route := Some {| name := itemName;
                                           itemId := itemIdent;
                                           route_fields := Some updatedFields;
                                           placeholders := None;
                                           route_rest := route_rest r |};
                          language := language modifiedPage;
                          page_rest := page_rest modifiedPage |})
          end
      | None => Ok (Some modifiedPage)
      end
  end.

(** The page built on the parent page or on the root page (the two blocks
    are the same text): route name, id and fields are replaced, the
    placeholders are those of the copy. *)
Definition overlayTemplate (templatePage : Page)
    (itemName itemIdent title content : string) : option Page :=
  match route templatePage with
  | None => None
  | Some rt =>
      let existingFields := default ∅ (route_fields rt) in
      let updatedFields := updateFields existingFields title content in
      let modifiedPage := JSON_clone templatePage in
      Some match route modifiedPage with
           | Some r =>
               {| route := Some {| name := itemName;
                                   itemId := itemIdent;
                                   route_fields := Some updatedFields;
                                   placeholders := placeholders r;
                                   route_rest := route_rest r |};
                  language := language modifiedPage;
                  page_rest := page_rest modifiedPage |}
           | None => modifiedPage
           end
  end.

Definition createPageFromWildcard (wildcardPage : Page) (it : RemoteItem)
  : result (option Page) :=
  overlayWildcard wildcardPage (item_name it) (item_id it) (itemTitle it) (itemContent it).

Definition createPageFromTemplate (templatePage : Page) (it : RemoteItem) : option Page :=
  overlayTemplate templatePage (item_name it) (item_id it) (itemTitle it) (itemContent it).

(* ===================================================================== *)
(** * The outside world and the monad of asynchronous computations *)
(* ===================================================================== *)

(** The three query documents. *)
Inductive QueryKind := GET_CHILDREN_BY_PATH_QUERY | GET_CHILDREN_BY_ID_QUERY | GET_ITEM_WITH_FIELDS_QUERY.

(** What [makeGraphQLRequest] hands to [fetch]. *)
Record HttpRequest := mkRequest {
  req_endpoint : string;
  req_apikey : string;
  req_query : QueryKind;
  req_path : string;
  req_language : string
}.

(** The envelope [{ errors, data: { item } }] of a GraphQL answer:
    [res_errors] is the serialised [errors] member when it is truthy,
    [res_data] is [None] when [data] is missing and [Some None] when
    [data.item] is null. *)
Record GraphQLResult := mkResult {
  res_errors : option string;
  res_data : option (option RemoteItem)
}.

(** A [fetch] response; [resp_json = None] when the body is not JSON. *)
Record HttpResponse := mkResponse {
  resp_ok : bool;
  resp_status : string;
  resp_text : string;
  resp_json : option GraphQLResult
}.

(** Calls that leave the process, in the order they are made. *)
Inductive event :=
| EvGetPage (path : list string) (site locale : string)
| EvFetch (r : HttpRequest)
| EvNow.

Record World := mkWorld {
  (** [client.getPage(path, { site, locale })] *)
  client_getPage : list event -> list string -> string -> string -> result (option Page);
  (** [fetch(endpoint, { method: 'POST', headers, body })]; [None]: the promise rejects *)
  global_fetch : list event -> HttpRequest -> option HttpResponse;
  (** [new Date().toISOString()] *)
  date_now : list event -> string;
  (** [new URL(s)] as [(protocol, host)]; [None]: the constructor throws *)
  url_parse : string -> option (string * string)
}.

(** [process.env] and [sitecore.config]; an unset string is the empty string. *)
Record Config := mkConfig {
  SITECORE_TARGET_SITE_NAME : string;
  SITECORE_TARGET_SITE_PATH : string;
  SITECORE_GRAPHQL_API_KEY : string;
  SITECORE_WILDCARD_PATH_PREFIX : string;
  edgeUrl : string;
  contextId : string;
  defaultSite : string;
  sites : list string
}.

Definition M (A : Type) : Type := list event -> result A * list event.

Definition ret {A} (a : A) : M A := fun h => (Ok a, h).

Definition bind {A B} (m : M A) (k : A -> M B) : M B :=
  fun h => match m h with
           | (Ok a, h') => k a h'
           | (Throw e, h') => (Throw e, h')
           end.

Definition throw {A} (e : exn) : M A := fun h => (Throw e, h).

(** A block that makes no call, inside an asynchronous function: its
    value is returned, its error thrown. *)
Definition lift {A} (r : result A) : M A := fun h => (r, h).

(** [try { m } catch (e) { handler e }] *)
Definition try_catch {A} (m : M A) (handler : exn -> M A) : M A :=
  fun h => match m h with
           | (Ok a, h') => (Ok a, h')
           | (Throw e, h') => handler e h'
           end.

Declare Scope async_scope.
Delimit Scope async_scope with async.
Notation "x <- c1 ;; c2" := (bind c1 (fun x => c2))
  (at level 100, c1 at next level, right associativity) : async_scope.
Local Open Scope async_scope.

(** The newline of the template literals. *)
Definition nl : string := String (ascii_of_nat 10) EmptyString.

Section Program.

Variable w : World.
Variable cfg : Config.

Definition TARGET_SITE_NAME : string := SITECORE_TARGET_SITE_NAME cfg.
Definition TARGET_SITE_PATH : string := SITECORE_TARGET_SITE_PATH cfg.
(** [process.env.SITECORE_WILDCARD_PATH_PREFIX || 'blog'] *)
Definition WILDCARD_PATH_PREFIX : string := JS.or (SITECORE_WILDCARD_PATH_PREFIX cfg) "blog".

(** [await client.getPage(path, { site, locale })] *)
Definition getPage (path : list string) (site locale : string) : M (option Page) :=
  fun h => (client_getPage w h path site locale, h ++ [EvGetPage path site locale]).

(** [await fetch(...)] *)
Definition fetch (r : HttpRequest) : M HttpResponse :=
  fun h => (match global_fetch w h r with
            | Some resp => Ok resp
            | None => Throw FetchFailed
            end, h ++ [EvFetch r]).

(** [new Date().toISOString()] *)
Definition nowISO : M string := fun h => (Ok (date_now w h), h ++ [EvNow]).

(** ** makeGraphQLRequest (the same text in both modules) *)
Definition makeGraphQLRequest (baseEdgeUrl : string) (query : QueryKind)
    (path language : string) (apiKey : string) : M (option (option RemoteItem)) :=
  let graphqlApiKey := JS.or (SITECORE_GRAPHQL_API_KEY cfg) apiKey in
  if negb (JS.truthy graphqlApiKey) then throw ApiKeyNotSet
  else
    let cleanBaseUrl := JS.trimTrailingSlash baseEdgeUrl in
    let cleanBaseUrl :=
      if JS.includes cleanBaseUrl "edge-platform.sitecorecloud.io"
      then JS.replace cleanBaseUrl "edge-platform.sitecorecloud.io" "edge.sitecorecloud.io"
      else cleanBaseUrl in
    let graphQLEndpoint := cleanBaseUrl +:+ "/api/graphql/v1" in
    response <- fetch {| req_endpoint := graphQLEndpoint;
                         req_apikey := graphqlApiKey;
                         req_query := query;
                         req_path := path;
                         req_language := language |} ;;
    if negb (resp_ok response)
    then throw (RemoteUnavailable (resp_status response) (resp_text response))
    else
      match resp_json response with
      | None => throw JsonSyntaxError
      | Some res =>
          match res_errors res with
          | Some errs => throw (RemoteQueryError errs)
          | None => ret (res_data res)
          end
      end.

(** [response.item] on the value returned by [makeGraphQLRequest]:
    reading a member of [undefined] throws. *)
Definition responseItem (response : option (option RemoteItem)) : M (option RemoteItem) :=
  match response with
  | Some it => ret it
  | None => throw TypeError
  end.

(** [page.layout?.sitecore?.route?.name || ''] *)
Definition routeName (page : Page) : string :=
  match route page with Some r => name r | None => "" end.

(** [page.layout?.sitecore?.route?.itemId || ''] *)
Definition routeItemId (page : Page) : string :=
  match route page with Some r => itemId r | None => "" end.

(** ** queryTargetSiteAndCreatePage: the search for a template *)

(** [const wildcardPaths = [...]] of queryTargetSiteAndCreatePage *)
Definition templatePaths (path : list string) : list (list string) :=
  [ match path with p0 :: _ => [p0; "*"] | [] => ["*"] end;
    ["*"];
    match path with p0 :: _ => [p0] | [] => [] end ].

(** The body of [for (const wildcardPath of wildcardPaths)]: the new value
    of the variable [wildcardPage] and whether the loop is left by
    [break].  The only statement of the outer [try] that can throw is
    the call of [getPage], before the variable is assigned. *)
Definition templateLoopBody (site locale : string) (wildcardPage : option Page)
    (wildcardPath : list string) : M (option Page * bool) :=
  try_catch
    (wildcardPage <- getPage wildcardPath site locale ;;
     match wildcardPage with
     | Some page =>
         let itemName := routeName page in
         let isWildcard := String.eqb itemName "*" || JS.arrayIncludes wildcardPath "*" in
         if isWildcard || JS.arrayIncludes wildcardPath "*"
         then ret (wildcardPage, true)
         else if (0 <? length wildcardPath)%nat
                 && negb (bool_decide (JS.lastElem wildcardPath = Some "*"))
         then
           try_catch
             (childWildcardPage <- getPage (wildcardPath ++ ["*"]) site locale ;;
              match childWildcardPage with
              | Some child =>
                  if String.eqb (routeName child) "*"
                  then ret (childWildcardPage, true)
                  else ret (wildcardPage, false)
              | None => ret (wildcardPage, false)
              end)
             (fun _ => ret (wildcardPage, false))
         else ret (wildcardPage, false)
     | None => ret (wildcardPage, false)
     end)
    (fun _ => ret (wildcardPage, false)).

Fixpoint templateLoop (site locale : string) (wildcardPage : option Page)
    (wildcardPaths : list (list string)) : M (option Page) :=
  match wildcardPaths with
  | [] => ret wildcardPage
  | wildcardPath :: rest =>
      step <- templateLoopBody site locale wildcardPage wildcardPath ;;
      if (snd step : bool) then ret (fst step)
      else templateLoop site locale (fst step) rest
  end.

(** [let wildcardPage = null; for (...) {...}] *)
Definition findWildcardPage (path : list string) (site locale : string) : M (option Page) :=
  templateLoop site locale None (templatePaths path).

(** The [else] branch of [if (wildcardPage)]: the parent page, then the
    root page.  Neither call of [getPage] is inside a [try] of its own. *)
Definition ancestorTemplate (path : list string) (site locale : string)
    (it : RemoteItem) : M (option Page) :=
  let parentPath := match path with p0 :: _ => [p0] | [] => [] end in
  parentPage <- getPage parentPath site locale ;;
  match parentPage with
  | Some parent => ret (createPageFromTemplate parent it)
  | None =>
      rootPage <- getPage [] site locale ;;
      match rootPage with
      | Some root => ret (createPageFromTemplate root it)
      | None => ret None
      end
  end.

(** [path.filter(...)] of queryTargetSiteAndCreatePage *)
Definition validSegment (segment : string) : bool :=
  JS.truthy segment
  && negb (JS.includes segment ".")
  && negb (JS.startsWith segment ".well-known")
  && negb (String.eqb segment "com.chrome.devtools.json").

(** [validPath.length > 1 ? validPath[validPath.length - 1] : validPath[0]],
    as it is printed inside a template literal *)
Definition requestedItemName (validPath : list string) : string :=
  if (1 <? length validPath)%nat
  then default "undefined" (JS.lastElem validPath)
  else default "undefined" (head validPath).

Definition targetItemPathOf (path : list string) : string :=
  TARGET_SITE_PATH +:+ "/" +:+ requestedItemName (List.filter validSegment path).

Definition queryTargetSiteAndCreatePage (path : list string) (site locale : string)
  : M (option Page) :=
  try_catch
    (if negb (JS.truthy TARGET_SITE_NAME) || negb (JS.truthy TARGET_SITE_PATH)
     then ret None
     else if negb (JS.truthy (edgeUrl cfg)) || negb (JS.truthy (contextId cfg))
     then ret None
     else
       let targetItemPath := targetItemPathOf path in
       let normalizedLanguage :=
         if JS.truthy locale && negb (String.eqb locale "appspecific") then locale else "en" in
       itemResponse <- makeGraphQLRequest (edgeUrl cfg) GET_ITEM_WITH_FIELDS_QUERY
                         targetItemPath normalizedLanguage (contextId cfg) ;;
       item <- responseItem itemResponse ;;
       match item with
       | Some it =>
           wildcardPage <- findWildcardPage path site locale ;;
           match wildcardPage with
           | Some wp => lift (createPageFromWildcard wp it)
           | None => ancestorTemplate path site locale it
           end
       | None => ret None
       end)
    (fun _ => ret None).

(** ** logWildcardChildren *)

(** The block [if (wildcardItemId) { try {...} catch {...} }]; [true] when
    it ends in [return]. *)
Definition logChildrenById (wildcardItemId language : string) : M bool :=
  if JS.truthy wildcardItemId
  then try_catch
         (response <- makeGraphQLRequest (edgeUrl cfg) GET_CHILDREN_BY_ID_QUERY
                        wildcardItemId language (contextId cfg) ;;
          item <- responseItem response ;;
          match item with
          | Some _ => ret true
          | None => ret false
          end)
         (fun _ => ret false)
  else ret false.

(** The loop over [pathFormats]; [true] when it ends in [return]. *)
Fixpoint logChildrenByPath (pathFormats : list string) (language : string) : M bool :=
  match pathFormats with
  | [] => ret false
  | pathFormat :: rest =>
      found <- try_catch
                 (response <- makeGraphQLRequest (edgeUrl cfg) GET_CHILDREN_BY_PATH_QUERY
                                pathFormat language (contextId cfg) ;;
                  item <- responseItem response ;;
                  match item with
                  | Some _ => ret true
                  | None => ret false
                  end)
                 (fun _ => ret false) ;;
      if (found : bool) then ret true else logChildrenByPath rest language
  end.

Definition logWildcardChildren (wildcardItemPath : option string)
    (wildcardItemId language : string) : M unit :=
  try_catch
    (if negb (JS.truthy (edgeUrl cfg)) || negb (JS.truthy (contextId cfg))
     then ret tt
     else if negb (JS.truthy (contextId cfg))
     then ret tt
     else
       done <- logChildrenById wildcardItemId language ;;
       if (done : bool) then ret tt
       else
         match wildcardItemPath with
         | Some p =>
             if JS.truthy p
             then _ <- logChildrenByPath
                         [p; JS.stripPrefix "/" p; JS.stripPrefix "/sitecore/content/" p]
                         language ;;
                  ret tt
             else ret tt
         | None => ret tt
         end)
    (fun _ => ret tt).

(** ** resolvePageWithWildcard *)

(** The test of the early return for system requests. *)
Definition isSystemRequest (path : list string) (site locale : string) : bool :=
  String.eqb site ".well-known"
  || String.eqb locale "appspecific"
  || existsb (fun segment => JS.includes segment "devtools"
                             || JS.includes segment "chrome"
                             || JS.includes segment ".well-known") path.

(** The predicate of [cleanedPath = path.filter(...)] *)
Definition cleanSegment (segment : string) : bool :=
  JS.truthy segment
  && negb (JS.includes segment ".")
  && negb (JS.startsWith segment ".well-known")
  && negb (String.eqb segment "com.chrome.devtools.json")
  && negb (JS.includes segment "devtools")
  && negb (JS.includes segment "chrome").

Definition cleanPath (path : list string) : list string :=
  List.filter cleanSegment path.

(** [locale && locale !== 'appspecific' && locale !== 'undefined' ? locale : 'en'] *)
Definition normalizeLocale (locale : string) : string :=
  if JS.truthy locale && negb (String.eqb locale "appspecific")
     && negb (String.eqb locale "undefined")
  then locale else "en".

(** [const wildcardPaths = [...]] of resolvePageWithWildcard (Step 2) *)
Definition probePaths (finalPath : list string) : list (list string) :=
  [ match finalPath with p0 :: _ => [p0; "*"] | [] => ["*"] end;
    ["*"];
    if (1 <? length finalPath)%nat then JS.sliceInit finalPath ++ ["*"] else ["*"] ].

(** The loop of Step 2: the variables [wildcardPage] and [wildcardItemId]
    when the loop is left.  [getPage] is not inside a [try] here. *)
Fixpoint probeLoop (site finalLocale : string) (wildcardPaths : list (list string))
  : M (option Page * string) :=
  match wildcardPaths with
  | [] => ret (None, "")
  | wildcardPath :: rest =>
      wildcardPage <- getPage wildcardPath site finalLocale ;;
      match wildcardPage with
      | Some page => ret (wildcardPage, routeItemId page)
      | None => probeLoop site finalLocale rest
      end
  end.

Definition targetConfigured : bool :=
  JS.truthy TARGET_SITE_NAME && JS.truthy TARGET_SITE_PATH.

(** The branch [if (!page) {...}] *)
Definition resolveMissing (finalPath : list string) (site finalLocale : string)
  : M (option Page) :=
  probe <- probeLoop site finalLocale (probePaths finalPath) ;;
  let wildcardPage := fst probe in
  let wildcardItemId := snd probe in
  if bool_decide (wildcardPage <> None) && JS.truthy wildcardItemId
  then
    if targetConfigured
    then
      targetPage <- queryTargetSiteAndCreatePage finalPath site finalLocale ;;
      match targetPage with
      | Some tp => ret (Some tp)
      | None => ret None
      end
    else ret None
  else
    if targetConfigured
    then
      targetPage <- queryTargetSiteAndCreatePage finalPath site finalLocale ;;
      match targetPage with
      | Some tp => ret (Some tp)
      | None => ret None
      end
    else ret None.

(** The body of the [try] of resolvePageWithWildcard. *)
Definition resolveBody (path : list string) (site locale : string) : M (option Page) :=
  if isSystemRequest path site locale then ret None
  else
    let cleanedPath := cleanPath path in
    let normalizedLocale := normalizeLocale locale in
    let finalPath := cleanedPath in
    let finalLocale := normalizedLocale in
    match finalPath with
    | [] => getPage [] site finalLocale
    | _ :: _ =>
        page <- getPage finalPath site finalLocale ;;
        match page with
        | None => resolveMissing finalPath site finalLocale
        | Some pg =>
            let itemName := routeName pg in
            let itemId := routeItemId pg in
            let isWildcardPage := String.eqb itemName "*" in
            if isWildcardPage && (0 <? length path)%nat
            then
              let actualLanguage := JS.or (default "" (language pg)) locale in
              _ <- logWildcardChildren None itemId actualLanguage ;;
              ret None
            else ret (Some pg)
        end
    end.

Definition resolvePageWithWildcard (path : list string) (site locale : string)
  : M (option Page) :=
  try_catch (resolveBody path site locale) (fun _ => ret None).

(** [resolveWildcardPage] delegates to the main resolver. *)
Definition resolveWildcardPage (path : list string) (site locale : string)
  : M (option Page) :=
  resolvePageWithWildcard path site locale.

(** ** sitemap-utils *)

Definition getTargetSiteChildren (locale : string) : M (list WildcardChild) :=
  if negb (JS.truthy TARGET_SITE_NAME) || negb (JS.truthy TARGET_SITE_PATH)
  then ret []
  else if negb (JS.truthy (edgeUrl cfg)) || negb (JS.truthy (contextId cfg))
  then ret []
  else
    let normalizedLanguage :=
      if JS.truthy locale && negb (String.eqb locale "appspecific") then locale else "en" in
    try_catch
      (response <- makeGraphQLRequest (edgeUrl cfg) GET_CHILDREN_BY_PATH_QUERY
                     TARGET_SITE_PATH normalizedLanguage (contextId cfg) ;;
       item <- responseItem response ;;
       match item with
       | Some it =>
           match item_children it with
           | Some results => ret results
           | None => ret []
           end
       | None => ret []
       end)
      (fun _ => ret []).

(** The loop over [possiblePaths]; [None] when no path gave a wildcard page. *)
Fixpoint prefixLoop (site locale : string) (possiblePaths : list (list string))
  : M (option (list string)) :=
  match possiblePaths with
  | [] => ret None
  | path :: rest =>
      found <- try_catch
                 (page <- getPage path site locale ;;
                  match page with
                  | Some pg =>
                      match route pg with
                      | Some r =>
                          if String.eqb (name r) "*"
                          then ret (Some (List.filter (fun segment => negb (String.eqb segment "*")) path))
                          else ret None
                      | None => ret None
                      end
                  | None => ret None
                  end)
                 (fun _ => ret None) ;;
      match found with
      | Some prefix => ret (Some prefix)
      | None => prefixLoop site locale rest
      end
  end.

Definition getWildcardPathPrefix (site locale : string) : M (list string) :=
  let configured :=
    if JS.truthy WILDCARD_PATH_PREFIX && negb (String.eqb WILDCARD_PATH_PREFIX "blog")
    then List.filter JS.truthy (JS.splitChar "/" WILDCARD_PATH_PREFIX)
    else [] in
  match configured with
  | _ :: _ => ret configured
  | [] =>
      found <- prefixLoop site locale [[WILDCARD_PATH_PREFIX; "*"]; ["*"]] ;;
      match found with
      | Some prefix => ret prefix
      | None => ret [WILDCARD_PATH_PREFIX]
      end
  end.

(** ** The sitemap route *)

(** The double quote character. *)
Definition dquote : ascii := ascii_of_nat 34.

Definition escapeXml (unsafe : string) : string :=
  JS.replaceAllChar "'" "&apos;"
    (JS.replaceAllChar dquote "&quot;"
       (JS.replaceAllChar ">" "&gt;"
          (JS.replaceAllChar "<" "&lt;"
             (JS.replaceAllChar "&" "&amp;" unsafe)))).

(** One element pushed on [wildcardUrlEntries]. *)
Definition urlEntry (fullUrl lastmod : string) : string :=
  nl +:+ "    <url>" +:+ nl
     +:+ "      <loc>" +:+ escapeXml fullUrl +:+ "</loc>" +:+ nl
     +:+ "      <lastmod>" +:+ lastmod +:+ "</lastmod>" +:+ nl
     +:+ "      <changefreq>weekly</changefreq>" +:+ nl
     +:+ "      <priority>0.8</priority>" +:+ nl
     +:+ "    </url>".

Definition childUrl (baseUrl defaultSiteName defaultLocale : string)
    (wildcardPrefix : list string) (child : WildcardChild) : string :=
  let pathSegments := [defaultSiteName; defaultLocale] ++ wildcardPrefix ++ [child_name child] in
  let urlPath := "/" +:+ JS.join "/" pathSegments in
  baseUrl +:+ urlPath.

(** [for (const child of targetChildren) wildcardUrlEntries.push(...)] *)
Fixpoint buildEntries (baseUrl defaultSiteName defaultLocale : string)
    (wildcardPrefix : list string) (targetChildren : list WildcardChild)
  : M (list string) :=
  match targetChildren with
  | [] => ret []
  | child :: rest =>
      lastmod <- nowISO ;;
      entries <- buildEntries baseUrl defaultSiteName defaultLocale wildcardPrefix rest ;;
      ret (urlEntry (childUrl baseUrl defaultSiteName defaultLocale wildcardPrefix child) lastmod
             :: entries)
  end.

Definition closingTag : string := "</urlset>".

(** The insertion at the end of [enhanceSitemapWithWildcardPages]. *)
Definition insertEntries (sitemapXml : string) (wildcardUrlEntries : list string) : string :=
  if JS.includes sitemapXml closingTag
  then
    let beforeClosing := JS.replace sitemapXml closingTag "" in
    beforeClosing +:+ JS.join "" wildcardUrlEntries +:+ nl +:+ closingTag
  else sitemapXml +:+ JS.join "" wildcardUrlEntries.

(** [scConfig.defaultSite || sites[0]?.name || ''] *)
Definition sitemapDefaultSite : string :=
  JS.or (defaultSite cfg) (JS.or (default "" (head (sites cfg))) "").

Definition enhanceSitemapWithWildcardPages (sitemapXml : string) (requestUrl : string)
  : M string :=
  if negb (JS.truthy TARGET_SITE_NAME) || negb (JS.truthy TARGET_SITE_PATH)
  then ret sitemapXml
  else
    try_catch
      (let defaultSiteName := sitemapDefaultSite in
       let defaultLocale := "en" in
       if negb (JS.truthy defaultSiteName) then ret sitemapXml
       else
         wildcardPrefix <- getWildcardPathPrefix defaultSiteName defaultLocale ;;
         targetChildren <- getTargetSiteChildren defaultLocale ;;
         if (length targetChildren =? 0)%nat then ret sitemapXml
         else
           match url_parse w requestUrl with
           | None => throw InvalidURL
           | Some (protocol, host) =>
               let baseUrl := protocol +:+ "//" +:+ host in
               wildcardUrlEntries <- buildEntries baseUrl defaultSiteName defaultLocale
                                       wildcardPrefix targetChildren ;;
               ret (insertEntries sitemapXml wildcardUrlEntries)
           end)
      (fun _ => ret sitemapXml).

End Program.

(* ===================================================================== *)
(** * Vocabulary of the statements *)
(* ===================================================================== *)

(** The placeholder tree of a page, when it has one. *)
Definition placeholdersOf (p : Page) : option (gmap string (list Rendering)) :=
  match route p with
  | Some r => placeholders r
  | None => None
  end.

(** The top-level field [k] of a page's route. *)
Definition routeField (p : Page) (k : string) : option SitecoreField :=
  match route p with
  | Some r => match route_fields r with
              | Some fs => fs !! k
              | None => None
              end
  | None => None
  end.

(** The [jsonValue] object bound under [datasource] or [contextItem]. *)
Definition bindingJson (b : option Binding) : option JsonValue :=
  match b with
  | Some bd => match field bd with
               | Some f => bf_jsonValue f
               | None => None
               end
  | None => None
  end.

(** A binding with the leaf [field.jsonValue.value] blanked out. *)
Definition blankBinding (b : option Binding) : option Binding :=
  match b with
  | Some bd =>
      Some {| field := match field bd with
                       | Some f =>
                           Some {| bf_jsonValue :=
                                     match bf_jsonValue f with
                                     | Some jv => Some {| jv_value := None; jv_rest := jv_rest jv |}
                                     | None => None
                                     end;
                                   bf_rest := bf_rest f |}
                       | None => None
                       end;
              binding_rest := binding_rest bd |}
  | None => None
  end.

(** A rendering with the two leaves [data.datasource.field.jsonValue.value]
    and [data.contextItem.field.jsonValue.value] blanked out: everything
    else of the rendering is kept. *)
Definition blankRendering (r : Rendering) : Rendering :=
  {| componentName := componentName r;
     fields := match fields r with
               | FieldsObject rf =>
                   FieldsObject
                        {| data := match data rf with
                                   | Some d =>
                                       Some {| datasource := blankBinding (datasource d);
                                               contextItem := blankBinding (contextItem d);
                                               data_rest := data_rest d |}
                                   | None => None
                                   end;
                           fields_rest := fields_rest rf |}
               | other => other
               end;
     rendering_rest := rendering_rest r |}.

(** The bindings of a rendering, [datasource] first. *)
Definition renderingBindings (r : Rendering) : list (option Binding) :=
  match fields r with
  | FieldsObject rf => match data rf with
                       | Some d => [datasource d; contextItem d]
                       | None => []
                       end
  | _ => []
  end.

(** Every bound leaf of the rendering holds [v]. *)
Definition leavesAre (v : string) (r : Rendering) : Prop :=
  ∀ b jv, In b (renderingBindings r) → bindingJson b = Some jv → jv_value jv = Some v.

(** The rendering has no bound leaf at all. *)
Definition noBoundLeaf (r : Rendering) : Prop :=
  ∀ b, In b (renderingBindings r) → bindingJson b = None.

(** [phs'] holds, under each name of [phs], the renderings of [phs] as
    the loop over the placeholder leaves them. *)
Definition updatedBy (tf cf : option SitecoreField)
    (phs phs' : gmap string (list Rendering)) : Prop :=
  ∀ k, match phs !! k, phs' !! k with
       | Some rs, Some rs' => updateEach tf cf rs = Ok rs'
       | None, None => True
       | _, _ => False
       end.

(** A rendering of a top-level placeholder of the page has [fields: null]. *)
Definition hasNullFields (D : Page) : Prop :=
  ∃ phs k rs r, placeholdersOf D = Some phs ∧ phs !! k = Some rs ∧ In r rs
                ∧ fields r = FieldsNull.


(** The answer of the Content Client at history [h], a thrown error
    counting as "no document". *)
Definition clientAnswer (w : World) (h : list event) (path : list string)
    (site locale : string) : option Page :=
  match client_getPage w h path site locale with
  | Ok r => r
  | Throw _ => None
  end.

(** The document is named by the wildcard marker. *)
Definition namedByMarker (doc : Page) : bool :=
  match route doc with
  | Some rt => String.eqb (name rt) "*"
  | None => false
  end.

(** The path has the wildcard marker among its segments. *)
Definition containsMarker (path : list string) : bool :=
  existsb (String.eqb "*") path.

(** The wildcard discovery as the specification words it: the candidates
    are tried in their order, each one only when the search has not
    stopped before; the search stops at the first candidate that
    resolves to a document named by the marker, or that resolves to a
    document and has the marker in its path.  A candidate that resolves
    to a document that is not a wildcard is a parent: the path made of
    it and the marker is probed beneath it, as one more candidate.  When
    no candidate stops the search, no wildcard template is found.  The
    result comes with the paths asked for, in the order of the calls. *)
Fixpoint discoverySearch (w : World) (site locale : string)
    (candidates : list (list string)) (h : list event)
  : option Page * list (list string) :=
  match candidates with
  | [] => (None, [])
  | path :: rest =>
      let h1 := h ++ [EvGetPage path site locale] in
      match clientAnswer w h path site locale with
      | None =>
          let (found, asked) := discoverySearch w site locale rest h1 in
          (found, path :: asked)
      | Some doc =>
          if namedByMarker doc || containsMarker path then (Some doc, [path])
          else
            let child := path ++ ["*"] in
            let h2 := h1 ++ [EvGetPage child site locale] in
            match clientAnswer w h1 child site locale with
            | Some childDoc =>
                if namedByMarker childDoc || containsMarker child
                then (Some childDoc, [path; child])
                else
                  let (found, asked) := discoverySearch w site locale rest h2 in
                  (found, path :: child :: asked)
            | None =>
                let (found, asked) := discoverySearch w site locale rest h2 in
                (found, path :: child :: asked)
            end
      end
  end.

(** The candidates of the specification for a path that starts with
    [firstSegment]: [[firstSegment, "*"]], [["*"]], [[firstSegment]]. *)
Definition discoverySpec (w : World) (firstSegment site locale : string) (h : list event)
  : option Page * list (list string) :=
  discoverySearch w site locale [[firstSegment; "*"]; ["*"]; [firstSegment]] h.

(** The Content Client never answers with a document. *)
Definition clientSilent (w : World) : Prop :=
  ∀ h path site locale, client_getPage w h path site locale = Ok None.

(** An answer of [fetch] from which [makeGraphQLRequest] extracts the
    item [it]: success status, a JSON body, no errors, [data.item = it]. *)
Definition answersWith (resp : HttpResponse) (it : RemoteItem) : Prop :=
  resp_ok resp = true
  ∧ ∃ res, resp_json resp = Some res ∧ res_errors res = None
           ∧ res_data res = Some (Some it).

(** The Remote Query Client never answers with an item: each call rejects,
    has a non-success status (RemoteUnavailable), carries errors
    (RemoteQueryError), or has no item. *)
Definition remoteSilent (w : World) : Prop :=
  ∀ h r resp it, global_fetch w h r = Some resp → ¬ answersWith resp it.

(** Some call of the Content Client was answered with the document [tpl]. *)
Definition fromClient (w : World) (site locale : string) (tpl : Page) : Prop :=
  ∃ h path, client_getPage w h path site locale = Ok (Some tpl).

(** The page [p] is an overlay: of an item the remote source answered
    with, on a document the Content Client answered with. *)
Definition enrichedFrom (w : World) (site locale : string) (p : Page) : Prop :=
  ∃ it tpl,
    (∃ h r resp, global_fetch w h r = Some resp ∧ answersWith resp it
                 ∧ req_query r = GET_ITEM_WITH_FIELDS_QUERY)
    ∧ fromClient w site locale tpl
    ∧ (createPageFromWildcard tpl it = Ok (Some p)
       ∨ createPageFromTemplate tpl it = Some p).

(** The events of a history that are calls of the Content Client. *)
Definition isGetPage (e : event) : Prop :=
  match e with EvGetPage _ _ _ => True | _ => False end.

(* ===================================================================== *)
(** * Sample sites *)
(* ===================================================================== *)

Module Examples.

Definition cfg : Config :=
  {| SITECORE_TARGET_SITE_NAME := "target";
     SITECORE_TARGET_SITE_PATH := "/sitecore/content/bcu/target/Home/blog";
     SITECORE_GRAPHQL_API_KEY := "";
     SITECORE_WILDCARD_PATH_PREFIX := "";
     edgeUrl := "https://edge.sitecorecloud.io";
     contextId := "ctx-0001";
     defaultSite := "blogs";
     sites := ["blogs"] |}.

(** The same site without a remote target. *)
Definition cfgNoTarget : Config :=
  {| SITECORE_TARGET_SITE_NAME := "";
     SITECORE_TARGET_SITE_PATH := "";
     SITECORE_GRAPHQL_API_KEY := "";
     SITECORE_WILDCARD_PATH_PREFIX := "";
     edgeUrl := "https://edge.sitecorecloud.io";
     contextId := "ctx-0001";
     defaultSite := "blogs";
     sites := ["blogs"] |}.

Definition textField (v : string) : SitecoreField :=
  {| value := Some v;
     jsonValue := Some {| jv_value := Some v; jv_rest := ∅ |};
     field_rest := {[ "editable" := JStr v ]} |}.

(** A Title component that reads [fields.data.contextItem.field.jsonValue]. *)
Definition titleRendering (shown : string) : Rendering :=
  {| componentName := Some "Title";
     fields := FieldsObject
                 {| data := Some {| datasource := None;
                                       contextItem :=
                                         Some {| field := Some {| bf_jsonValue :=
                                                                    Some {| jv_value := Some shown;
                                                                            jv_rest := ∅ |};
                                                                  bf_rest := ∅ |};
                                                 binding_rest := {[ "url" := JStr "/" ]} |};
                                       data_rest := ∅ |};
                       fields_rest := ∅ |};
     rendering_rest := {[ "uid" := JStr "r-1" ]} |}.

(** A component without data bindings. *)
Definition plainRendering : Rendering :=
  {| componentName := Some "RichText"; fields := FieldsAbsent;
     rendering_rest := {[ "uid" := JStr "r-2" ]} |}.

Definition document (routeName routeId title : string) : Page :=
  {| route := Some {| name := routeName;
                      itemId := routeId;
                      route_fields := Some {[ "Title" := textField title;
                                              "Content" := textField "<p>template</p>" ]};
                      placeholders := Some {[ "headless-main" :=
                                                [titleRendering title; plainRendering] ]};
                      route_rest := ∅ |};
     language := Some "en";
     page_rest := ∅ |}.

Definition wildcardDoc : Page := document "*" "wildcard-id" "Wildcard".
Definition rootDoc : Page := document "Home" "home-id" "Home".

(** The remote item: a name and an identifier, no fields. *)
Definition hello : RemoteItem :=
  {| item_id := "item-42";
     item_name := "Hello";
     item_path := "/sitecore/content/bcu/target/Home/blog/post-1";
     item_fields := Some [];
     item_children := None |}.

Definition post1 : WildcardChild :=
  {| child_id := "item-42"; child_name := "post-1";
     child_path := "/sitecore/content/bcu/target/Home/blog/post-1";
     child_url_path := "/blog/post-1" |}.

Definition blogFolder : RemoteItem :=
  {| item_id := "folder-1";
     item_name := "blog";
     item_path := "/sitecore/content/bcu/target/Home/blog";
     item_fields := None;
     item_children := Some [post1] |}.

Definition answer (it : option RemoteItem) : HttpResponse :=
  {| resp_ok := true; resp_status := "200"; resp_text := "";
     resp_json := Some {| res_errors := None; res_data := Some it |} |}.

(** The remote source: [hello] at the path derived from [post-1], the
    folder with its one child at the base path, nothing elsewhere. *)
Definition remote (h : list event) (r : HttpRequest) : option HttpResponse :=
  Some (answer
          (if String.eqb (req_path r) "/sitecore/content/bcu/target/Home/blog/post-1"
           then Some hello
           else if String.eqb (req_path r) "/sitecore/content/bcu/target/Home/blog"
           then Some blogFolder
           else None)).

(** A remote source that answers every call with status 503. *)
Definition remoteDown (h : list event) (r : HttpRequest) : option HttpResponse :=
  Some {| resp_ok := false; resp_status := "503"; resp_text := "unavailable";
          resp_json := None |}.

Definition clock (h : list event) : string := "2025-01-01T00:00:00.000Z".

Definition parseUrl (s : string) : option (string * string) :=
  if String.eqb s "https://www.example.com/sitemap.xml"
  then Some ("https:", "www.example.com") else None.

(** A site whose Content Client knows the wildcard page at [blog/*] and
    answers [direct] for the path [blog/post-1]. *)
Definition blogWorld (direct : option Page) : World :=
  {| client_getPage := fun _ path _ _ =>
       Ok (if bool_decide (path = ["blog"; "*"]) then Some wildcardDoc
           else if bool_decide (path = ["blog"; "post-1"]) then direct
           else None);
     global_fetch := remote;
     date_now := clock;
     url_parse := parseUrl |}.

(** A site whose Content Client knows the root page only. *)
Definition rootOnlyWorld : World :=
  {| client_getPage := fun _ path _ _ =>
       Ok (if bool_decide (path = []) then Some rootDoc else None);
     global_fetch := remote;
     date_now := clock;
     url_parse := parseUrl |}.

(** A site with an empty Content Client and an unreachable remote source. *)
Definition emptyWorld : World :=
  {| client_getPage := fun _ _ _ _ => Ok None;
     global_fetch := remoteDown;
     date_now := clock;
     url_parse := parseUrl |}.

(** The empty history. *)
Definition start : list event := [].

(** The request of the scenarios. *)
Definition request : list string := ["blog"; "post-1"].

(** The Content Client answers the request itself with the wildcard page. *)
Definition directWildcardWorld : World := blogWorld (Some wildcardDoc).

(** The Content Client has no answer for the request itself. *)
Definition missWorld : World := blogWorld None.

(** The wildcard page overlaid with the remote item. *)
Definition helloPage : Page :=
  match createPageFromWildcard wildcardDoc hello with
  | Ok (Some page) => page
  | _ => wildcardDoc
  end.

(** The root page overlaid with the remote item, as an ancestor template. *)
Definition helloOnRoot : Page :=
  default rootDoc (createPageFromTemplate rootDoc hello).

Definition baseSitemap : string := "<urlset><url>...</url></urlset>".

Definition sitemapRequestUrl : string := "https://www.example.com/sitemap.xml".

End Examples.
(* ===================================================================== *)
(** * Readers of a resolved page *)
(* ===================================================================== *)

(** The Title component ([components/title/Title], the second document of
    components/navigation/Navigation.tsx, lines 199-204 there).  Its
    [fields] property is the [fields] member of its rendering. *)
Module Title.

(** A [TextField] as the component meets it: the [jsonValue] of a data
    binding, or a field of the route. *)
Inductive TextField :=
| BoundValue (jv : JsonValue)
| RouteField (f : SitecoreField).

(** [field.value], what the [Text] component displays *)
Definition textValue (tf : option TextField) : option string :=
  match tf with
  | Some (BoundValue jv) => jv_value jv
  | Some (RouteField f) => value f
  | None => None
  end.

(** [fields?.data?.datasource || fields?.data?.contextItem] *)
Definition datasourceOf (fields : FieldsMember) : option Binding :=
  match fields with
  | FieldsObject rf => match data rf with
                       | Some d => match datasource d with
                                   | Some b => Some b
                                   | None => contextItem d
                                   end
                       | None => None
                       end
  | _ => None
  end.

(** [const titleField = datasourceField || contextField] with
    [datasourceField = datasource?.field?.jsonValue] and
    [contextField = page.layout.sitecore.route?.fields?.Title] *)
Definition titleField (fields : FieldsMember) (page : Page) : option TextField :=
  let datasource := datasourceOf fields in
  let datasourceField := bindingJson datasource in
  let contextField := routeField page "Title" in
  match datasourceField with
  | Some jv => Some (BoundValue jv)
  | None => match contextField with
            | Some f => Some (RouteField f)
            | None => None
            end
  end.

End Title.

(** The PageContent component (components/page-content/PageContent.tsx,
    line 19): [fields?.Content ?? page.layout.sitecore.route?.fields?.Content].
    A component field of its own is a value the resolver never looks into. *)
Module PageContent.

Definition field (fields : option RenderingFields) (page : Page) : option (json + SitecoreField) :=
  let own := match fields with
             | Some rf => fields_rest rf !! "Content"
             | None => None
             end in
  match own with
  | Some JNull | None =>
      match routeField page "Content" with
      | Some f => Some (inr f)
      | None => None
      end
  | Some j => Some (inl j)
  end.

End PageContent.

(** The page route ([app/[site]/[locale]/[[...path]]/page.tsx]). *)
Module PageRoute.

(** [generateMetadata]: the title of
    [resolvePageWithWildcard(path ?? [], site, locale)], or "Page". *)
Definition generateMetadata (w : World) (cfg : Config) (path : option (list string))
    (site locale : string) : M string :=
  (page <- resolvePageWithWildcard w cfg (default [] path) site locale ;;
   ret (JS.or (default "" match page with
                          | Some p => match routeField p "Title" with
                                      | Some f => value f
                                      | None => None
                                      end
                          | None => None
                          end) "Page"))%async.

End PageRoute.

(* ===================================================================== *)
(** * The page component and the component data *)
(* ===================================================================== *)

(** The block of [Page] that follows the resolution of the page
    ([app/[site]/[locale]/[[...path]]/page.tsx], lines 70-127): the Title
    and Content fields are remembered, [client.getComponentData] is given
    [page.layout], which it may change in place, and the two fields are
    put back when their values are seen to differ.  Field objects are
    held by reference, so the page is a small heap here. *)
Module PageView.

Definition loc : Type := positive.

(** A field object: its [value], the reference held by [jsonValue], its
    other members. *)
Record FieldObject := mkFieldObject {
  fo_value : option string;
  fo_jsonValue : option loc;
  fo_rest : gmap string json
}.

(** [hp_fields] is the object [page.layout?.sitecore?.route?.fields] as it
    is now, each key with the reference it holds; [hp_objects] are the
    field objects. *)
Record Heap := mkHeap {
  hp_fields : option (gmap string loc);
  hp_objects : gmap loc FieldObject
}.

(** [page.layout?.sitecore?.route?.fields?.[key]] *)
Definition fieldRef (h : Heap) (key : string) : option loc :=
  match hp_fields h with
  | Some fs => fs !! key
  | None => None
  end.

(** [ref?.value] *)
Definition valueOf (h : Heap) (ref : option loc) : option string :=
  match ref with
  | Some l => match hp_objects h !! l with
              | Some o => fo_value o
              | None => None
              end
  | None => None
  end.

(** [ref ? { ...ref } : undefined] *)
Definition shallowCopy (h : Heap) (ref : option loc) : option FieldObject :=
  match ref with
  | Some l => hp_objects h !! l
  | None => None
  end.

(** [if (page.layout?.sitecore?.route) { const currentFields = ...fields;
     if (currentFields) currentFields[key] = original }]: the copy is an
    object of its own. *)
Definition assignField (key : string) (original : FieldObject) (h : Heap) : Heap :=
  match hp_fields h with
  | Some currentFields =>
      let l := fresh (dom (hp_objects h)) in
      {| hp_fields := Some (<[key := l]> currentFields);
         hp_objects := <[l := original]> (hp_objects h) |}
  | None => h
  end.

(** [if (original && fieldBefore?.value !== fieldAfter?.value) {...}] *)
Definition restore (key : string) (fieldBefore fieldAfter : option loc)
    (original : option FieldObject) (h : Heap) : Heap :=
  match original with
  | Some o =>
      if bool_decide (valueOf h fieldBefore ≠ valueOf h fieldAfter)
      then assignField key o h
      else h
  | None => h
  end.

Section ComponentData.

(** The component properties, and [client.getComponentData(page.layout, {},
    components)]: it may fail, and it may change the layout it is given. *)
Variable Props : Type.
Variable getComponentData : Heap -> result (Heap * Props).

Definition afterResolution (h0 : Heap) : result (Heap * Props) :=
  let titleFieldBefore := fieldRef h0 "Title" in
  let contentFieldBefore := fieldRef h0 "Content" in
  let originalTitleField := shallowCopy h0 titleFieldBefore in
  let originalContentField := shallowCopy h0 contentFieldBefore in
  match getComponentData h0 with
  | Throw e => Throw e
  | Ok (h1, componentProps) =>
      let titleFieldAfter := fieldRef h1 "Title" in
      let contentFieldAfter := fieldRef h1 "Content" in
      let h2 := restore "Title" titleFieldBefore titleFieldAfter originalTitleField h1 in
      let h3 := restore "Content" contentFieldBefore contentFieldAfter
                  originalContentField h2 in
      Ok (h3, componentProps)
  end.

End ComponentData.

(** Every reference held by the route's fields is to an object. *)
Definition wellFormed (h : Heap) : Prop :=
  ∀ key l, fieldRef h key = Some l → is_Some (hp_objects h !! l).

End PageView.

(* ===================================================================== *)
(** * The sitemap route handler *)
(* ===================================================================== *)

Module SitemapRoute.

(** What a route handler answers with: the status, the headers given
    explicitly, the body. *)
Record RouteResponse := mkRouteResponse {
  rr_status : nat;
  rr_headers : list (string * string);
  rr_body : string
}.

(** [defaultSitemapHandler.GET(request)], the handler of the Content SDK:
    its answer may depend on how often it has been called in this request
    and on the calls made so far; it may throw, and it may answer with
    nothing. *)
Definition DefaultHandler : Type :=
  nat -> list event -> string -> result (option RouteResponse).

Definition callDefault (defaultGET : DefaultHandler) (n : nat) (requestUrl : string)
  : M (option RouteResponse) :=
  fun h => (defaultGET n h requestUrl, h).

(** [export async function GET(request)] *)
Definition GET (w : World) (cfg : Config) (defaultGET : DefaultHandler)
    (requestUrl : string) : M (option RouteResponse) :=
  try_catch
    (defaultResponse <- callDefault defaultGET 0 requestUrl ;;
     match defaultResponse with
     | None => ret (Some {| rr_status := 500; rr_headers := [];
                            rr_body := "Sitemap not available" |})
     | Some resp =>
         let sitemapXml := rr_body resp in
         enhancedSitemap <- enhanceSitemapWithWildcardPages w cfg sitemapXml requestUrl ;;
         ret (Some {| rr_status := 200;
                      rr_headers := [("Content-Type", "application/xml");
                                     ("Cache-Control", "public, max-age=3600, s-maxage=3600")];
                      rr_body := enhancedSitemap |})
     end)%async
    (fun _ => callDefault defaultGET 1 requestUrl).

End SitemapRoute.

(* ===================================================================== *)
(** * The component map of the providers *)
(* ===================================================================== *)

(** [createEnhancedComponentMap] of Providers.tsx.  The function reads the
    placeholder tree of the page through [componentName] and the nested
    [placeholders] of each rendering; this is the tree as it reads it. *)
Module Providers.

#[local] Unset Elimination Schemes.
Inductive LayoutNode : Type :=
| Node (componentName : option string)
       (placeholders : option (list (string * list LayoutNode))).
#[local] Set Elimination Schemes.

(** Induction on a layout tree: a property holds of a node when it holds
    of every rendering of each of its placeholders. *)
Section LayoutInduction.

Variable P : LayoutNode -> Prop.
Hypothesis HNode :
  forall componentName placeholders,
    match placeholders with
    | Some phs => Forall (fun ph => Forall P (snd ph)) phs
    | None => True
    end -> P (Node componentName placeholders).

Fixpoint LayoutNode_induction (rendering : LayoutNode) : P rendering :=
  match rendering with
  | Node componentName placeholders =>
      HNode componentName placeholders
        match placeholders as o
              return match o with
                     | Some phs => Forall (fun ph => Forall P (snd ph)) phs
                     | None => True
                     end
        with
        | Some phs =>
            (fix inPlaceholders (phs : list (string * list LayoutNode))
               : Forall (fun ph => Forall P (snd ph)) phs :=
               match phs as l return Forall (fun ph => Forall P (snd ph)) l with
               | [] => @List.Forall_nil _ _
               | ph :: rest =>
                   @List.Forall_cons _ _ ph rest
                     ((fix inList (rs : list LayoutNode) : Forall P rs :=
                         match rs as l return Forall P l with
                         | [] => @List.Forall_nil _ _
                         | r :: rs' => @List.Forall_cons _ _ r rs' (LayoutNode_induction r) (inList rs')
                         end) (snd ph))
                     (inPlaceholders rest)
               end) phs
        | None => I
        end
  end.

End LayoutInduction.

(** [componentNames.add(name)] on a [Set<string>], kept in insertion order *)
Definition setAdd (name : string) (names : list string) : list string :=
  if JS.arrayIncludes names name then names else names ++ [name].

(** The callback of [placeholder.forEach]: the names collected so far are
    threaded through. *)
Fixpoint extractRendering (rendering : LayoutNode) (componentNames : list string)
  : list string :=
  match rendering with
  | Node componentName placeholders =>
      let componentNames :=
        match componentName with
        | Some n => if JS.truthy n then setAdd n componentNames else componentNames
        | None => componentNames
        end in
      match placeholders with
      | Some phs =>
          (fix extractComponents (phs : list (string * list LayoutNode))
               (componentNames : list string) : list string :=
             match phs with
             | [] => componentNames
             | (_, placeholder) :: rest =>
                 extractComponents rest
                   ((fix forEach (rs : list LayoutNode) (componentNames : list string)
                       : list string :=
                       match rs with
                       | [] => componentNames
                       | r :: rs' => forEach rs' (extractRendering r componentNames)
                       end) placeholder componentNames)
             end) phs componentNames
      | None => componentNames
      end
  end.

(** [placeholder.forEach(...)] *)
Fixpoint forEachRendering (rs : list LayoutNode) (componentNames : list string)
  : list string :=
  match rs with
  | [] => componentNames
  | r :: rs' => forEachRendering rs' (extractRendering r componentNames)
  end.

(** [function extractComponents(placeholders)] *)
Fixpoint extractComponents (phs : list (string * list LayoutNode))
    (componentNames : list string) : list string :=
  match phs with
  | [] => componentNames
  | (_, placeholder) :: rest =>
      extractComponents rest (forEachRendering placeholder componentNames)
  end.

Section ComponentMap.

(** The type of component modules, and the module of MissingComponent. *)
Variable Component : Type.
Variable MissingComponentModule : Component.

(** [componentNames.forEach(name => { if (!map.has(name)) map.set(name, Missing) })] *)
Definition addMissing (componentNames : list string) (enhancedMap : gmap string Component)
  : gmap string Component :=
  fold_left (fun m componentName =>
               match m !! componentName with
               | Some _ => m
               | None => <[componentName := MissingComponentModule]> m
               end) componentNames enhancedMap.

(** [const componentAliases = { 'sxa-header': 'SxaHeader', 'sxa-footer': 'SxaFooter' }] *)
Definition componentAliases : list (string * string) :=
  [("sxa-header", "SxaHeader"); ("sxa-footer", "SxaFooter")].

(** [Object.entries(componentAliases).forEach(([alias, actualName]) => {...})] *)
Definition addAliases (aliases : list (string * string)) (enhancedMap : gmap string Component)
  : gmap string Component :=
  fold_left (fun m entry =>
               let alias := fst entry in
               let actualName := snd entry in
               match m !! actualName, m !! alias with
               | Some c, None => <[alias := c]> m
               | _, _ => m
               end) aliases enhancedMap.

(** [routePlaceholders] is [page?.layout?.sitecore?.route?.placeholders]. *)
Definition createEnhancedComponentMap (baseMap : gmap string Component)
    (routePlaceholders : option (list (string * list LayoutNode)))
  : gmap string Component :=
  let enhancedMap := baseMap in
  let componentNames :=
    match routePlaceholders with
    | Some phs => extractComponents phs []
    | None => []
    end in
  addAliases componentAliases (addMissing componentNames enhancedMap).

End ComponentMap.

(** The component names of a tree, at every depth. *)
Fixpoint namesOfNode (r : LayoutNode) : list string :=
  match r with
  | Node componentName placeholders =>
      match componentName with
      | Some n => if JS.truthy n then [n] else []
      | None => []
      end
      ++ match placeholders with
         | Some phs =>
             (fix inPlaceholders (phs : list (string * list LayoutNode)) : list string :=
                match phs with
                | [] => []
                | (_, placeholder) :: rest =>
                    (fix inList (rs : list LayoutNode) : list string :=
                       match rs with
                       | [] => []
                       | r :: rs' => namesOfNode r ++ inList rs'
                       end) placeholder ++ inPlaceholders rest
                end) phs
         | None => []
         end
  end.

Fixpoint namesOfList (rs : list LayoutNode) : list string :=
  match rs with
  | [] => []
  | r :: rs' => namesOfNode r ++ namesOfList rs'
  end.

Fixpoint namesOfPlaceholders (phs : list (string * list LayoutNode)) : list string :=
  match phs with
  | [] => []
  | (_, placeholder) :: rest => namesOfList placeholder ++ namesOfPlaceholders rest
  end.

End Providers.

(* ===================================================================== *)
(** * Further vocabulary *)
(* ===================================================================== *)

(** The replacement of one character by [escapeXml]. *)
Definition escapeChar (c : ascii) : string :=
  if Ascii.eqb c "&" then "&amp;"
  else if Ascii.eqb c "<" then "&lt;"
  else if Ascii.eqb c ">" then "&gt;"
  else if Ascii.eqb c dquote then "&quot;"
  else if Ascii.eqb c "'" then "&apos;"
  else String c EmptyString.

(** All characters replaced at once. *)
Fixpoint escapeEach (s : string) : string :=
  match s with
  | EmptyString => EmptyString
  | String c s' => escapeChar c +:+ escapeEach s'
  end.

(** A text in which every ampersand starts one of the five entities and
    none of the other four reserved characters occurs. *)
Fixpoint wellEscaped (s : string) : bool :=
  match s with
  | EmptyString => true
  | String c s' =>
      (if Ascii.eqb c "&"
       then String.prefix "amp;" s' || String.prefix "lt;" s' || String.prefix "gt;" s'
            || String.prefix "quot;" s' || String.prefix "apos;" s'
       else negb (Ascii.eqb c "<" || Ascii.eqb c ">" || Ascii.eqb c dquote || Ascii.eqb c "'"))
      && wellEscaped s'
  end.

(** The text [s] begins with the text [p]. *)
Fixpoint beginsWith (p s : string) : bool :=
  match p, s with
  | EmptyString, _ => true
  | String _ _, EmptyString => false
  | String a p', String b s' => Ascii.eqb a b && beginsWith p' s'
  end.

(** The number of places of [s] at which the text [p] begins. *)
Fixpoint occurrences (p s : string) : nat :=
  match s with
  | EmptyString => if beginsWith p EmptyString then 1 else 0
  | String c s' => (if beginsWith p (String c s') then 1 else 0) + occurrences p s'
  end.

(** The character [c] does not occur in [s]. *)
Fixpoint freeOf (c : ascii) (s : string) : bool :=
  match s with
  | EmptyString => true
  | String x s' => negb (Ascii.eqb c x) && freeOf c s'
  end.

(** The reading of an escaped text: entities back to characters; [skip]
    counts the characters of an entity still to be passed over. *)
Fixpoint unescapeFrom (skip : nat) (s : string) : string :=
  match s with
  | EmptyString => EmptyString
  | String c s' =>
      match skip with
      | S k => unescapeFrom k s'
      | O =>
          if String.prefix "&amp;" s then String "&" (unescapeFrom 4 s')
          else if String.prefix "&lt;" s then String "<" (unescapeFrom 3 s')
          else if String.prefix "&gt;" s then String ">" (unescapeFrom 3 s')
          else if String.prefix "&quot;" s then String dquote (unescapeFrom 5 s')
          else if String.prefix "&apos;" s then String "'" (unescapeFrom 5 s')
          else String c (unescapeFrom 0 s')
      end
  end.

(** Counting the calls of a history. *)
Definition isGetPageB (e : event) : bool :=
  match e with EvGetPage _ _ _ => true | _ => false end.

Definition isFetchB (e : event) : bool :=
  match e with EvFetch _ => true | _ => false end.

Definition countGetPage (evs : list event) : nat := length (List.filter isGetPageB evs).

Definition countFetch (evs : list event) : nat := length (List.filter isFetchB evs).

(** A sequence of calls within a budget: at most [g] calls of the Content
    Client, at most [f] calls of [fetch], each of them a request for which
    [P] holds, and no reading of the clock. *)
Definition withinBudget (g f : nat) (P : HttpRequest -> Prop) (evs : list event) : Prop :=
  (countGetPage evs <= g)%nat
  ∧ (countFetch evs <= f)%nat
  ∧ ∀ e, In e evs → match e with
                    | EvGetPage _ _ _ => True
                    | EvFetch r => P r
                    | EvNow => False
                    end.

(** A computation whose calls stay within a budget, whatever it returns. *)
Definition emits {A} (m : M A) (Q : list event -> Prop) : Prop :=
  ∀ h r h', m h = (r, h') → ∃ evs, h' = h ++ evs ∧ Q evs.

(** The endpoint of the queries: the base URL without one trailing slash,
    the first occurrence of the former host name replaced, and the fixed
    suffix. *)
Definition graphQLEndpointOf (baseEdgeUrl : string) : string :=
  let cleanBaseUrl := JS.trimTrailingSlash baseEdgeUrl in
  (if JS.includes cleanBaseUrl "edge-platform.sitecorecloud.io"
   then JS.replace cleanBaseUrl "edge-platform.sitecorecloud.io" "edge.sitecorecloud.io"
   else cleanBaseUrl) +:+ "/api/graphql/v1".

(** A Content Client whose answers do not depend on the calls made so far. *)
Definition clientStateless (w : World) : Prop :=
  ∀ h h' path site locale,
    client_getPage w h path site locale = client_getPage w h' path site locale.

(** The request that [makeGraphQLRequest] hands to [fetch]. *)
Definition requestOf (cfg : Config) (baseEdgeUrl : string) (q : QueryKind)
    (path language apiKey : string) (r : HttpRequest) : Prop :=
  req_endpoint r = graphQLEndpointOf baseEdgeUrl
  ∧ req_apikey r = JS.or (SITECORE_GRAPHQL_API_KEY cfg) apiKey
  ∧ req_query r = q ∧ req_path r = path ∧ req_language r = language.


(** The paths the resolver may ask the Content Client for, given the
    cleaned path of the request: the path itself, the root, the marker,
    and for a non-empty path its first segment with and without the
    marker and the path with its last segment replaced by the marker. *)
Definition requestPaths (cleaned : list string) : list (list string) :=
  cleaned :: [] :: ["*"]
  :: match cleaned with
     | p0 :: _ => [[p0; "*"]; [p0]; JS.sliceInit cleaned ++ ["*"]]
     | [] => []
     end.

(** Every call of the Content Client in [evs] is one that [Q] allows, and
    the clock is not read. *)
Definition clientCallsAre (Q : list string -> string -> string -> Prop) (evs : list event)
  : Prop :=
  Forall (fun e => match e with
                   | EvGetPage p s l => Q p s l
                   | EvFetch _ => True
                   | EvNow => False
                   end) evs.

(* ===================================================================== *)
(** * Further sample sites *)
(* ===================================================================== *)

Module MoreExamples.

Import Examples.

(** A second remote child, with a name that needs escaping. *)
Definition post2 : WildcardChild :=
  {| child_id := "item-43"; child_name := "q&a";
     child_path := "/sitecore/content/bcu/target/Home/blog/q&a";
     child_url_path := "/blog/q&a" |}.

Definition twoPostsFolder : RemoteItem :=
  {| item_id := "folder-1";
     item_name := "blog";
     item_path := "/sitecore/content/bcu/target/Home/blog";
     item_fields := None;
     item_children := Some [post1; post2] |}.

(** The site of [missWorld] with two children under the remote folder. *)
Definition twoPostsWorld : World :=
  {| client_getPage := client_getPage missWorld;
     global_fetch := fun _ r =>
       Some (answer (if String.eqb (req_path r) "/sitecore/content/bcu/target/Home/blog"
                     then Some twoPostsFolder else None));
     date_now := clock;
     url_parse := parseUrl |}.

(** The Content Client answers the request itself with an ordinary page. *)
Definition directHitWorld : World := blogWorld (Some rootDoc).

(** A request of the browser's developer tools. *)
Definition devtoolsRequest : list string := [".well-known"; "appspecific"; "com.chrome.devtools.json"].

(** The fields of a resolved page as a heap: one Title object. *)
Definition titleObject (v : string) : PageView.FieldObject :=
  {| PageView.fo_value := Some v; PageView.fo_jsonValue := None; PageView.fo_rest := ∅ |}.

Definition heapBefore : PageView.Heap :=
  {| PageView.hp_fields := Some {[ "Title" := 1%positive ]};
     PageView.hp_objects := {[ 1%positive := titleObject "Hello" ]} |}.

(** The layout after a fetch that puts the wildcard page's own Title
    object in the place of the resolved one. *)
Definition heapReplaced : PageView.Heap :=
  {| PageView.hp_fields := Some {[ "Title" := 2%positive ]};
     PageView.hp_objects := <[ 2%positive := titleObject "Wildcard" ]>
                              {[ 1%positive := titleObject "Hello" ]} |}.

Definition replacingFetch (h : PageView.Heap) : result (PageView.Heap * unit) :=
  Ok (heapReplaced, tt).

(** A site whose Content Client knows [template] at [blog/*] and nothing
    else, with the remote source [remoteSource]. *)
Definition siteWorld (template : Page)
    (remoteSource : list event → HttpRequest → option HttpResponse) : World :=
  {| client_getPage := fun _ path _ _ =>
       Ok (if bool_decide (path = ["blog"; "*"]) then Some template else None);
     global_fetch := remoteSource;
     date_now := clock;
     url_parse := parseUrl |}.




(** A component whose layout entry is [{ componentName, fields: null, uid }]. *)
Definition nullRendering : Rendering :=
  {| componentName := Some "Promo"; fields := FieldsNull;
     rendering_rest := {[ "uid" := JStr "r-3" ]} |}.

(** The same component without the member [fields]. *)
Definition absentRendering : Rendering :=
  {| componentName := Some "Promo"; fields := FieldsAbsent;
     rendering_rest := {[ "uid" := JStr "r-3" ]} |}.

(** A wildcard page whose placeholder ends with the rendering [last]. *)
Definition wildcardDocWith (last : Rendering) : Page :=
  {| route := Some {| name := "*";
                      itemId := "wildcard-id";
                      route_fields := Some {[ "Title" := textField "Wildcard";
                                              "Content" := textField "<p>template</p>" ]};
                      placeholders := Some {[ "headless-main" :=
                                                [titleRendering "Wildcard"; last] ]};
                      route_rest := ∅ |};
     language := Some "en";
     page_rest := ∅ |}.

Definition nullFieldsDoc : Page := wildcardDocWith nullRendering.
Definition absentFieldsDoc : Page := wildcardDocWith absentRendering.

Definition nullFieldsWorld : World := siteWorld nullFieldsDoc remote.
Definition absentFieldsWorld : World := siteWorld absentFieldsDoc remote.

(** A request of three segments, and a site whose Content Client knows a
    wildcard page beneath the first two of them only. *)
Definition deepRequest : list string := ["a"; "b"; "c"].

Definition remoteAny (h : list event) (r : HttpRequest) : option HttpResponse :=
  Some (answer (Some hello)).

Definition deepWorld : World :=
  {| client_getPage := fun _ path _ _ =>
       Ok (if bool_decide (path = ["a"; "b"; "*"]) then Some wildcardDoc else None);
     global_fetch := remoteAny;
     date_now := clock;
     url_parse := parseUrl |}.

(** A site whose Content Client knows an ordinary page at [a] only. *)
Definition sectionDoc : Page := document "a" "section-id" "Section".

Definition parentWorld : World :=
  {| client_getPage := fun _ path _ _ =>
       Ok (if bool_decide (path = ["a"]) then Some sectionDoc else None);
     global_fetch := remoteAny;
     date_now := clock;
     url_parse := parseUrl |}.


End MoreExamples.

(* ===================================================================== *)
(** * Properties of the field overlay *)
(* ===================================================================== *)

Section OverlayFacts.

Implicit Types (t c : string) (ef : gmap string SitecoreField).
Implicit Types (tf cf : option SitecoreField) (r : Rendering).

Lemma or_self_empty t : JS.or t (JS.or t "") = t.
Proof.
  unfold JS.or, JS.truthy. destruct (String.eqb t "") eqn:E; simpl; [|done].
  by apply String.eqb_eq in E.
Qed.

Lemma bindingValue_override o t : bindingValue (overrideField o t) = t.
Proof. unfold bindingValue, overrideField; simpl. apply or_self_empty. Qed.

Lemma overrideField_again o t :
  overrideField (Some (overrideField o t)) t = overrideField o t.
Proof. reflexivity. Qed.

Lemma updateFields_Title ef t c :
  updateFields ef t c !! "Title" = Some (overrideField (ef !! "Title") t).
Proof.
  unfold updateFields. destruct (JS.truthy c).
  - rewrite lookup_insert_ne by done. apply lookup_insert_eq.
  - apply lookup_insert_eq.
Qed.

Lemma updateFields_Content ef t c :
  updateFields ef t c !! "Content" =
    if JS.truthy c then Some (overrideField (ef !! "Content") c) else ef !! "Content".
Proof.
  unfold updateFields. destruct (JS.truthy c).
  - apply lookup_insert_eq.
  - by rewrite lookup_insert_ne.
Qed.

Lemma updateFields_other ef t c k :
  k ≠ "Title" → k ≠ "Content" → updateFields ef t c !! k = ef !! k.
Proof.
  intros H1 H2. unfold updateFields. destruct (JS.truthy c).
  - rewrite !lookup_insert_ne; done.
  - rewrite lookup_insert_ne; done.
Qed.

Lemma updateFields_idem ef t c :
  updateFields (updateFields ef t c) t c = updateFields ef t c.
Proof.
  set (u := updateFields ef t c).
  assert (HT : u !! "Title" = Some (overrideField (ef !! "Title") t))
    by apply updateFields_Title.
  assert (HC := updateFields_Content ef t c). fold u in HC.
  unfold updateFields at 1. rewrite HT, overrideField_again.
  rewrite (insert_id u "Title") by exact HT.
  destruct (JS.truthy c); [|done].
  rewrite HC, overrideField_again. by apply insert_id.
Qed.

Lemma updateBinding_idem tf b :
  updateBinding tf (updateBinding tf b) = updateBinding tf b.
Proof.
  destruct b as [[[[jv r]|] r']|]; simpl; try done.
  destruct jv as [jv|]; simpl; [|done].
  destruct tf; simpl; done.
Qed.

(** [updateRenderingFields] throws at a [null] member and nowhere else. *)
Lemma updateRenderingFields_Throw tf cf r e :
  updateRenderingFields tf cf r = Throw e ↔ e = TypeError ∧ fields r = FieldsNull.
Proof.
  unfold updateRenderingFields. destruct (fields r) as [| |rf].
  - split; [done|by intros [_ ?]].
  - split; [by intros [= <-]|by intros [-> _]].
  - destruct (data rf); (split; [done|by intros [_ ?]]).
Qed.

Lemma updateRenderingFields_fields tf cf r r' :
  updateRenderingFields tf cf r = Ok r' → fields r ≠ FieldsNull ∧ fields r' ≠ FieldsNull.
Proof.
  unfold updateRenderingFields. destruct (fields r) as [| |rf] eqn:E; [| |destruct (data rf)];
    intros [= <-]; simpl; rewrite ?E; done.
Qed.

(** The content field plays no part in the propagation. *)
Lemma updateRenderingFields_content tf cf cf' r :
  updateRenderingFields tf cf r = updateRenderingFields tf cf' r.
Proof. reflexivity. Qed.

Lemma updateRenderingFields_idem tf cf r r' :
  updateRenderingFields tf cf r = Ok r' → updateRenderingFields tf cf r' = Ok r'.
Proof.
  unfold updateRenderingFields.
  destruct r as [cn [| |[[d|] fr]] rr]; simpl; intros [= <-]; simpl; try done.
  by rewrite !updateBinding_idem.
Qed.

(** The loop over one placeholder, rendering by rendering. *)
Lemma updateEach_Ok tf cf rs rs' :
  updateEach tf cf rs = Ok rs'
  ↔ Forall2 (fun r r' => updateRenderingFields tf cf r = Ok r') rs rs'.
Proof.
  revert rs'. induction rs as [|r rs IH]; intros rs'; simpl.
  - split; [intros [= <-]; constructor|by inversion 1].
  - destruct (updateRenderingFields tf cf r) as [r1|e] eqn:E.
    + destruct (updateEach tf cf rs) as [rs1|e] eqn:E1.
      * split.
        -- intros [= <-]. constructor; [done|]. by apply IH.
        -- intros H. apply Forall2_cons_inv_l in H as (r2 & rs2 & H1 & H2 & ->).
           apply IH in H2. congruence.
      * split; [done|]. intros H.
        apply Forall2_cons_inv_l in H as (r2 & rs2 & H1 & H2 & ->).
        apply IH in H2. congruence.
    + split; [done|]. intros H.
      apply Forall2_cons_inv_l in H as (r2 & rs2 & H1 & H2 & ->). congruence.
Qed.

Lemma updateEach_Throw tf cf rs e :
  updateEach tf cf rs = Throw e →
  e = TypeError ∧ ∃ r, In r rs ∧ fields r = FieldsNull.
Proof.
  induction rs as [|r rs IH]; simpl; [done|].
  destruct (updateRenderingFields tf cf r) as [r1|e1] eqn:E.
  - destruct (updateEach tf cf rs) as [rs1|e2]; [done|].
    intros [= ->]. destruct (IH eq_refl) as (-> & r0 & Hin & Hn).
    split; [done|]. exists r0. split; [by right|done].
  - intros [= ->]. apply updateRenderingFields_Throw in E as [-> Hn].
    split; [done|]. exists r. split; [by left|done].
Qed.

Lemma updateEach_total tf cf rs :
  (∀ r, In r rs → fields r ≠ FieldsNull) → ∃ rs', updateEach tf cf rs = Ok rs'.
Proof.
  intros H. destruct (updateEach tf cf rs) as [rs'|e] eqn:E; [eauto|].
  apply updateEach_Throw in E as (_ & r & Hin & Hn). by destruct (H r Hin).
Qed.

Lemma updateEach_idem tf cf rs rs' :
  updateEach tf cf rs = Ok rs' → updateEach tf cf rs' = Ok rs'.
Proof.
  rewrite !updateEach_Ok. induction 1 as [|r r' rs rs' Hr _ IH]; constructor; [|done].
  by apply (updateRenderingFields_idem tf cf r).
Qed.

Lemma updateEach_content tf cf cf' rs : updateEach tf cf rs = updateEach tf cf' rs.
Proof. induction rs as [|r rs IH]; simpl; [done|]. by rewrite IH. Qed.

Lemma updatePlaceholders_Ok tf cf phs phs' :
  updatePlaceholders tf cf phs = Ok phs' ↔ updatedBy tf cf phs phs'.
Proof.
  split.
  - revert phs'. unfold updatePlaceholders.
    apply (map_fold_weak_ind
             (fun acc m => ∀ m', acc = Ok m' → updatedBy tf cf m m')).
    + intros m' [= <-] k. by rewrite !lookup_empty.
    + intros i x m acc Hi IH m' H.
      destruct acc as [upd|e]; [|done].
      destruct (updateEach tf cf x) as [x'|e] eqn:Ex; [|done].
      inversion H; subst m'; clear H. intros k.
      destruct (decide (k = i)) as [->|Hne].
      * by rewrite !lookup_insert_eq.
      * rewrite !lookup_insert_ne by done. by apply IH.
  - revert phs'. unfold updatePlaceholders.
    apply (map_fold_weak_ind
             (fun acc m => ∀ m', updatedBy tf cf m m' → acc = Ok m')).
    + intros m' H. f_equal. apply map_eq. intros k. specialize (H k).
      rewrite lookup_empty in *. by destruct (m' !! k).
    + intros i x m acc Hi IH m' H.
      pose proof (H i) as Hx. rewrite lookup_insert_eq in Hx.
      destruct (m' !! i) as [x'|] eqn:Ex'; [|done].
      rewrite (IH (delete i m')).
      * rewrite Hx. f_equal. by apply insert_delete_id.
      * intros k. destruct (decide (k = i)) as [->|Hne].
        -- by rewrite Hi, lookup_delete_eq.
        -- specialize (H k). rewrite lookup_insert_ne in H by done.
           by rewrite lookup_delete_ne.
Qed.

Lemma updatePlaceholders_Throw tf cf phs e :
  updatePlaceholders tf cf phs = Throw e →
  e = TypeError ∧ ∃ k rs r, phs !! k = Some rs ∧ In r rs ∧ fields r = FieldsNull.
Proof.
  revert e. unfold updatePlaceholders.
  apply (map_fold_weak_ind
           (fun acc m => ∀ e, acc = Throw e →
              e = TypeError ∧ ∃ k rs r, m !! k = Some rs ∧ In r rs
                                        ∧ fields r = FieldsNull)).
  - done.
  - intros i x m acc Hi IH e H. destruct acc as [upd|e0].
    + destruct (updateEach tf cf x) as [x'|e1] eqn:Ex; [done|].
      inversion H; subst e1. apply updateEach_Throw in Ex as (-> & r & Hin & Hn).
      split; [done|]. exists i, x, r. by rewrite lookup_insert_eq.
    + inversion H; subst e0. destruct (IH e eq_refl) as (-> & k & rs & r & Hk & Hin & Hn).
      split; [done|]. exists k, rs, r. split; [|done].
      rewrite lookup_insert_ne; [done|]. intros <-. congruence.
Qed.

Lemma updatePlaceholders_null tf cf phs k rs r :
  phs !! k = Some rs → In r rs → fields r = FieldsNull →
  updatePlaceholders tf cf phs = Throw TypeError.
Proof.
  intros Hk Hin Hn. destruct (updatePlaceholders tf cf phs) as [phs'|e] eqn:E.
  - apply updatePlaceholders_Ok in E. specialize (E k). rewrite Hk in E.
    destruct (phs' !! k) as [rs'|]; [|done]. apply updateEach_Ok in E.
    exfalso. clear Hk. induction E as [|r0 r0' rs rs' Hr _ IH]; [done|].
    destruct Hin as [->|Hin]; [|by apply IH].
    apply updateRenderingFields_fields in Hr as [Hr _]. done.
  - by apply updatePlaceholders_Throw in E as [-> _].
Qed.

Lemma updatePlaceholders_idem tf cf phs phs' :
  updatePlaceholders tf cf phs = Ok phs' → updatePlaceholders tf cf phs' = Ok phs'.
Proof.
  rewrite !updatePlaceholders_Ok. intros H k. specialize (H k).
  destruct (phs !! k), (phs' !! k); try done. by apply (updateEach_idem tf cf l).
Qed.

Lemma updatePlaceholders_content tf cf cf' phs :
  updatePlaceholders tf cf phs = updatePlaceholders tf cf' phs.
Proof.
  destruct (updatePlaceholders tf cf phs) as [phs'|e] eqn:E; symmetry.
  - apply updatePlaceholders_Ok. apply updatePlaceholders_Ok in E.
    intros k. specialize (E k). destruct (phs !! k), (phs' !! k); try done.
    by rewrite (updateEach_content tf cf' cf).
  - apply updatePlaceholders_Throw in E as (-> & k & rs & r & Hk & Hin & Hn).
    by apply (updatePlaceholders_null tf cf' phs k rs r).
Qed.

End OverlayFacts.

Section OverlayTheorems.

Implicit Types (D : Page) (t c n i : string).

(** The overlay on a wildcard template, case by case. *)
Lemma overlayWildcard_Ok D n i t c D' :
  overlayWildcard D n i t c = Ok (Some D') ↔
  ∃ rt, route D = Some rt
        ∧ ∃ phs', match placeholders rt with
                  | Some phs =>
                      updatePlaceholders
                        (Some (overrideField (default ∅ (route_fields rt) !! "Title") t))
                        (updateFields (default ∅ (route_fields rt)) t c !! "Content") phs
                      = Ok phs'
                  | None => True
                  end
                  ∧ D' = {| route := Some {| name := n;
                                             itemId := i;
                                             route_fields :=
                                               Some (updateFields (default ∅ (route_fields rt)) t c);
                                             placeholders := (fun _ => phs') <$> placeholders rt;
                                             route_rest := route_rest rt |};
                            language := language D;
                            page_rest := page_rest D |}.
Proof.
  unfold overlayWildcard, JSON_clone. destruct (route D) as [rt|]; simpl.
  2:{ split; [done|]. by intros (rt & [=] & _). }
  rewrite updateFields_Title. split.
  - intros H. exists rt. split; [done|].
    destruct (placeholders rt) as [phs|] eqn:Ep; simpl in *.
    + destruct (updatePlaceholders _ _ phs) as [phs'|e] eqn:E; [|done].
      inversion H. by exists phs'.
    + inversion H. by exists ∅.
  - intros (rt0 & [= <-] & phs' & Hp & ->).
    destruct (placeholders rt) as [phs|]; simpl; [by rewrite Hp|done].
Qed.

Lemma overlayWildcard_idem D n i t c D' :
  overlayWildcard D n i t c = Ok (Some D') → overlayWildcard D' n i t c = Ok (Some D').
Proof.
  intros H. apply overlayWildcard_Ok in H as (rt & Hrt & phs' & Hphs & ->).
  apply overlayWildcard_Ok. eexists. split; [reflexivity|]. simpl.
  exists phs'. rewrite updateFields_idem. split.
  - destruct (placeholders rt) as [phs|]; simpl; [|done].
    rewrite updateFields_Title, overrideField_again.
    by apply (updatePlaceholders_idem _ _ phs).
  - by destruct (placeholders rt).
Qed.

Lemma overlayTemplate_idem D n i t c D' :
  overlayTemplate D n i t c = Some D' → overlayTemplate D' n i t c = Some D'.
Proof.
  unfold overlayTemplate, JSON_clone. destruct (route D) as [rt|] eqn:Hrt; [|done].
  intros [= <-]. simpl. by rewrite updateFields_idem.
Qed.

(** The overlay on a wildcard template throws exactly when a rendering
    of one of its top-level placeholders has [fields: null], and then a
    [TypeError]. *)
Lemma overlayWildcard_Throw D n i t c e :
  overlayWildcard D n i t c = Throw e ↔ e = TypeError ∧ hasNullFields D.
Proof.
  unfold overlayWildcard, hasNullFields, placeholdersOf, JSON_clone.
  destruct (route D) as [rt|]; simpl.
  2:{ split; [done|]. by intros (_ & ? & ? & ? & ? & [=] & _). }
  destruct (placeholders rt) as [phs|]; simpl.
  2:{ split; [done|]. by intros (_ & ? & ? & ? & ? & [=] & _). }
  destruct (updatePlaceholders _ _ phs) as [phs'|e0] eqn:E.
  - split; [done|]. intros (_ & phs0 & k & rs & r & [= <-] & Hk & Hin & Hn).
    rewrite (updatePlaceholders_null _ _ phs k rs r Hk Hin Hn) in E. done.
  - apply updatePlaceholders_Throw in E as (-> & k & rs & r & Hk & Hin & Hn).
    split.
    + intros [= <-]. split; [done|]. by exists phs, k, rs, r.
    + by intros [-> _].
Qed.

Lemma overlayWildcard_total D n i t c :
  ¬ hasNullFields D →
  match route D with
  | Some _ => ∃ D', overlayWildcard D n i t c = Ok (Some D')
  | None => overlayWildcard D n i t c = Ok None
  end.
Proof.
  intros Hn. destruct (overlayWildcard D n i t c) as [[D'|]|e] eqn:E.
  - apply overlayWildcard_Ok in E as (rt & -> & _). eauto.
  - unfold overlayWildcard, JSON_clone in E. destruct (route D) as [rt|]; [|done].
    simpl in E. destruct (placeholders rt); [|done].
    by destruct (updatePlaceholders _ _ _).
  - apply overlayWildcard_Throw in E as [_ E]. done.
Qed.

Lemma updateBinding_noop tf b : bindingJson b = None → updateBinding tf b = b.
Proof. destruct b as [[[[[jv|] r]|] r']|]; simpl; done. Qed.

Lemma updateRenderingFields_noop tf cf r :
  noBoundLeaf r → fields r ≠ FieldsNull → updateRenderingFields tf cf r = Ok r.
Proof.
  unfold noBoundLeaf, renderingBindings, updateRenderingFields.
  destruct r as [cn [| |[[d|] fr]] rr]; simpl; try done.
  intros H _. rewrite !updateBinding_noop; [ destruct d; done | apply H; simpl; auto | apply H; simpl; auto ].
Qed.

Lemma updatePlaceholders_noop tf cf phs :
  (∀ k rs r, phs !! k = Some rs → In r rs → noBoundLeaf r ∧ fields r ≠ FieldsNull) →
  updatePlaceholders tf cf phs = Ok phs.
Proof.
  intros H. apply updatePlaceholders_Ok. intros k.
  destruct (phs !! k) as [rs|] eqn:E; [|done].
  apply updateEach_Ok.
  assert (H' : ∀ r, In r rs → noBoundLeaf r ∧ fields r ≠ FieldsNull)
    by (intros r; by apply (H k rs r)).
  clear H E. rename H' into H.
  induction rs as [|r rs IH]; constructor.
  - destruct (H r) as [Hb Hf]; [by left|]. by apply updateRenderingFields_noop.
  - apply IH. intros r0 Hin. apply H. by right.
Qed.

(** X25.  The overlay when it does not throw.  Applying the overlay a
    second time with the same title and body to a page it returned
    changes nothing, for the overlay with the propagation into the
    placeholders and for the overlay on an ancestor template.  The
    overlay with the propagation throws exactly when a rendering of a
    top-level placeholder has [fields: null], and then a TypeError;
    otherwise it returns a page exactly when the template has a route,
    and nothing when it has none.  On a template without placeholders
    the two overlays agree, and placeholders whose renderings have no
    bound value and no [fields: null] are left as they are. *)
Theorem overlay_idempotent_unless_null_fields D n i t c :
  (∀ D', overlayWildcard D n i t c = Ok (Some D') →
         overlayWildcard D' n i t c = Ok (Some D'))
  ∧ (∀ D', overlayTemplate D n i t c = Some D' → overlayTemplate D' n i t c = Some D')
  ∧ (∀ e, overlayWildcard D n i t c = Throw e ↔ e = TypeError ∧ hasNullFields D)
  ∧ (¬ hasNullFields D →
     match route D with
     | Some _ => ∃ D', overlayWildcard D n i t c = Ok (Some D')
     | None => overlayWildcard D n i t c = Ok None
     end)
  ∧ (placeholdersOf D = None →
     overlayWildcard D n i t c = Ok (overlayTemplate D n i t c))
  ∧ (∀ tf cf phs,
       (∀ k rs r, phs !! k = Some rs → In r rs → noBoundLeaf r ∧ fields r ≠ FieldsNull) →
       updatePlaceholders tf cf phs = Ok phs).
Proof.
  split; [intros D'; apply overlayWildcard_idem|].
  split; [intros D'; apply overlayTemplate_idem|].
  split; [intros e; apply overlayWildcard_Throw|].
  split; [apply overlayWildcard_total|].
  split; [|apply updatePlaceholders_noop].
  unfold placeholdersOf, overlayWildcard, overlayTemplate, JSON_clone.
  destruct (route D) as [rt|]; [|done]. simpl. by intros ->.
Qed.

End OverlayTheorems.

Section TreeShape.

Implicit Types (tf cf : option SitecoreField) (r : Rendering).

Lemma blank_updateBinding tf b : blankBinding (updateBinding tf b) = blankBinding b.
Proof.
  destruct b as [[[[[jv|] rb]|] rr]|]; simpl; try done.
  destruct tf; done.
Qed.

Lemma blank_updateRendering tf cf r r' :
  updateRenderingFields tf cf r = Ok r' → blankRendering r' = blankRendering r.
Proof.
  destruct r as [cn [| |[[d|] fr]] rr]; unfold updateRenderingFields, blankRendering;
    simpl; intros [= <-]; simpl; try done.
  by rewrite !blank_updateBinding.
Qed.

Lemma componentName_updateRendering tf cf r r' :
  updateRenderingFields tf cf r = Ok r' → componentName r' = componentName r.
Proof.
  destruct r as [cn [| |[[d|] fr]] rr]; unfold updateRenderingFields; simpl;
    by intros [= <-].
Qed.

Lemma bindingJson_updateBinding f b jv :
  bindingJson (updateBinding (Some f) b) = Some jv →
  jv_value jv = Some (bindingValue f).
Proof.
  destruct b as [[[[[jv0|] rb]|] rr]|]; simpl; try done.
  by intros [= <-].
Qed.

Lemma leaves_updateRendering f cf r r' :
  updateRenderingFields (Some f) cf r = Ok r' → leavesAre (bindingValue f) r'.
Proof.
  unfold leavesAre, renderingBindings, updateRenderingFields.
  destruct r as [cn [| |[[d|] fr]] rr]; simpl; intros [= <-]; simpl;
    try (intros ? ? []; fail).
  intros b jv [<-|[<-|[]]]; apply bindingJson_updateBinding.
Qed.

(** C6.  The tree propagation of the overlay keeps the shape of the
    placeholder tree: the same placeholder names, and under each name as
    many renderings as before, with the same component names in the same
    order, equal to the renderings before in everything but the two
    leaves [data.datasource.field.jsonValue.value] and
    [data.contextItem.field.jsonValue.value]; every such leaf holds the
    new title afterwards; and the tree after the overlay does not depend
    on the body: no leaf receives the content value. *)
Theorem overlay_keeps_tree_shape (D : Page) (n i t c : string) (D' : Page) :
  overlayWildcard D n i t c = Ok (Some D') →
  match placeholdersOf D, placeholdersOf D' with
  | Some phs, Some phs' =>
      dom phs' = dom phs
      ∧ ∀ k rs, phs !! k = Some rs →
          ∃ rs', phs' !! k = Some rs'
                 ∧ length rs' = length rs
                 ∧ List.map componentName rs' = List.map componentName rs
                 ∧ List.map blankRendering rs' = List.map blankRendering rs
                 ∧ Forall (leavesAre t) rs'
  | None, None => True
  | _, _ => False
  end
  ∧ ∀ c', ∃ D'', overlayWildcard D n i t c' = Ok (Some D'')
                 ∧ placeholdersOf D'' = placeholdersOf D'.
Proof.
  intros H. apply overlayWildcard_Ok in H as (rt & Hrt & phs' & Hphs & ->).
  unfold placeholdersOf. rewrite Hrt. simpl. split.
  - destruct (placeholders rt) as [phs|]; [|done]. simpl.
    set (f := overrideField _ t) in Hphs.
    assert (Hf : bindingValue f = t) by apply bindingValue_override.
    apply updatePlaceholders_Ok in Hphs. split.
    + apply set_eq. intros k. rewrite !elem_of_dom. specialize (Hphs k).
      destruct (phs !! k), (phs' !! k); try done; split; intros [? ?]; done || eauto.
    + intros k rs Hk. specialize (Hphs k). rewrite Hk in Hphs.
      destruct (phs' !! k) as [rs'|]; [|done]. exists rs'. split; [done|].
      apply updateEach_Ok in Hphs. rewrite <- Hf. clear Hk.
      induction Hphs as [|r r' rs rs' Hr _ IH]; [by repeat split|].
      destruct IH as (IH1 & IH2 & IH3 & IH4). simpl.
      rewrite IH1, IH2, IH3.
      rewrite (componentName_updateRendering _ _ _ _ Hr),
        (blank_updateRendering _ _ _ _ Hr).
      repeat split; try done. constructor; [|done].
      by apply (leaves_updateRendering f
                  (updateFields (default ∅ (route_fields rt)) t c !! "Content") r).
  - intros c'.
    eexists. split.
    + apply overlayWildcard_Ok. exists rt. split; [done|]. exists phs'. split; [|done].
      destruct (placeholders rt) as [phs|]; [|done].
      by rewrite (updatePlaceholders_content _ _
                    (updateFields (default ∅ (route_fields rt)) t c !! "Content")).
    + done.
Qed.

Lemma overlayTemplate_placeholders (D : Page) n i t c D' :
  overlayTemplate D n i t c = Some D' → placeholdersOf D' = placeholdersOf D.
Proof.
  unfold overlayTemplate, placeholdersOf, JSON_clone.
  destruct (route D) as [rt|]; [|done]. by intros [= <-].
Qed.

End TreeShape.

(* ===================================================================== *)
(** * Running asynchronous computations *)
(* ===================================================================== *)

Section RunFacts.

Context {A B : Type}.
Implicit Types (m : M A) (k : A → M B) (h : list event).

Lemma bind_Ok m k h a h1 : m h = (Ok a, h1) → bind m k h = k a h1.
Proof. unfold bind. by intros ->. Qed.

Lemma bind_Throw m k h e h1 : m h = (Throw e, h1) → bind m k h = (Throw e, h1).
Proof. unfold bind. by intros ->. Qed.

Lemma bind_inv m k h r h' :
  bind m k h = (r, h') →
  (∃ a h1, m h = (Ok a, h1) ∧ k a h1 = (r, h'))
  ∨ (∃ e, m h = (Throw e, h') ∧ r = Throw e).
Proof.
  unfold bind. destruct (m h) as [[a|e] h1]; intros H.
  - left. eauto.
  - right. exists e. by inversion H.
Qed.

Lemma bind_Ok_inv m k h b h' :
  bind m k h = (Ok b, h') → ∃ a h1, m h = (Ok a, h1) ∧ k a h1 = (Ok b, h').
Proof. intros H. apply bind_inv in H as [H|(e & _ & [=])]. exact H. Qed.

Lemma bind_ext m (k1 k2 : A → M B) h :
  (∀ a h1, k1 a h1 = k2 a h1) → bind m k1 h = bind m k2 h.
Proof. intros H. unfold bind. by destruct (m h) as [[a|e] h1]. Qed.

Lemma try_catch_Ok (m : M A) hd h a h1 : m h = (Ok a, h1) → try_catch m hd h = (Ok a, h1).
Proof. unfold try_catch. by intros ->. Qed.

Lemma try_catch_Throw (m : M A) hd h e h1 :
  m h = (Throw e, h1) → try_catch m hd h = hd e h1.
Proof. unfold try_catch. by intros ->. Qed.

Lemma try_catch_inv (m : M A) hd h r h' :
  try_catch m hd h = (r, h') →
  (∃ a, m h = (Ok a, h') ∧ r = Ok a)
  ∨ (∃ e h1, m h = (Throw e, h1) ∧ hd e h1 = (r, h')).
Proof.
  unfold try_catch. destruct (m h) as [[a|e] h1]; intros H.
  - left. exists a. by inversion H.
  - right. eauto.
Qed.

(** A [try] whose handler returns a value never throws. *)
Lemma try_catch_total (m : M A) (d : A) h :
  ∃ a h', try_catch m (fun _ => ret d) h = (Ok a, h').
Proof. unfold try_catch, ret. destruct (m h) as [[a|e] h1]; eauto. Qed.

End RunFacts.

Section Discovery.

Variable w : World.
Variable cfg : Config.

Lemma arrayIncludes_pair p0 : JS.arrayIncludes [p0; "*"] "*" = true.
Proof. unfold JS.arrayIncludes. simpl. by rewrite orb_true_r. Qed.

Lemma arrayIncludes_marker : JS.arrayIncludes ["*"] "*" = true.
Proof. reflexivity. Qed.

Lemma arrayIncludes_single p0 : JS.arrayIncludes [p0] "*" = String.eqb p0 "*".
Proof. unfold JS.arrayIncludes. simpl. by rewrite orb_false_r, String.eqb_sym. Qed.

Lemma last_is_marker p0 :
  bool_decide (JS.lastElem [p0] = Some "*") = String.eqb p0 "*".
Proof.
  unfold JS.lastElem. simpl. destruct (String.eqb p0 "*") eqn:E.
  - apply String.eqb_eq in E. subst. by apply bool_decide_eq_true.
  - apply bool_decide_eq_false. intros [= ->]. by rewrite String.eqb_refl in E.
Qed.

(** One turn of the loop on a candidate that contains the marker. *)
Lemma templateLoopBody_marker site locale wildcardPath h :
  JS.arrayIncludes wildcardPath "*" = true →
  templateLoopBody w site locale None wildcardPath h
  = (Ok (clientAnswer w h wildcardPath site locale,
         bool_decide (clientAnswer w h wildcardPath site locale ≠ None)),
     h ++ [EvGetPage wildcardPath site locale]).
Proof.
  intros Hm. unfold templateLoopBody, try_catch, bind, getPage, clientAnswer, ret.
  destruct (client_getPage w h wildcardPath site locale) as [[pg|]|e]; try done.
  cbv beta iota zeta. by rewrite Hm, !orb_true_r.
Qed.

(** One turn of the loop on the candidate [[p0]]. *)
Lemma templateLoopBody_parent site locale p0 h :
  templateLoopBody w site locale None [p0] h
  = let h1 := h ++ [EvGetPage [p0] site locale] in
    let h2 := h1 ++ [EvGetPage [p0; "*"] site locale] in
    match clientAnswer w h [p0] site locale with
    | None => (Ok (None, false), h1)
    | Some doc =>
        if String.eqb (routeName doc) "*" || String.eqb p0 "*"
        then (Ok (Some doc, true), h1)
        else match clientAnswer w h1 [p0; "*"] site locale with
             | Some ch => if String.eqb (routeName ch) "*"
                          then (Ok (Some ch, true), h2)
                          else (Ok (Some doc, false), h2)
             | None => (Ok (Some doc, false), h2)
             end
    end.
Proof.
  unfold templateLoopBody, try_catch, bind, getPage, clientAnswer, ret.
  destruct (client_getPage w h [p0] site locale) as [[doc|]|e]; try done.
  cbv beta iota zeta. rewrite arrayIncludes_single, last_is_marker.
  destruct (String.eqb (routeName doc) "*"); [done|].
  destruct (String.eqb p0 "*"); [done|]. cbn [orb negb andb length Nat.ltb Nat.leb].
  change ([p0] ++ ["*"]) with [p0; "*"].
  destruct (client_getPage w _ [p0; "*"] site locale) as [[ch|]|e]; try done.
  cbv beta iota. by destruct (String.eqb (routeName ch) "*").
Qed.

Lemma templateLoop_cons site locale wp c cs h :
  templateLoop w site locale wp (c :: cs) h
  = match templateLoopBody w site locale wp c h with
    | (Ok step, h') => (if snd step then ret (fst step)
                        else templateLoop w site locale (fst step) cs) h'
    | (Throw e, h') => (Throw e, h')
    end.
Proof. reflexivity. Qed.

Lemma namedByMarker_routeName doc :
  String.eqb (routeName doc) "*" = namedByMarker doc.
Proof. unfold routeName, namedByMarker. by destruct (route doc). Qed.

Lemma containsMarker_single p0 : containsMarker [p0] = String.eqb p0 "*".
Proof. unfold containsMarker. simpl. by rewrite orb_false_r, String.eqb_sym. Qed.

Lemma containsMarker_child path : containsMarker (path ++ ["*"]) = true.
Proof.
  unfold containsMarker. rewrite existsb_app. simpl. by rewrite orb_true_r.
Qed.

(** The template search of the enrichment, on the answers of the
    Content Client. *)
Lemma findWildcardPage_run p0 rest site locale h :
  let ask := fun path => EvGetPage path site locale in
  findWildcardPage w (p0 :: rest) site locale h
  = match clientAnswer w h [p0; "*"] site locale with
    | Some doc => (Ok (Some doc), h ++ [ask [p0; "*"]])
    | None =>
        match clientAnswer w (h ++ [ask [p0; "*"]]) ["*"] site locale with
        | Some doc => (Ok (Some doc), h ++ [ask [p0; "*"]; ask ["*"]])
        | None =>
            match clientAnswer w (h ++ [ask [p0; "*"]; ask ["*"]]) [p0] site locale with
            | None => (Ok None, h ++ [ask [p0; "*"]; ask ["*"]; ask [p0]])
            | Some parent =>
                if namedByMarker parent || containsMarker [p0]
                then (Ok (Some parent), h ++ [ask [p0; "*"]; ask ["*"]; ask [p0]])
                else
                  (Ok match clientAnswer w (h ++ [ask [p0; "*"]; ask ["*"]; ask [p0]])
                              [p0; "*"] site locale with
                      | Some child => if namedByMarker child then Some child else Some parent
                      | None => Some parent
                      end,
                   h ++ [ask [p0; "*"]; ask ["*"]; ask [p0]; ask [p0; "*"]])
            end
        end
    end.
Proof.
  cbv zeta. unfold findWildcardPage, templatePaths.
  rewrite templateLoop_cons, templateLoopBody_marker by apply arrayIncludes_pair.
  cbn [fst snd].
  destruct (clientAnswer w h [p0; "*"] site locale) as [d1|]; [done|].
  rewrite bool_decide_eq_false_2 by (intros H; by apply H).
  rewrite templateLoop_cons, templateLoopBody_marker by apply arrayIncludes_marker.
  cbn [fst snd]. rewrite <- !app_assoc. cbn [app].
  destruct (clientAnswer w _ ["*"] site locale) as [d2|]; [done|].
  rewrite bool_decide_eq_false_2 by (intros H; by apply H).
  rewrite templateLoop_cons, templateLoopBody_parent. cbv zeta.
  rewrite <- !app_assoc. cbn [app].
  destruct (clientAnswer w _ [p0] site locale) as [d3|]; [|done].
  rewrite namedByMarker_routeName, containsMarker_single.
  destruct (namedByMarker d3 || String.eqb p0 "*"); [done|].
  destruct (clientAnswer w _ [p0; "*"] site locale) as [ch|]; [|done].
  rewrite namedByMarker_routeName. by destruct (namedByMarker ch).
Qed.

(** The search of the specification, on the same answers. *)
Lemma discoverySpec_run p0 site locale h :
  let ask := fun path => EvGetPage path site locale in
  discoverySpec w p0 site locale h
  = match clientAnswer w h [p0; "*"] site locale with
    | Some doc => (Some doc, [[p0; "*"]])
    | None =>
        match clientAnswer w (h ++ [ask [p0; "*"]]) ["*"] site locale with
        | Some doc => (Some doc, [[p0; "*"]; ["*"]])
        | None =>
            match clientAnswer w (h ++ [ask [p0; "*"]; ask ["*"]]) [p0] site locale with
            | None => (None, [[p0; "*"]; ["*"]; [p0]])
            | Some parent =>
                if namedByMarker parent || containsMarker [p0]
                then (Some parent, [[p0; "*"]; ["*"]; [p0]])
                else
                  (clientAnswer w (h ++ [ask [p0; "*"]; ask ["*"]; ask [p0]])
                     [p0; "*"] site locale,
                   [[p0; "*"]; ["*"]; [p0]; [p0; "*"]])
            end
        end
    end.
Proof.
  cbv zeta. unfold discoverySpec, discoverySearch.
  assert (E1 : containsMarker [p0; "*"] = true) by apply (containsMarker_child [p0]).
  destruct (clientAnswer w h [p0; "*"] site locale) as [d1|];
    [by rewrite E1, orb_true_r|].
  destruct (clientAnswer w _ ["*"] site locale) as [d2|];
    [change (containsMarker ["*"]) with true; by rewrite orb_true_r|].
  rewrite <- !app_assoc. cbn [app].
  destruct (clientAnswer w _ [p0] site locale) as [d3|]; [|done].
  destruct (namedByMarker d3 || containsMarker [p0]); [done|].
  destruct (clientAnswer w _ [p0; "*"] site locale) as [ch|]; [|done].
  by rewrite E1, orb_true_r.
Qed.

Lemma probeLoop_run site locale c1 c2 c3 h :
  let ask := fun path => EvGetPage path site locale in
  let identifier := fun doc : Page =>
    match route doc with Some rt => itemId rt | None => "" end in
  probeLoop w site locale [c1; c2; c3] h
  = match client_getPage w h c1 site locale with
    | Throw e => (Throw e, h ++ [ask c1])
    | Ok (Some doc) => (Ok (Some doc, identifier doc), h ++ [ask c1])
    | Ok None =>
        match client_getPage w (h ++ [ask c1]) c2 site locale with
        | Throw e => (Throw e, h ++ [ask c1; ask c2])
        | Ok (Some doc) => (Ok (Some doc, identifier doc), h ++ [ask c1; ask c2])
        | Ok None =>
            match client_getPage w (h ++ [ask c1; ask c2]) c3 site locale with
            | Throw e => (Throw e, h ++ [ask c1; ask c2; ask c3])
            | Ok (Some doc) =>
                (Ok (Some doc, identifier doc), h ++ [ask c1; ask c2; ask c3])
            | Ok None => (Ok (None, ""), h ++ [ask c1; ask c2; ask c3])
            end
        end
    end.
Proof.
  cbv zeta. unfold probeLoop, bind, getPage, ret.
  destruct (client_getPage w h c1 site locale) as [[d1|]|e]; [done| |done].
  rewrite <- !app_assoc. cbn [app].
  destruct (client_getPage w _ c2 site locale) as [[d2|]|e]; [done| |done].
  rewrite <- !app_assoc. cbn [app].
  by destruct (client_getPage w _ c3 site locale) as [[d3|]|e].
Qed.

Lemma resolveMissing_run finalPath site locale h :
  resolveMissing w cfg finalPath site locale h
  = match probeLoop w site locale (probePaths finalPath) h with
    | (Ok _, h1) =>
        if targetConfigured cfg
        then queryTargetSiteAndCreatePage w cfg finalPath site locale h1
        else (Ok None, h1)
    | (Throw e, h1) => (Throw e, h1)
    end.
Proof.
  unfold resolveMissing, bind at 1.
  destruct (probeLoop w site locale (probePaths finalPath) h) as [[probe|e] h1]; [|done].
  assert (E : bind (queryTargetSiteAndCreatePage w cfg finalPath site locale)
                (fun targetPage => match targetPage with
                                   | Some tp => ret (Some tp)
                                   | None => ret None
                                   end) h1
              = queryTargetSiteAndCreatePage w cfg finalPath site locale h1).
  { unfold bind, queryTargetSiteAndCreatePage.
    match goal with
    | |- context [try_catch ?m _ h1] =>
        destruct (try_catch_total m None h1) as (o & h2 & ->)
    end.
    by destruct o. }
  destruct (_ && _); destruct (targetConfigured cfg); try done; exact E.
Qed.

(** C3.  For a request path that starts with [p0], two searches use
    candidate paths.  The template search of the enrichment, whose
    result is the template that is overlaid, never raises and asks the
    Content Client exactly what the search of the specification asks,
    in the same order: a non-empty initial part of [[p0, "*"]], [["*"]],
    [[p0]], [[p0, "*"]], each call made only when the search has not
    stopped before.  It returns what the search of the specification
    returns whenever the probe beneath a parent is not reached; when it
    is reached, the document at [[p0]] is a parent that is not named by
    the marker, and the template is the probed child when that is named
    by the marker and the parent itself otherwise, also when the probe
    finds nothing.  The probe that the resolver makes before the
    enrichment tries [[p0, "*"]], [["*"]] and the request with its last
    segment replaced by the marker ([["*"]] for a request of one
    segment), stops at the first candidate that the Content Client
    answers with a document, whatever its name, and raises when the
    Content Client does; the document it finds is not handed to the
    enrichment, which is run, when the target is configured, from the
    request alone. *)
Theorem discovery_order p0 rest site locale h :
  let ask := fun path => EvGetPage path site locale in
  let c1 := [p0; "*"] in
  let c2 := ["*"] in
  let c3 := [p0] in
  let spec := discoverySpec w p0 site locale h in
  (∃ template,
      findWildcardPage w (p0 :: rest) site locale h
      = (Ok template, h ++ List.map ask (snd spec))
      ∧ (snd spec = [c1] ∨ snd spec = [c1; c2] ∨ snd spec = [c1; c2; c3]
         ∨ snd spec = [c1; c2; c3; c1])
      ∧ (snd spec ≠ [c1; c2; c3; c1] → template = fst spec)
      ∧ (snd spec = [c1; c2; c3; c1] →
         ∃ parent,
           clientAnswer w (h ++ [ask c1; ask c2]) c3 site locale = Some parent
           ∧ namedByMarker parent = false
           ∧ fst spec = clientAnswer w (h ++ [ask c1; ask c2; ask c3]) c1 site locale
           ∧ template = match fst spec with
                        | Some child => if namedByMarker child then Some child
                                        else Some parent
                        | None => Some parent
                        end))
  ∧ (let last := match rest with
                 | [] => ["*"]
                 | _ :: _ => removelast (p0 :: rest) ++ ["*"]
                 end in
     let identifier := fun doc : Page =>
       match route doc with Some rt => itemId rt | None => "" end in
     probeLoop w site locale (probePaths (p0 :: rest)) h
     = match client_getPage w h c1 site locale with
       | Throw e => (Throw e, h ++ [ask c1])
       | Ok (Some doc) => (Ok (Some doc, identifier doc), h ++ [ask c1])
       | Ok None =>
           match client_getPage w (h ++ [ask c1]) c2 site locale with
           | Throw e => (Throw e, h ++ [ask c1; ask c2])
           | Ok (Some doc) => (Ok (Some doc, identifier doc), h ++ [ask c1; ask c2])
           | Ok None =>
               match client_getPage w (h ++ [ask c1; ask c2]) last site locale with
               | Throw e => (Throw e, h ++ [ask c1; ask c2; ask last])
               | Ok (Some doc) =>
                   (Ok (Some doc, identifier doc), h ++ [ask c1; ask c2; ask last])
               | Ok None => (Ok (None, ""), h ++ [ask c1; ask c2; ask last])
               end
           end
       end)
  ∧ resolveMissing w cfg (p0 :: rest) site locale h
    = match probeLoop w site locale (probePaths (p0 :: rest)) h with
      | (Ok _, h1) =>
          if targetConfigured cfg
          then queryTargetSiteAndCreatePage w cfg (p0 :: rest) site locale h1
          else (Ok None, h1)
      | (Throw e, h1) => (Throw e, h1)
      end.
Proof.
  cbv zeta. split; [|split].
  - rewrite findWildcardPage_run, discoverySpec_run. cbv zeta.
    destruct (clientAnswer w h [p0; "*"] site locale) as [d1|].
    { eexists. split; [reflexivity|]. split; [by left|]. split; [done|]. by intros [=]. }
    destruct (clientAnswer w _ ["*"] site locale) as [d2|].
    { eexists. split; [reflexivity|]. split; [by right; left|]. split; [done|].
      by intros [=]. }
    destruct (clientAnswer w _ [p0] site locale) as [d3|] eqn:E3.
    2:{ eexists. split; [reflexivity|]. split; [by right; right; left|]. split; [done|].
        by intros [=]. }
    destruct (namedByMarker d3 || containsMarker [p0]) eqn:En.
    { eexists. split; [reflexivity|]. split; [by right; right; left|]. split; [done|].
      by intros [=]. }
    apply orb_false_iff in En as [En _].
    eexists. split; [reflexivity|]. split; [by right; right; right|]. split; [done|].
    intros _. exists d3. cbn [fst snd]. by repeat split.
  - unfold probePaths. destruct rest as [|p1 rest]; apply probeLoop_run.
  - apply resolveMissing_run.
Qed.

End Discovery.

Section ResolverFacts.

Variable w : World.
Variable cfg : Config.

Lemma getPage_run path site locale h :
  getPage w path site locale h
  = (client_getPage w h path site locale, h ++ [EvGetPage path site locale]).
Proof. reflexivity. Qed.

(** What a call of [makeGraphQLRequest] leaves behind. *)
Lemma makeGraphQLRequest_inv base q path lang key h r h' :
  makeGraphQLRequest w cfg base q path lang key h = (r, h') →
  (h' = h ∧ r = Throw ApiKeyNotSet)
  ∨ ∃ req, h' = h ++ [EvFetch req]
           ∧ req_query req = q ∧ req_path req = path ∧ req_language req = lang
           ∧ match r with
             | Ok d => ∃ resp res, global_fetch w h req = Some resp
                                   ∧ resp_ok resp = true
                                   ∧ resp_json resp = Some res
                                   ∧ res_errors res = None
                                   ∧ res_data res = d
             | Throw _ => True
             end.
Proof.
  unfold makeGraphQLRequest.
  destruct (negb (JS.truthy (JS.or (SITECORE_GRAPHQL_API_KEY cfg) key))).
  { unfold throw. intros [= <- <-]. by left. }
  unfold bind, fetch, throw, ret. intros H. right.
  match type of H with
  | context [global_fetch w h ?r] => exists r; destruct (global_fetch w h r) as [resp|] eqn:F
  end.
  2:{ inversion H; subst. done. }
  destruct (resp_ok resp) eqn:Hok; simpl in H.
  2:{ inversion H; subst. done. }
  destruct (resp_json resp) as [res|] eqn:Hj.
  2:{ inversion H; subst. done. }
  destruct (res_errors res) eqn:He; inversion H; subst; [done|].
  repeat split; try done. by exists resp, res.
Qed.

(** A remote item reaches the caller only through a successful answer. *)
Lemma remoteItem_inv base q path lang key h it h' :
  bind (makeGraphQLRequest w cfg base q path lang key) responseItem h
    = (Ok (Some it), h') →
  ∃ req resp, h' = h ++ [EvFetch req]
              ∧ req_query req = q ∧ req_path req = path ∧ req_language req = lang
              ∧ global_fetch w h req = Some resp ∧ answersWith resp it.
Proof.
  intros H. apply bind_Ok_inv in H as (d & h1 & Hm & Hr).
  apply makeGraphQLRequest_inv in Hm as [[_ [=]]|(req & -> & Hq & Hp & Hl & resp & res & F & Hok & Hj & He & Hd)].
  destruct d as [o|]; [|discriminate]. inversion Hr; subst.
  exists req, resp. repeat split; try done. by exists res.
Qed.

(** The events of a remote lookup: none, or one call of [fetch]. *)
Lemma remoteLookup_events base q path lang key h r h' :
  bind (makeGraphQLRequest w cfg base q path lang key) responseItem h = (r, h') →
  h' = h ∨ ∃ req, h' = h ++ [EvFetch req] ∧ req_query req = q ∧ req_path req = path.
Proof.
  intros H. apply bind_inv in H as [(d & h1 & Hm & Hr)|(e & Hm & _)].
  - assert (h' = h1) as -> by (destruct d; inversion Hr; done).
    apply makeGraphQLRequest_inv in Hm as [[-> _]|(req & -> & Hq & Hp & _)]; eauto.
  - apply makeGraphQLRequest_inv in Hm as [[-> _]|(req & -> & Hq & Hp & _)]; eauto.
Qed.

Lemma logChildrenById_run ident lang h :
  ∃ b h', logChildrenById w cfg ident lang h = (Ok b, h')
          ∧ (h' = h ∨ ∃ req, h' = h ++ [EvFetch req]
                             ∧ req_query req = GET_CHILDREN_BY_ID_QUERY).
Proof.
  unfold logChildrenById. destruct (JS.truthy ident); [|by eexists _, _; split; [reflexivity|left]].
  unfold try_catch.
  match goal with
  | |- context [bind ?m ?k h] => destruct (bind m k h) as [[o|e] h1] eqn:E
  end.
  - eexists _, _; split; [reflexivity|].
    apply bind_Ok_inv in E as (d & h2 & Hm & Hr).
    apply bind_Ok_inv in Hr as (it & h3 & Hi & Hk).
    assert (h3 = h2) as -> by (destruct d; inversion Hi; done).
    assert (h1 = h2) as -> by (destruct it; inversion Hk; done).
    apply makeGraphQLRequest_inv in Hm as [[_ [=]]|(req & -> & Hq & _)]; eauto.
  - eexists _, _; split; [reflexivity|].
    apply bind_inv in E as [(d & h2 & Hm & Hr)|(e' & Hm & _)].
    + apply bind_inv in Hr as [(it & h3 & Hi & Hk)|(e' & Hi & _)].
      * destruct it; inversion Hk.
      * assert (h1 = h2) as -> by (destruct d; inversion Hi; done).
        apply makeGraphQLRequest_inv in Hm as [[-> _]|(req & -> & Hq & _)]; eauto.
    + apply makeGraphQLRequest_inv in Hm as [[-> _]|(req & -> & Hq & _)]; eauto.
Qed.

(** [logWildcardChildren] without an item path: it returns, and makes at
    most one call, a query for the children by identifier. *)
Lemma logWildcardChildren_run ident lang h :
  ∃ h', logWildcardChildren w cfg None ident lang h = (Ok tt, h')
        ∧ (h' = h ∨ ∃ req, h' = h ++ [EvFetch req]
                           ∧ req_query req = GET_CHILDREN_BY_ID_QUERY).
Proof.
  unfold logWildcardChildren, try_catch.
  destruct (negb (JS.truthy (edgeUrl cfg)) || negb (JS.truthy (contextId cfg)));
    [by eexists; split; [reflexivity|left]|].
  destruct (negb (JS.truthy (contextId cfg)));
    [by eexists; split; [reflexivity|left]|].
  unfold bind. destruct (logChildrenById_run ident lang h) as (b & h' & -> & Hev).
  exists h'. by destruct b.
Qed.


Lemma cleanPath_nonempty path : cleanPath path ≠ [] → (0 <? length path)%nat = true.
Proof. destruct path; [done|]. reflexivity. Qed.

(** C1 (amended).  When the direct lookup on a non-empty cleaned path
    answers with a document named by the wildcard marker, the resolver
    treats it as "no child exists": it returns nothing, and after the
    direct lookup it makes no further call of the Content Client and no
    query for an item with fields, only (at most) one query for the
    children of the wildcard node, whose answer is not used. *)
Theorem direct_wildcard_is_not_found path site locale h pg :
  isSystemRequest path site locale = false →
  cleanPath path ≠ [] →
  client_getPage w h (cleanPath path) site (normalizeLocale locale) = Ok (Some pg) →
  routeName pg = "*" →
  ∃ calls,
    resolvePageWithWildcard w cfg path site locale h
    = (Ok None, h ++ EvGetPage (cleanPath path) site (normalizeLocale locale) :: calls)
    ∧ (calls = [] ∨ ∃ req, calls = [EvFetch req]
                           ∧ req_query req = GET_CHILDREN_BY_ID_QUERY).
Proof.
  intros Hsys Hne Hpg Hname.
  unfold resolvePageWithWildcard, resolveBody. rewrite Hsys.
  destruct (cleanPath path) as [|p0 rest] eqn:Hc; [done|].
  rewrite <- Hc in *.
  unfold try_catch, bind at 1. rewrite getPage_run, Hpg, Hname.
  rewrite cleanPath_nonempty by done. simpl.
  unfold bind.
  destruct (logWildcardChildren_run (routeItemId pg)
              (JS.or (default "" (language pg)) locale)
              (h ++ [EvGetPage (cleanPath path) site (normalizeLocale locale)]))
    as (h' & -> & Hev).
  unfold ret. destruct Hev as [->|(req & -> & Hq)].
  - exists []. split; [done|by left].
  - exists [EvFetch req]. rewrite <- app_assoc. split; [done|right; eauto].
Qed.

End ResolverFacts.

Section ResolverOutcome.

Variable w : World.
Variable cfg : Config.

Lemma fromClient_intro h path site locale tpl :
  client_getPage w h path site locale = Ok (Some tpl) → fromClient w site locale tpl.
Proof. intros H. by exists h, path. Qed.

Local Hint Resolve fromClient_intro : core.

Lemma templateLoopBody_inv site locale wp0 path h r h' :
  templateLoopBody w site locale wp0 path h = (r, h') →
  ∃ wp b, r = Ok (wp, b)
          ∧ (wp = wp0 ∨ wp = None ∨ ∃ tpl, wp = Some tpl ∧ fromClient w site locale tpl).
Proof.
  unfold templateLoopBody, try_catch, bind, getPage, ret.
  destruct (client_getPage w h path site locale) as [[pg|]|e] eqn:E1.
  2,3: intros [= <- <-]; eauto 10.
  destruct (_ || _ || _).
  { intros [= <- <-]. eexists _, _. split; [done|]. right; right. eauto. }
  destruct (_ && _).
  2:{ intros [= <- <-]. eexists _, _. split; [done|]. right; right. eauto. }
  match goal with
  | |- context [client_getPage w ?h2 ?p2 site locale] =>
      destruct (client_getPage w h2 p2 site locale) as [[ch|]|e] eqn:E2
  end.
  2,3: intros [= <- <-]; eexists _, _; (split; [done|]); right; right; eauto.
  destruct (String.eqb _ _); intros [= <- <-]; eexists _, _; (split; [done|]);
    right; right; eauto.
Qed.

Lemma templateLoop_inv site locale paths :
  ∀ wp0 h r h',
    templateLoop w site locale wp0 paths h = (r, h') →
    ∃ wp, r = Ok wp
          ∧ (wp = wp0 ∨ wp = None ∨ ∃ tpl, wp = Some tpl ∧ fromClient w site locale tpl).
Proof.
  induction paths as [|path paths IH]; intros wp0 h r h'; simpl.
  { unfold ret. intros [= <- <-]. eauto. }
  intros H. apply bind_inv in H as [(step & h1 & Hb & Hk)|(e & Hb & _)].
  - apply templateLoopBody_inv in Hb as (wp & b & [= ->] & Hwp). simpl in Hk.
    destruct b.
    + inversion Hk; subst. eauto.
    + apply IH in Hk as (wp' & -> & Hwp'). exists wp'. split; [done|].
      destruct Hwp' as [->|[->|?]]; auto.
  - apply templateLoopBody_inv in Hb as (? & ? & [=] & _).
Qed.

Lemma findWildcardPage_inv path site locale h r h' :
  findWildcardPage w path site locale h = (r, h') →
  ∃ wp, r = Ok wp ∧ ∀ tpl, wp = Some tpl → fromClient w site locale tpl.
Proof.
  intros H. apply templateLoop_inv in H as (wp & -> & Hwp).
  exists wp. split; [done|]. intros tpl ->.
  destruct Hwp as [[=]|[[=]|(tpl' & [= <-] & H)]]. exact H.
Qed.

Lemma ancestorTemplate_inv path site locale it h p h' :
  ancestorTemplate w path site locale it h = (Ok (Some p), h') →
  ∃ tpl, fromClient w site locale tpl ∧ createPageFromTemplate tpl it = Some p.
Proof.
  unfold ancestorTemplate, bind, getPage, ret.
  match goal with
  | |- context [client_getPage w ?h2 ?p2 site locale] =>
      destruct (client_getPage w h2 p2 site locale) as [[parent|]|e] eqn:E1
  end.
  - intros [= Hp _]. eauto 10.
  - match goal with
    | |- context [client_getPage w ?h2 [] site locale] =>
        destruct (client_getPage w h2 [] site locale) as [[root|]|e] eqn:E2
    end; intros [= Hp]; eauto 10.
  - intros [=].
Qed.

(** The outcome of queryTargetSiteAndCreatePage: it never throws, and a
    page it returns is an overlay of a fetched item on a document of the
    Content Client, the item having been asked for at the derived path. *)
Lemma queryTarget_inv path site locale h r h' :
  queryTargetSiteAndCreatePage w cfg path site locale h = (r, h') →
  ∃ o, r = Ok o
       ∧ ∀ p, o = Some p →
           targetConfigured cfg = true
           ∧ ∃ it tpl,
               (∃ h1 req resp, global_fetch w h1 req = Some resp ∧ answersWith resp it
                               ∧ req_query req = GET_ITEM_WITH_FIELDS_QUERY
                               ∧ req_path req = targetItemPathOf cfg path)
               ∧ fromClient w site locale tpl
               ∧ (createPageFromWildcard tpl it = Ok (Some p)
                  ∨ createPageFromTemplate tpl it = Some p).
Proof.
  unfold queryTargetSiteAndCreatePage. intros H.
  apply try_catch_inv in H as [(o & H & ->)|(e & h1 & _ & H)].
  2:{ inversion H; subst. exists None. split; done. }
  exists o. split; [done|]. intros p ->.
  unfold targetConfigured.
  destruct (JS.truthy (TARGET_SITE_NAME cfg)); simpl in H; [|inversion H].
  destruct (JS.truthy (TARGET_SITE_PATH cfg)); simpl in H; [|inversion H].
  destruct (negb (JS.truthy (edgeUrl cfg)) || negb (JS.truthy (contextId cfg)));
    [inversion H|].
  split; [done|].
  apply bind_Ok_inv in H as (d & h1 & Hm & H).
  apply bind_Ok_inv in H as (item & h2 & Hi & H).
  destruct item as [it|]; [|inversion H].
  assert (Hfetch : bind (makeGraphQLRequest w cfg (edgeUrl cfg) GET_ITEM_WITH_FIELDS_QUERY
                           (targetItemPathOf cfg path)
                           (if JS.truthy locale && negb (String.eqb locale "appspecific")
                            then locale else "en") (contextId cfg))
                        responseItem h = (Ok (Some it), h2)).
  { unfold bind at 1. rewrite Hm. exact Hi. }
  apply remoteItem_inv in Hfetch as (req & resp & _ & Hq & Hp & _ & F & Ha).
  exists it.
  apply bind_Ok_inv in H as (wp & h3 & Hw & H).
  apply findWildcardPage_inv in Hw as (wp' & [= <-] & Hwp).
  destruct wp as [tpl|].
  - inversion H as [[Hp' Hh]]. exists tpl. split; [eauto 10|]. split; [by apply Hwp|by left].
  - apply ancestorTemplate_inv in H as (tpl & Hc & Hp').
    exists tpl. split; [eauto 10|]. split; [done|by right].
Qed.

Lemma resolveMissing_inv finalPath site finalLocale h p h' :
  resolveMissing w cfg finalPath site finalLocale h = (Ok (Some p), h') →
  targetConfigured cfg = true ∧ enrichedFrom w site finalLocale p.
Proof.
  unfold resolveMissing. intros H.
  apply bind_Ok_inv in H as (probe & h1 & _ & H).
  assert (Hq : ∃ h2, bind (queryTargetSiteAndCreatePage w cfg finalPath site finalLocale)
                       (fun targetPage => match targetPage with
                                          | Some tp => ret (Some tp)
                                          | None => ret None
                                          end) h2 = (Ok (Some p), h')
                     ∧ targetConfigured cfg = true).
  { destruct (_ && _); destruct (targetConfigured cfg); try (inversion H; fail); eauto. }
  destruct Hq as (h2 & Hq & Hcfg). split; [done|].
  apply bind_Ok_inv in Hq as (o & h3 & Hq & Hk).
  apply queryTarget_inv in Hq as (o' & [= <-] & Ho).
  destruct o as [tp|]; inversion Hk; subst.
  destruct (Ho p eq_refl) as (_ & it & tpl & (hf & req & resp & F & Ha & Hqk & _) & Hc & Hp).
  exists it, tpl. eauto 10.
Qed.

(** The document found by the probe of Step 2 is not used: whatever the
    probe finds, the branch goes on to the remote enrichment when the
    target is configured, and to nothing otherwise. *)
Lemma resolveMissing_probe_unused finalPath site finalLocale h :
  resolveMissing w cfg finalPath site finalLocale h
  = bind (probeLoop w site finalLocale (probePaths finalPath))
      (fun _ => if targetConfigured cfg
                then queryTargetSiteAndCreatePage w cfg finalPath site finalLocale
                else ret None) h.
Proof.
  unfold resolveMissing. apply bind_ext. intros probe h1.
  assert (E : bind (queryTargetSiteAndCreatePage w cfg finalPath site finalLocale)
                (fun targetPage => match targetPage with
                                   | Some tp => ret (Some tp)
                                   | None => ret None
                                   end) h1
              = queryTargetSiteAndCreatePage w cfg finalPath site finalLocale h1).
  { unfold bind.
    by destruct (queryTargetSiteAndCreatePage w cfg finalPath site finalLocale h1)
      as [[[tp|]|e] h2]. }
  destruct (bool_decide (probe.1 ≠ None) && JS.truthy probe.2);
    by destruct (targetConfigured cfg).
Qed.

Lemma resolveBody_inv path site locale h p h' :
  resolveBody w cfg path site locale h = (Ok (Some p), h') →
  client_getPage w h (cleanPath path) site (normalizeLocale locale) = Ok (Some p)
  ∨ (client_getPage w h (cleanPath path) site (normalizeLocale locale) = Ok None
     ∧ targetConfigured cfg = true
     ∧ enrichedFrom w site (normalizeLocale locale) p).
Proof.
  unfold resolveBody. destruct (isSystemRequest path site locale); [intros [=]|].
  destruct (cleanPath path) as [|p0 rest] eqn:Hc.
  { rewrite getPage_run. intros [= -> _]. by left. }
  intros H. apply bind_Ok_inv in H as (page & h1 & Hg & H).
  rewrite getPage_run in Hg. inversion Hg as [[Hg' Hh]]. clear Hg.
  destruct page as [pg|].
  - destruct (_ && _).
    + apply bind_Ok_inv in H as (? & ? & _ & [=]).
    + inversion H; subst. by left.
  - right. split; [done|]. by apply resolveMissing_inv in H.
Qed.

End ResolverOutcome.

Section WildcardScenario.

Variable w : World.
Variable cfg : Config.
Variables site locale : string.
Variable W : Page.
Variable it : RemoteItem.

Hypothesis target_name_set : JS.truthy (SITECORE_TARGET_SITE_NAME cfg) = true.
Hypothesis target_path_set : JS.truthy (SITECORE_TARGET_SITE_PATH cfg) = true.
Hypothesis edge_url_set : JS.truthy (edgeUrl cfg) = true.
Hypothesis context_id_set : JS.truthy (contextId cfg) = true.
Hypothesis site_ordinary : site ≠ ".well-known".
Hypothesis locale_ordinary : locale ≠ "appspecific".
Hypothesis wildcard_named : routeName W = "*".
Hypothesis client_stub :
  ∀ h path s l,
    client_getPage w h path s l
    = Ok (if bool_decide (path = ["blog"; "*"]) then Some W else None).
Hypothesis remote_stub :
  ∀ h r, req_path r = SITECORE_TARGET_SITE_PATH cfg +:+ "/" +:+ "post-1" →
         ∃ resp, global_fetch w h r = Some resp ∧ answersWith resp it.

Let loc := normalizeLocale locale.










End WildcardScenario.

Section ResolverTheorems.

Variable w : World.
Variable cfg : Config.

(** C7.  The resolver never raises: every run ends in a value.  A
    document it returns is either the answer of the direct lookup, or an
    overlay made while the remote target is configured, from an item the
    Remote Query Client answered with and a document the Content Client
    answered with.  Hence it returns nothing when every tier fails
    (neither client yields anything); when a required remote-target
    value is empty, or when every remote call fails (rejects,
    RemoteUnavailable, RemoteQueryError, or no item), the only document
    it can return is the one the direct lookup itself found: a failure
    inside a tier counts as that tier failing and is never raised. *)
Theorem resolve_never_raises path site locale h :
  let direct := client_getPage w h (cleanPath path) site (normalizeLocale locale) in
  ∃ r h',
    resolvePageWithWildcard w cfg path site locale h = (Ok r, h')
    ∧ (∀ p, r = Some p →
         direct = Ok (Some p)
         ∨ (direct = Ok None ∧ targetConfigured cfg = true
            ∧ enrichedFrom w site (normalizeLocale locale) p))
    ∧ (clientSilent w → remoteSilent w → r = None)
    ∧ (SITECORE_TARGET_SITE_NAME cfg = "" ∨ SITECORE_TARGET_SITE_PATH cfg = "" →
       ∀ p, r = Some p → direct = Ok (Some p))
    ∧ (remoteSilent w → ∀ p, r = Some p → direct = Ok (Some p)).
Proof.
  intros direct.
  assert (Hrun : ∃ r h',
             resolvePageWithWildcard w cfg path site locale h = (Ok r, h')
             ∧ ∀ p, r = Some p →
                 direct = Ok (Some p)
                 ∨ (direct = Ok None ∧ targetConfigured cfg = true
                    ∧ enrichedFrom w site (normalizeLocale locale) p)).
  { unfold resolvePageWithWildcard, try_catch.
    destruct (resolveBody w cfg path site locale h) as [[r|e] h'] eqn:E.
    - exists r, h'. split; [done|]. intros p ->. by apply resolveBody_inv in E.
    - exists None, h'. split; [done|]. intros p [=]. }
  destruct Hrun as (r & h' & Hrun & Hchar).
  exists r, h'. split; [done|]. split; [done|].
  repeat split.
  - intros Hc Hr. destruct r as [p|]; [|done].
    destruct (Hchar p eq_refl) as [Hd|(_ & _ & it & tpl & _ & (hc & pc & Hcl) & _)].
    + unfold direct in Hd. rewrite Hc in Hd. discriminate.
    + rewrite Hc in Hcl. discriminate.
  - intros Hcfg p ->.
    destruct (Hchar p eq_refl) as [Hd'|(_ & Ht & _)]; [done|].
    unfold targetConfigured, TARGET_SITE_NAME, TARGET_SITE_PATH in Ht.
    destruct Hcfg as [E|E]; rewrite E in Ht; simpl in Ht;
      [discriminate|by rewrite andb_false_r in Ht].
  - intros Hr p ->.
    destruct (Hchar p eq_refl) as [Hd'|(_ & _ & it & tpl & (hf & req & resp & F & Ha & _) & _)];
      [done|].
    by destruct (Hr hf req resp it F).
Qed.

Lemma overrideField_values o v :
  value (overrideField o v) = Some v
  ∧ ∃ jv, jsonValue (overrideField o v) = Some jv ∧ jv_value jv = Some v.
Proof. split; [done|]. eexists. split; reflexivity. Qed.

Lemma overlay_Title tpl n i t c p :
  overlayWildcard tpl n i t c = Ok (Some p) ∨ overlayTemplate tpl n i t c = Some p →
  ∃ rt, route tpl = Some rt
        ∧ routeField p "Title"
          = Some (overrideField (default ∅ (route_fields rt) !! "Title") t)
        ∧ routeField p "Content"
          = (if JS.truthy c
             then Some (overrideField (default ∅ (route_fields rt) !! "Content") c)
             else routeField tpl "Content").
Proof.
  intros H.
  assert (Hf : ∃ rt, route tpl = Some rt
                     ∧ match route p with
                       | Some r => route_fields r
                       | None => None
                       end = Some (updateFields (default ∅ (route_fields rt)) t c)).
  { destruct H as [H|H].
    - apply overlayWildcard_Ok in H as (rt & Hrt & phs' & _ & ->). by exists rt.
    - unfold overlayTemplate, JSON_clone in H.
      destruct (route tpl) as [rt|] eqn:Hrt; [|done].
      injection H as <-. by exists rt. }
  destruct Hf as (rt & Hrt & Hf). unfold routeField. rewrite Hrt.
  exists rt. split; [done|].
  destruct (route p) as [r|]; [|discriminate]. rewrite Hf.
  rewrite updateFields_Title, updateFields_Content. split; [done|].
  destruct (JS.truthy c); [done|]. by destruct (route_fields rt).
Qed.

(** C10.  A page returned by the remote enrichment is the overlay of an
    item the remote source answered with, asked for at the derived path,
    on a template document of the Content Client; when the item
    exposes no [Title]/[title] field, the Title field of the page holds
    the item's name in both representations; when it exposes no
    [Content]/[content] field, or one whose value is the empty string,
    the Content field of the page is the Content field of the template. *)
Theorem enrichment_field_defaults path site locale h p h' :
  queryTargetSiteAndCreatePage w cfg path site locale h = (Ok (Some p), h') →
  ∃ it tpl,
    (∃ h1 req resp, global_fetch w h1 req = Some resp ∧ answersWith resp it
                    ∧ req_path req = targetItemPathOf cfg path)
    ∧ fromClient w site locale tpl
    ∧ (createPageFromWildcard tpl it = Ok (Some p) ∨ createPageFromTemplate tpl it = Some p)
    ∧ (findField isTitleField it = None →
       ∃ f jv, routeField p "Title" = Some f
               ∧ value f = Some (item_name it)
               ∧ jsonValue f = Some jv ∧ jv_value jv = Some (item_name it))
    ∧ (findField isContentField it = None
       ∨ (∃ cf, findField isContentField it = Some cf ∧ if_value cf = "") →
       routeField p "Content" = routeField tpl "Content").
Proof.
  intros H. apply queryTarget_inv in H as (o & [= <-] & Ho).
  destruct (Ho p eq_refl) as (_ & it & tpl & (h1 & req & resp & F & Ha & _ & Hp) & Hc & Hov).
  exists it, tpl. split; [eauto 10|]. split; [done|]. split; [done|].
  unfold createPageFromWildcard, createPageFromTemplate in Hov.
  apply overlay_Title in Hov as (rt & Hrt & HT & HC).
  split.
  - intros Hnone. rewrite HT. eexists _, _. split; [reflexivity|]. simpl.
    unfold itemTitle. rewrite Hnone. simpl.
    assert (E : JS.or "" (item_name it) = item_name it) by done.
    rewrite E. done.
  - intros Hcontent. rewrite HC.
    assert (E : itemContent it = "").
    { unfold itemContent. destruct Hcontent as [->|(cf & -> & Hv)]; simpl; [done|].
      by rewrite Hv. }
    by rewrite E.
Qed.

End ResolverTheorems.

(* ===================================================================== *)
(** * Properties of the sitemap synthesizer *)
(* ===================================================================== *)

Section StringFacts.

Lemma append_cons (x : ascii) (a b : string) :
  String x a +:+ b = String x (a +:+ b).
Proof. reflexivity. Qed.

Lemma append_nil (b : string) : "" +:+ b = b.
Proof. reflexivity. Qed.

Lemma append_assoc (a b c : string) : (a +:+ b) +:+ c = a +:+ (b +:+ c).
Proof.
  induction a as [|x a IH]; [done|]. rewrite !append_cons. by f_equal.
Qed.

Lemma prefix_nil (s : string) : String.prefix "" s = true.
Proof. by destruct s. Qed.

Lemma prefix_drop (p s : string) :
  String.prefix p s = true → s = p +:+ JS.drop (String.length p) s.
Proof.
  revert s. induction p as [|x p IH]; intros s H.
  - by destruct s.
  - destruct s as [|y s]; [discriminate|]. simpl in H.
    destruct (ascii_dec x y) as [->|]; [|discriminate].
    simpl JS.drop. rewrite append_cons. f_equal. by apply IH.
Qed.

Lemma prefix_append (p a b : string) :
  String.prefix p a = true → String.prefix p (a +:+ b) = true.
Proof.
  revert a. induction p as [|x p IH]; intros a H.
  - apply prefix_nil.
  - destruct a as [|y a]; [discriminate|]. rewrite append_cons.
    simpl in H |- *. destruct (ascii_dec x y); [by apply IH|done].
Qed.

(** [replace] removes the first occurrence of a pattern that occurs. *)
Lemma includes_replace (p r : string) :
  p ≠ "" →
  ∀ s, JS.includes s p = true →
       ∃ pre post, s = pre +:+ p +:+ post
                   ∧ JS.includes pre p = false
                   ∧ JS.replace s p r = pre +:+ r +:+ post.
Proof.
  intros Hp. induction s as [|c s IH].
  - destruct p; [done|]. discriminate.
  - unfold JS.includes, JS.replace. fold JS.includes. fold JS.replace.
    destruct (String.prefix p (String c s)) eqn:E.
    + intros _. exists "", (JS.drop (String.length p) (String c s)).
      rewrite !append_nil.
      split; [by apply prefix_drop|]. split; [|done].
      destruct p; [done|]. done.
    + intros H. destruct (IH H) as (pre & post & Hs & Hpre & Hr).
      exists (String c pre), post. rewrite !append_cons, <- Hs, Hr.
      split; [done|]. split; [|done].
      unfold JS.includes. fold JS.includes. rewrite Hpre.
      destruct (String.prefix p (String c pre)) eqn:E'; [|done].
      apply (prefix_append _ _ (p +:+ post)) in E'.
      rewrite append_cons, <- Hs in E'. congruence.
Qed.

End StringFacts.

Section SitemapFacts.

Variable w : World.
Variable cfg : Config.

Lemma buildEntries_single baseUrl site loc prefix child h :
  buildEntries w baseUrl site loc prefix [child] h
  = (Ok [urlEntry (childUrl baseUrl site loc prefix child) (date_now w h)],
     h ++ [EvNow]).
Proof. reflexivity. Qed.

Lemma insertEntries_single xml entry :
  (JS.includes xml closingTag = true →
     ∃ pre post, xml = pre +:+ closingTag +:+ post
                 ∧ JS.includes pre closingTag = false
                 ∧ insertEntries xml [entry] = pre +:+ post +:+ entry +:+ nl +:+ closingTag)
  ∧ (JS.includes xml closingTag = false → insertEntries xml [entry] = xml +:+ entry).
Proof.
  unfold insertEntries. split; intros H; rewrite H.
  - destruct (includes_replace closingTag "" ltac:(done) xml H)
      as (pre & post & Hx & Hpre & Hr).
    exists pre, post. split; [done|]. split; [done|].
    rewrite Hr. unfold JS.join. simpl. by rewrite append_nil, append_assoc.
  - done.
Qed.

(** The run of the synthesis with exactly one remote child. *)
Lemma single_child_run xml requestUrl h prefix child h1 h2 protocol host :
  JS.truthy (SITECORE_TARGET_SITE_NAME cfg) = true →
  JS.truthy (SITECORE_TARGET_SITE_PATH cfg) = true →
  JS.truthy (sitemapDefaultSite cfg) = true →
  getWildcardPathPrefix w cfg (sitemapDefaultSite cfg) "en" h = (Ok prefix, h1) →
  getTargetSiteChildren w cfg "en" h1 = (Ok [child], h2) →
  url_parse w requestUrl = Some (protocol, host) →
  ∃ out entry,
    enhanceSitemapWithWildcardPages w cfg xml requestUrl h = (Ok out, h2 ++ [EvNow])
    ∧ entry = urlEntry (childUrl (protocol +:+ "//" +:+ host) (sitemapDefaultSite cfg)
                          "en" prefix child) (date_now w h2)
    ∧ (JS.includes xml closingTag = true →
         ∃ pre post, xml = pre +:+ closingTag +:+ post
                     ∧ JS.includes pre closingTag = false
                     ∧ out = pre +:+ post +:+ entry +:+ nl +:+ closingTag)
    ∧ (JS.includes xml closingTag = false → out = xml +:+ entry).
Proof.
  intros Hn Hp Hs Hprefix Hchildren Hurl.
  unfold enhanceSitemapWithWildcardPages, TARGET_SITE_NAME, TARGET_SITE_PATH.
  rewrite Hn, Hp, Hs. cbn [negb orb]. cbv zeta.
  unfold try_catch, bind at 1. rewrite Hprefix.
  unfold bind at 1. rewrite Hchildren. cbn [length Nat.eqb].
  rewrite Hurl. unfold bind. rewrite buildEntries_single. unfold ret.
  eexists _, _. split; [reflexivity|]. split; [reflexivity|].
  apply insertEntries_single.
Qed.









End SitemapFacts.

(* ===================================================================== *)
(** * The sample sites, evaluated *)
(* ===================================================================== *)

Module Runs.

Import Examples MoreExamples.

(** C1 (counterexample).  The Content Client answers the request
    [blog/post-1] itself with the wildcard page, knows the wildcard page
    at [blog/*], and the remote source has the item: the resolver
    returns nothing, where the branch taken when the direct lookup
    answers nothing, run in the same world from the same point, returns
    the enriched page, as does the resolver in the world whose direct
    lookup answers nothing. *)
Lemma direct_wildcard_differs_from_miss :
  client_getPage directWildcardWorld start (cleanPath request) "blogs" (normalizeLocale "en")
    = Ok (Some wildcardDoc)
  ∧ routeName wildcardDoc = "*"
  ∧ fst (resolvePageWithWildcard directWildcardWorld cfg request "blogs" "en" start)
    = Ok None
  ∧ fst (resolveMissing directWildcardWorld cfg (cleanPath request) "blogs"
           (normalizeLocale "en")
           (start ++ [EvGetPage (cleanPath request) "blogs" (normalizeLocale "en")]))
    = Ok (Some helloPage)
  ∧ fst (resolvePageWithWildcard missWorld cfg request "blogs" "en" start)
    = Ok (Some helloPage).
Proof. repeat split; vm_compute; reflexivity. Qed.

Lemma direct_wildcard_is_not_found_witness :
  isSystemRequest request "blogs" "en" = false
  ∧ cleanPath request ≠ []
  ∧ client_getPage directWildcardWorld start (cleanPath request) "blogs"
      (normalizeLocale "en") = Ok (Some wildcardDoc)
  ∧ routeName wildcardDoc = "*"
  ∧ ∃ calls,
      resolvePageWithWildcard directWildcardWorld cfg request "blogs" "en" start
      = (Ok None,
         start ++ EvGetPage (cleanPath request) "blogs" (normalizeLocale "en") :: calls)
      ∧ (calls = [] ∨ ∃ req, calls = [EvFetch req]
                             ∧ req_query req = GET_CHILDREN_BY_ID_QUERY).
Proof.
  split; [reflexivity|]. split; [discriminate|]. split; [reflexivity|].
  split; [reflexivity|].
  apply (direct_wildcard_is_not_found directWildcardWorld cfg request "blogs" "en"
           start wildcardDoc); [reflexivity|discriminate|reflexivity|reflexivity].
Defined.






(** C3 (counterexample).  For the request [a/b/c], with a Content
    Client that knows a wildcard page at [a/b/*] only, the resolver asks
    for the request itself, then for [a/*], [*] and [a/b/*], where its
    probe stops at a candidate that is not among [a/*], [*], [a], which
    the search of the specification asks for and which give nothing;
    after the remote call the template search asks for [a/*], [*] and
    [a] and finds nothing, the ancestors [a] and the root give nothing
    either, and the resolver returns nothing: the page found at [a/b/*]
    is not the template.  With a Content Client that knows an ordinary
    page at [a] only, the template search returns this page, where the
    search of the specification finds no wildcard template. *)
Lemma resolver_probe_differs_from_discovery :
  resolvePageWithWildcard deepWorld cfg deepRequest "blogs" "en" start
  = (Ok None,
     [EvGetPage ["a"; "b"; "c"] "blogs" "en";
      EvGetPage ["a"; "*"] "blogs" "en";
      EvGetPage ["*"] "blogs" "en";
      EvGetPage ["a"; "b"; "*"] "blogs" "en";
      EvFetch {| req_endpoint := "https://edge.sitecorecloud.io/api/graphql/v1";
                 req_apikey := "ctx-0001";
                 req_query := GET_ITEM_WITH_FIELDS_QUERY;
                 req_path := "/sitecore/content/bcu/target/Home/blog/c";
                 req_language := "en" |};
      EvGetPage ["a"; "*"] "blogs" "en";
      EvGetPage ["*"] "blogs" "en";
      EvGetPage ["a"] "blogs" "en";
      EvGetPage ["a"] "blogs" "en";
      EvGetPage [] "blogs" "en"])
  ∧ fst (probeLoop deepWorld "blogs" "en" (probePaths deepRequest)
           [EvGetPage deepRequest "blogs" "en"])
    = Ok (Some wildcardDoc, "wildcard-id")
  ∧ discoverySpec deepWorld "a" "blogs" "en" [EvGetPage deepRequest "blogs" "en"]
    = (None, [["a"; "*"]; ["*"]; ["a"]])
  ∧ fst (findWildcardPage parentWorld ["a"; "b"] "blogs" "en" start) = Ok (Some sectionDoc)
  ∧ namedByMarker sectionDoc = false
  ∧ discoverySpec parentWorld "a" "blogs" "en" start
    = (None, [["a"; "*"]; ["*"]; ["a"]; ["a"; "*"]]).
Proof. repeat split; vm_compute; reflexivity. Qed.

(** C4 (the code at the failing input).  The Content Client knows the
    root page only; the remote source has the item.  The resolver
    returns the root page overlaid as an ancestor template: route name,
    identifier and Title field are those of the item, but the Title
    component of the placeholder [headless-main] is still bound to the
    root's own title "Home"; the overlay made on a wildcard template
    binds it to "Hello". *)
Lemma root_template_keeps_stale_binding :
  fst (resolvePageWithWildcard rootOnlyWorld cfg request "blogs" "en" start)
    = Ok (Some helloOnRoot)
  ∧ createPageFromTemplate rootDoc hello = Some helloOnRoot
  ∧ routeName helloOnRoot = "Hello"
  ∧ (value <$> routeField helloOnRoot "Title") = Some (Some "Hello")
  ∧ placeholdersOf helloOnRoot
    = Some {[ "headless-main" := [titleRendering "Home"; plainRendering] ]}
  ∧ (∃ p, createPageFromWildcard rootDoc hello = Ok (Some p)
          ∧ placeholdersOf p
            = Some {[ "headless-main" := [titleRendering "Hello"; plainRendering] ]}).
Proof.
  do 5 (split; [vm_compute; reflexivity|]).
  eexists. split; vm_compute; reflexivity.
Qed.

Lemma overlay_keeps_tree_shape_witness :
  overlayWildcard wildcardDoc "Hello" "item-42" "Hello" "" = Ok (Some helloPage)
  ∧ ∃ D'', overlayWildcard wildcardDoc "Hello" "item-42" "Hello" "<p>body</p>"
           = Ok (Some D'')
           ∧ placeholdersOf D'' = placeholdersOf helloPage.
Proof.
  split; [reflexivity|].
  apply (overlay_keeps_tree_shape wildcardDoc "Hello" "item-42" "Hello" "" helloPage).
  reflexivity.
Defined.

(** C5 (the code at the failing input).  The Content Client knows, at
    [blog/*], a wildcard page whose placeholder [headless-main] holds a
    Title rendering and a rendering with [fields: null]; the remote
    source has the item.  The overlay passes the guard on the member
    [fields] and throws a TypeError when it reads [data] of [null]; the
    enrichment catches it, and the resolver returns nothing.  With the
    member [fields] absent from that rendering, everything else being
    the same, the overlay returns the page and leaves the rendering as
    it is, and the resolver returns the page. *)
Lemma null_fields_rendering_throws :
  placeholdersOf nullFieldsDoc
    = Some {[ "headless-main" := [titleRendering "Wildcard"; nullRendering] ]}
  ∧ fields nullRendering = FieldsNull
  ∧ updateRenderingFields (Some (textField "Hello")) None nullRendering = Throw TypeError
  ∧ createPageFromWildcard nullFieldsDoc hello = Throw TypeError
  ∧ fst (queryTargetSiteAndCreatePage nullFieldsWorld cfg request "blogs" "en" start)
    = Ok None
  ∧ fst (resolvePageWithWildcard nullFieldsWorld cfg request "blogs" "en" start) = Ok None
  ∧ updateRenderingFields (Some (textField "Hello")) None absentRendering
    = Ok absentRendering
  ∧ (∃ p, createPageFromWildcard absentFieldsDoc hello = Ok (Some p)
          ∧ fst (resolvePageWithWildcard absentFieldsWorld cfg request "blogs" "en" start)
            = Ok (Some p)
          ∧ routeName p = "Hello"
          ∧ placeholdersOf p
            = Some {[ "headless-main" := [titleRendering "Hello"; absentRendering] ]}).
Proof.
  repeat split; try (vm_compute; reflexivity).
  eexists. split; [vm_compute; reflexivity|].
  repeat split; vm_compute; reflexivity.
Qed.

Lemma emptyWorld_client : clientSilent emptyWorld.
Proof. intros h path s l. reflexivity. Defined.

Lemma emptyWorld_remote : remoteSilent emptyWorld.
Proof. intros h r resp it [= <-] [Hok _]. discriminate Hok. Defined.

Lemma resolve_never_raises_witness :
  clientSilent emptyWorld ∧ remoteSilent emptyWorld
  ∧ fst (resolvePageWithWildcard emptyWorld cfg request "blogs" "en" start) = Ok None.
Proof.
  split; [exact emptyWorld_client|]. split; [exact emptyWorld_remote|].
  destruct (resolve_never_raises emptyWorld cfg request "blogs" "en" start)
    as (r & h' & -> & _ & Hsilent & _).
  simpl. f_equal. apply Hsilent; [exact emptyWorld_client|exact emptyWorld_remote].
Defined.

Lemma enrichment_field_defaults_witness :
  queryTargetSiteAndCreatePage missWorld cfg request "blogs" "en" start
    = (Ok (Some helloPage),
       snd (queryTargetSiteAndCreatePage missWorld cfg request "blogs" "en" start))
  ∧ ∃ it tpl,
      (∃ h1 req resp, global_fetch missWorld h1 req = Some resp ∧ answersWith resp it
                      ∧ req_path req = targetItemPathOf cfg request)
      ∧ fromClient missWorld "blogs" "en" tpl
      ∧ (createPageFromWildcard tpl it = Ok (Some helloPage)
         ∨ createPageFromTemplate tpl it = Some helloPage)
      ∧ (findField isTitleField it = None →
         ∃ f jv, routeField helloPage "Title" = Some f
                 ∧ value f = Some (item_name it)
                 ∧ jsonValue f = Some jv ∧ jv_value jv = Some (item_name it))
      ∧ (findField isContentField it = None
         ∨ (∃ cf, findField isContentField it = Some cf ∧ if_value cf = "") →
         routeField helloPage "Content" = routeField tpl "Content").
Proof.
  split; [reflexivity|].
  apply (enrichment_field_defaults missWorld cfg request "blogs" "en" start helloPage
           (snd (queryTargetSiteAndCreatePage missWorld cfg request "blogs" "en" start))).
  reflexivity.
Defined.

(** The sitemap of the specification's example, literally. *)
Example sitemap_example :
  fst (enhanceSitemapWithWildcardPages missWorld cfg baseSitemap sitemapRequestUrl start)
  = Ok ("<urlset><url>...</url>"
          +:+ nl +:+ "    <url>"
          +:+ nl +:+ "      <loc>https://www.example.com/blogs/en/blog/post-1</loc>"
          +:+ nl +:+ "      <lastmod>2025-01-01T00:00:00.000Z</lastmod>"
          +:+ nl +:+ "      <changefreq>weekly</changefreq>"
          +:+ nl +:+ "      <priority>0.8</priority>"
          +:+ nl +:+ "    </url>"
          +:+ nl +:+ "</urlset>").
Proof. vm_compute. reflexivity. Qed.



End Runs.

(* ===================================================================== *)
(** * Further properties: escaping *)
(* ===================================================================== *)

Section Escaping.

Lemma append_nil_r (a : string) : a +:+ "" = a.
Proof. induction a as [|x a IH]; [done|]. rewrite append_cons. by f_equal. Qed.

Lemma replaceAllChar_append c r (a b : string) :
  JS.replaceAllChar c r (a +:+ b) = JS.replaceAllChar c r a +:+ JS.replaceAllChar c r b.
Proof.
  induction a as [|x a IH]; [done|].
  rewrite append_cons. simpl. by rewrite IH, append_assoc.
Qed.

Lemma escapeXml_append (a b : string) :
  escapeXml (a +:+ b) = escapeXml a +:+ escapeXml b.
Proof. unfold escapeXml. by rewrite !replaceAllChar_append. Qed.

Lemma escapeXml_char (c : ascii) : escapeXml (String c "") = escapeChar c.
Proof.
  unfold escapeChar.
  destruct (Ascii.eqb c "&") eqn:E1; [apply Ascii.eqb_eq in E1; by subst|].
  destruct (Ascii.eqb c "<") eqn:E2; [apply Ascii.eqb_eq in E2; by subst|].
  destruct (Ascii.eqb c ">") eqn:E3; [apply Ascii.eqb_eq in E3; by subst|].
  destruct (Ascii.eqb c dquote) eqn:E4; [apply Ascii.eqb_eq in E4; by subst|].
  destruct (Ascii.eqb c "'") eqn:E5; [apply Ascii.eqb_eq in E5; by subst|].
  unfold escapeXml. simpl. rewrite E1. simpl. rewrite E2. simpl. rewrite E3. simpl.
  rewrite E4. simpl. by rewrite E5.
Qed.

Lemma escapeXml_escapeEach (s : string) : escapeXml s = escapeEach s.
Proof.
  induction s as [|c s IH]; [done|].
  change (String c s) with (String c "" +:+ s).
  rewrite escapeXml_append, escapeXml_char, IH. reflexivity.
Qed.

(** X1.  The five replacements of [escapeXml], made one after the other
    over the whole text, give the text in which every character is
    replaced at once by its entity: an ampersand written by a later pass
    is never escaped again, because ampersands are replaced first. *)
Theorem escapeXml_is_simultaneous (s : string) : escapeXml s = escapeEach s.
Proof. apply escapeXml_escapeEach. Qed.

Lemma wellEscaped_escapeChar c rest :
  wellEscaped (escapeChar c +:+ rest) = wellEscaped rest.
Proof.
  unfold escapeChar.
  destruct (Ascii.eqb c "&") eqn:E1;
    [rewrite !append_cons, append_nil; simpl; by rewrite prefix_nil|].
  destruct (Ascii.eqb c "<") eqn:E2;
    [rewrite !append_cons, append_nil; simpl; by rewrite prefix_nil|].
  destruct (Ascii.eqb c ">") eqn:E3;
    [rewrite !append_cons, append_nil; simpl; by rewrite prefix_nil|].
  destruct (Ascii.eqb c dquote) eqn:E4;
    [rewrite !append_cons, append_nil; simpl; by rewrite prefix_nil|].
  destruct (Ascii.eqb c "'") eqn:E5;
    [rewrite !append_cons, append_nil; simpl; by rewrite prefix_nil, ?orb_true_r|].
  rewrite append_cons, append_nil. simpl. by rewrite E1, E2, E3, E4, E5.
Qed.

Lemma prefix_head_differs (a c : ascii) (p s : string) :
  a ≠ c → String.prefix (String a p) (String c s) = false.
Proof. intros H. simpl. by destruct (ascii_dec a c). Qed.

Lemma unescapeFrom_plain c rest :
  (∀ p, String.prefix (String "&" p) (String c rest) = false) →
  unescapeFrom 0 (String c rest) = String c (unescapeFrom 0 rest).
Proof.
  intros H.
  change (unescapeFrom 0 (String c rest)) with
    (if String.prefix "&amp;" (String c rest) then String "&" (unescapeFrom 4 rest)
     else if String.prefix "&lt;" (String c rest) then String "<" (unescapeFrom 3 rest)
     else if String.prefix "&gt;" (String c rest) then String ">" (unescapeFrom 3 rest)
     else if String.prefix "&quot;" (String c rest) then String dquote (unescapeFrom 5 rest)
     else if String.prefix "&apos;" (String c rest) then String "'" (unescapeFrom 5 rest)
     else String c (unescapeFrom 0 rest)).
  by rewrite !H.
Qed.

Lemma unescape_escapeChar c rest :
  unescapeFrom 0 (escapeChar c +:+ rest) = String c (unescapeFrom 0 rest).
Proof.
  unfold escapeChar.
  destruct (Ascii.eqb c "&") eqn:E1;
    [apply Ascii.eqb_eq in E1; subst; rewrite !append_cons, append_nil; simpl;
     by rewrite prefix_nil|].
  destruct (Ascii.eqb c "<") eqn:E2;
    [apply Ascii.eqb_eq in E2; subst; rewrite !append_cons, append_nil; simpl;
     by rewrite prefix_nil|].
  destruct (Ascii.eqb c ">") eqn:E3;
    [apply Ascii.eqb_eq in E3; subst; rewrite !append_cons, append_nil; simpl;
     by rewrite prefix_nil|].
  destruct (Ascii.eqb c dquote) eqn:E4;
    [apply Ascii.eqb_eq in E4; subst; rewrite !append_cons, append_nil; simpl;
     by rewrite prefix_nil|].
  destruct (Ascii.eqb c "'") eqn:E5;
    [apply Ascii.eqb_eq in E5; subst; rewrite !append_cons, append_nil; simpl;
     by rewrite prefix_nil|].
  rewrite append_cons, append_nil. apply Ascii.eqb_neq in E1.
  rewrite unescapeFrom_plain; [done|]. intros p. apply prefix_head_differs.
  by intros <-.
Qed.

Lemma unescape_escapeEach (s : string) : unescapeFrom 0 (escapeEach s) = s.
Proof.
  induction s as [|c s IH]; [done|]. simpl. by rewrite unescape_escapeChar, IH.
Qed.

Lemma escapeXml_reads_back (s : string) :
  wellEscaped (escapeXml s) = true ∧ unescapeFrom 0 (escapeXml s) = s.
Proof.
  rewrite escapeXml_escapeEach. split; [|apply unescape_escapeEach].
  induction s as [|c s IH]; [done|]. simpl. by rewrite wellEscaped_escapeChar.
Qed.

(** X2.  The text written between [<loc>] and [</loc>] is well formed and
    loses nothing: in the escaped text every ampersand starts one of the
    five entities and none of the characters [<], [>], the double quote
    and the apostrophe occurs; reading the entities back gives the
    original text, so two different texts are never escaped to the same
    text. *)
Theorem escapeXml_well_formed_and_injective (s : string) :
  wellEscaped (escapeXml s) = true
  ∧ unescapeFrom 0 (escapeXml s) = s
  ∧ ∀ s', escapeXml s = escapeXml s' → s = s'.
Proof.
  split; [|split].
  - rewrite escapeXml_escapeEach.
    induction s as [|c s IH]; [done|]. simpl. by rewrite wellEscaped_escapeChar.
  - rewrite escapeXml_escapeEach. apply unescape_escapeEach.
  - intros s' H. rewrite !escapeXml_escapeEach in H.
    rewrite <- (unescape_escapeEach s), <- (unescape_escapeEach s'). by rewrite H.
Qed.

End Escaping.

(* ===================================================================== *)
(** * The block added to the sitemap *)
(* ===================================================================== *)

Section SitemapBlock.

Variable w : World.
Variable cfg : Config.

Lemma freeOf_append c (a b : string) : freeOf c (a +:+ b) = freeOf c a && freeOf c b.
Proof.
  induction a as [|x a IH]; [done|]. rewrite append_cons. cbn [freeOf].
  by rewrite IH, andb_assoc.
Qed.

Lemma freeOf_escapeChar (c : ascii) : freeOf "<" (escapeChar c) = true.
Proof.
  unfold escapeChar.
  destruct (Ascii.eqb c "&"); [done|].
  destruct (Ascii.eqb c "<") eqn:E; [done|].
  destruct (Ascii.eqb c ">"); [done|].
  destruct (Ascii.eqb c dquote); [done|].
  destruct (Ascii.eqb c "'"); [done|].
  cbn [freeOf]. by rewrite Ascii.eqb_sym, E.
Qed.

Lemma freeOf_escapeXml (s : string) : freeOf "<" (escapeXml s) = true.
Proof.
  rewrite escapeXml_escapeEach.
  induction s as [|c s IH]; [done|]. cbn [escapeEach].
  by rewrite freeOf_append, freeOf_escapeChar, IH.
Qed.

(** A text without the first character of [p] holds no beginning of [p]. *)
Lemma occurrences_skip c p (s t : string) :
  freeOf c s = true →
  occurrences (String c p) (s +:+ t) = occurrences (String c p) t.
Proof.
  induction s as [|x s IH]; [done|]. cbn [freeOf].
  intros [Hx Hs]%andb_true_iff. rewrite append_cons.
  change (occurrences (String c p) (String x (s +:+ t)))
    with ((if Ascii.eqb c x && beginsWith p (s +:+ t) then 1 else 0)
          + occurrences (String c p) (s +:+ t))%nat.
  apply negb_true_iff in Hx. rewrite Hx. cbn [andb Nat.add]. by apply IH.
Qed.

Lemma beginsWith_newline p (a b : string) :
  freeOf (ascii_of_nat 10) p = true →
  beginsWith p (a +:+ String (ascii_of_nat 10) b) = beginsWith p a.
Proof.
  revert a. induction p as [|x p IH]; intros a; [by destruct a|].
  cbn [freeOf]. intros [Hx Hp]%andb_true_iff. apply negb_true_iff in Hx.
  destruct a as [|y a].
  - rewrite append_nil. cbn [beginsWith]. by rewrite Ascii.eqb_sym, Hx.
  - rewrite append_cons. cbn [beginsWith]. by rewrite IH.
Qed.

(** No beginning of [p] reaches across a newline that [p] does not
    contain. *)
Lemma occurrences_newline x p (a b : string) :
  freeOf (ascii_of_nat 10) (String x p) = true →
  occurrences (String x p) (a +:+ String (ascii_of_nat 10) b)
  = (occurrences (String x p) a + occurrences (String x p) (String (ascii_of_nat 10) b))%nat.
Proof.
  intros Hp. induction a as [|y a IH]; [done|].
  rewrite append_cons.
  change (occurrences (String x p) (String y (a +:+ String (ascii_of_nat 10) b)))
    with ((if beginsWith (String x p) (String y a +:+ String (ascii_of_nat 10) b)
           then 1 else 0)
          + occurrences (String x p) (a +:+ String (ascii_of_nat 10) b))%nat.
  rewrite beginsWith_newline by done. rewrite IH.
  change (occurrences (String x p) (String y a))
    with ((if beginsWith (String x p) (String y a) then 1 else 0)
          + occurrences (String x p) a)%nat.
  lia.
Qed.

Lemma occurrences_before_nl x p (a b : string) :
  freeOf (ascii_of_nat 10) (String x p) = true →
  occurrences (String x p) (a +:+ nl +:+ b)
  = (occurrences (String x p) a + occurrences (String x p) (nl +:+ b))%nat.
Proof. apply occurrences_newline. Qed.

(** The text of one block, for a location text and a date text without
    the character [<], holds one opening and one closing tag of [url]. *)
Lemma occurrences_block (loc lastmod tail : string) :
  freeOf "<" loc = true → freeOf "<" lastmod = true →
  let block := nl +:+ "    <url>" +:+ nl
                  +:+ "      <loc>" +:+ loc +:+ "</loc>" +:+ nl
                  +:+ "      <lastmod>" +:+ lastmod +:+ "</lastmod>" +:+ nl
                  +:+ "      <changefreq>weekly</changefreq>" +:+ nl
                  +:+ "      <priority>0.8</priority>" +:+ nl
                  +:+ "    </url>" +:+ tail in
  occurrences "<url>" block = S (occurrences "<url>" tail)
  ∧ occurrences "</url>" block = S (occurrences "</url>" tail).
Proof.
  intros Hloc Hmod. cbv zeta. split.
  - assert (H1 : ∀ t, occurrences "<url>" (nl +:+ "    <url>" +:+ nl +:+ "      <loc>" +:+ t)
                      = S (occurrences "<url>" t)) by (intros t; reflexivity).
    assert (H2 : ∀ t, occurrences "<url>" ("</loc>" +:+ nl +:+ "      <lastmod>" +:+ t)
                      = occurrences "<url>" t) by (intros t; reflexivity).
    assert (H3 : ∀ t, occurrences "<url>"
                        ("</lastmod>" +:+ nl
                         +:+ "      <changefreq>weekly</changefreq>" +:+ nl
                         +:+ "      <priority>0.8</priority>" +:+ nl
                         +:+ "    </url>" +:+ t)
                      = occurrences "<url>" t) by (intros t; reflexivity).
    rewrite H1, (occurrences_skip "<" "url>" loc) by done.
    rewrite H2, (occurrences_skip "<" "url>" lastmod) by done.
    by rewrite H3.
  - assert (H1 : ∀ t, occurrences "</url>" (nl +:+ "    <url>" +:+ nl +:+ "      <loc>" +:+ t)
                      = occurrences "</url>" t) by (intros t; reflexivity).
    assert (H2 : ∀ t, occurrences "</url>" ("</loc>" +:+ nl +:+ "      <lastmod>" +:+ t)
                      = occurrences "</url>" t) by (intros t; reflexivity).
    assert (H3 : ∀ t, occurrences "</url>"
                        ("</lastmod>" +:+ nl
                         +:+ "      <changefreq>weekly</changefreq>" +:+ nl
                         +:+ "      <priority>0.8</priority>" +:+ nl
                         +:+ "    </url>" +:+ t)
                      = S (occurrences "</url>" t)) by (intros t; reflexivity).
    rewrite H1, (occurrences_skip "<" "/url>" loc) by done.
    rewrite H2, (occurrences_skip "<" "/url>" lastmod) by done.
    by rewrite H3.
Qed.

(** C8.  With a configured remote target and default site, a wildcard
    prefix [prefix] and exactly one remote child, the synthesized
    sitemap is the base sitemap with one block added.  The block is a
    newline and the element [url], with the members [loc], [lastmod],
    [changefreq] (weekly) and [priority] (0.8), one per line; the text
    of [loc] is well escaped and reads back as the address of the child:
    the origin of the request, the default site, the locale [en], the
    prefix and the name of the child.  When the date text holds no [<],
    the block holds exactly one opening tag and one closing tag of
    [url].  When the base sitemap holds the closing tag of the set, the
    output is the text before its first occurrence and the text after
    it, both carried over byte for byte, then the block, a newline and
    the closing tag: the block stands before [</urlset>], and the output
    holds one opening and one closing tag of [url] more than the text
    carried over.  When the base sitemap has no closing tag, the block
    is appended at its end. *)
Theorem sitemap_gains_one_entry xml requestUrl h prefix child h1 h2 protocol host :
  JS.truthy (SITECORE_TARGET_SITE_NAME cfg) = true →
  JS.truthy (SITECORE_TARGET_SITE_PATH cfg) = true →
  JS.truthy (sitemapDefaultSite cfg) = true →
  getWildcardPathPrefix w cfg (sitemapDefaultSite cfg) "en" h = (Ok prefix, h1) →
  getTargetSiteChildren w cfg "en" h1 = (Ok [child], h2) →
  url_parse w requestUrl = Some (protocol, host) →
  ∃ out loc,
    enhanceSitemapWithWildcardPages w cfg xml requestUrl h = (Ok out, h2 ++ [EvNow])
    ∧ let lastmod := date_now w h2 in
      let block := nl +:+ "    <url>" +:+ nl
                      +:+ "      <loc>" +:+ loc +:+ "</loc>" +:+ nl
                      +:+ "      <lastmod>" +:+ lastmod +:+ "</lastmod>" +:+ nl
                      +:+ "      <changefreq>weekly</changefreq>" +:+ nl
                      +:+ "      <priority>0.8</priority>" +:+ nl
                      +:+ "    </url>" in
      wellEscaped loc = true
      ∧ unescapeFrom 0 loc
        = (protocol +:+ "//" +:+ host) +:+ "/"
          +:+ JS.join "/" ([sitemapDefaultSite cfg; "en"] ++ prefix ++ [child_name child])
      ∧ (freeOf "<" lastmod = true →
         occurrences "<url>" block = 1%nat ∧ occurrences "</url>" block = 1%nat)
      ∧ (JS.includes xml closingTag = true →
         ∃ pre post,
           xml = pre +:+ closingTag +:+ post
           ∧ JS.includes pre closingTag = false
           ∧ out = pre +:+ post +:+ block +:+ nl +:+ closingTag
           ∧ (freeOf "<" lastmod = true →
              occurrences "<url>" out = S (occurrences "<url>" (pre +:+ post))
              ∧ occurrences "</url>" out = S (occurrences "</url>" (pre +:+ post))))
      ∧ (JS.includes xml closingTag = false → out = xml +:+ block).
Proof.
  intros Hn Hp Hs Hprefix Hchildren Hurl.
  destruct (single_child_run w cfg xml requestUrl h prefix child h1 h2 protocol host
              Hn Hp Hs Hprefix Hchildren Hurl)
    as (out & entry & Hrun & -> & Hins & Happ).
  set (url := childUrl (protocol +:+ "//" +:+ host) (sitemapDefaultSite cfg) "en"
                prefix child) in *.
  exists out, (escapeXml url). split; [exact Hrun|]. cbv zeta.
  pose proof (escapeXml_reads_back url) as (Hwell & Hback).
  pose proof (freeOf_escapeXml url) as Hfree.
  split; [exact Hwell|]. split; [exact Hback|]. split; [|split].
  - intros Hmod.
    destruct (occurrences_block (escapeXml url) (date_now w h2) "" Hfree Hmod) as [H1 H2].
    cbv zeta in H1, H2. rewrite !append_nil_r in H1, H2. by split.
  - intros Hinc. destruct (Hins Hinc) as (pre & post & Hx & Hpre & Hout).
    exists pre, post. split; [done|]. split; [done|]. split; [exact Hout|].
    intros Hmod. rewrite Hout. unfold urlEntry.
    destruct (occurrences_block (escapeXml url) (date_now w h2) (nl +:+ closingTag)
                Hfree Hmod) as [H1 H2].
    cbv zeta in H1, H2.
    rewrite !append_assoc, <- (append_assoc pre post).
    rewrite !occurrences_before_nl by reflexivity. rewrite H1, H2.
    change (occurrences "<url>" (nl +:+ closingTag)) with 0%nat.
    change (occurrences "</url>" (nl +:+ closingTag)) with 0%nat.
    split; lia.
  - exact Happ.
Qed.

End SitemapBlock.

(* ===================================================================== *)
(** * Further properties: the path sanitizer and the first tiers *)
(* ===================================================================== *)

Section Sanitizer.

Lemma includes_unfold (s p : string) :
  JS.includes s p
  = if String.prefix p s then true
    else match s with
         | EmptyString => false
         | String _ s' => JS.includes s' p
         end.
Proof. by destruct s. Qed.

Lemma includes_of_prefix (s p : string) :
  String.prefix p s = true → JS.includes s p = true.
Proof. intros H. by rewrite includes_unfold, H. Qed.

Lemma prefix_cons (a c : ascii) (p s : string) :
  String.prefix (String a p) (String c s)
  = if ascii_dec a c then String.prefix p s else false.
Proof. reflexivity. Qed.

Lemma wellknown_has_dot (s : string) :
  JS.startsWith s ".well-known" = true → JS.includes s "." = true.
Proof.
  unfold JS.startsWith. intros H. apply includes_of_prefix.
  destruct s as [|c s]; [done|]. rewrite prefix_cons in H |- *.
  destruct (ascii_dec "." c); [apply prefix_nil|done].
Qed.

(** The tests of [cleanedPath] that matter: two of the six follow from
    the absence of a dot. *)
Lemma cleanSegment_short (s : string) :
  cleanSegment s
  = JS.truthy s && negb (JS.includes s ".")
    && negb (JS.includes s "devtools") && negb (JS.includes s "chrome").
Proof.
  unfold cleanSegment.
  destruct (JS.truthy s); [|done]. simpl.
  destruct (JS.includes s ".") eqn:Hdot; [done|]. simpl.
  destruct (JS.startsWith s ".well-known") eqn:Hw.
  { apply wellknown_has_dot in Hw. congruence. }
  destruct (String.eqb s "com.chrome.devtools.json") eqn:Hc; [|done].
  apply String.eqb_eq in Hc. subst. discriminate Hdot.
Qed.

Lemma validSegment_short (s : string) :
  validSegment s = JS.truthy s && negb (JS.includes s ".").
Proof.
  unfold validSegment.
  destruct (JS.truthy s); [|done]. simpl.
  destruct (JS.includes s ".") eqn:Hdot; [done|]. simpl.
  destruct (JS.startsWith s ".well-known") eqn:Hw.
  { apply wellknown_has_dot in Hw. congruence. }
  destruct (String.eqb s "com.chrome.devtools.json") eqn:Hc; [|done].
  apply String.eqb_eq in Hc. subst. discriminate Hdot.
Qed.

Lemma cleanSegment_valid (s : string) : cleanSegment s = true → validSegment s = true.
Proof.
  rewrite cleanSegment_short, validSegment_short.
  destruct (JS.truthy s), (JS.includes s "."); simpl; done.
Qed.

Lemma filter_all {A} (f : A → bool) (l : list A) :
  Forall (fun x => f x = true) l → List.filter f l = l.
Proof. induction 1 as [|x l Hx _ IH]; simpl; [done|]. by rewrite Hx, IH. Qed.

Lemma cleanPath_Forall (path : list string) :
  Forall (fun s => cleanSegment s = true) (cleanPath path).
Proof.
  unfold cleanPath. induction path as [|s path IH]; simpl; [constructor|].
  destruct (cleanSegment s) eqn:E; [by constructor|done].
Qed.

Lemma valid_cleanPath (path : list string) :
  List.filter validSegment (cleanPath path) = cleanPath path.
Proof.
  apply filter_all. eapply Forall_impl; [apply cleanPath_Forall|].
  apply cleanSegment_valid.
Qed.

Lemma system_segments (path : list string) (site locale : string) :
  isSystemRequest path site locale = false →
  Forall (fun s => JS.includes s "devtools" = false ∧ JS.includes s "chrome" = false) path.
Proof.
  unfold isSystemRequest. intros H.
  apply orb_false_iff in H as [_ H].
  induction path as [|s path IH]; [constructor|]. simpl in H.
  apply orb_false_iff in H as [Hs H].
  apply orb_false_iff in Hs as [Hs _]. apply orb_false_iff in Hs as [Hd Hc].
  constructor; [done|by apply IH].
Qed.

(** X3.  The cleaned path keeps the order of the request and only drops
    segments; each segment it keeps is non-empty and contains no dot, no
    "devtools" and no "chrome"; cleaning a cleaned path changes nothing;
    and for a request that is not rejected as a system request, cleaning
    drops exactly the empty segments and the segments with a dot. *)
Theorem cleanPath_drops_empty_and_dotted (path : list string) (site locale : string) :
  sublist (cleanPath path) path
  ∧ Forall (fun s => s ≠ "" ∧ JS.includes s "." = false
                     ∧ JS.includes s "devtools" = false
                     ∧ JS.includes s "chrome" = false) (cleanPath path)
  ∧ cleanPath (cleanPath path) = cleanPath path
  ∧ (isSystemRequest path site locale = false →
     cleanPath path
     = List.filter (fun s => JS.truthy s && negb (JS.includes s ".")) path).
Proof.
  split; [|split; [|split]].
  - unfold cleanPath. induction path as [|s path IH]; simpl; [constructor|].
    destruct (cleanSegment s); by constructor.
  - eapply Forall_impl; [apply cleanPath_Forall|]. intros s. simpl.
    rewrite cleanSegment_short. unfold JS.truthy.
    destruct (String.eqb s "") eqn:E; [done|]. apply String.eqb_neq in E.
    destruct (JS.includes s "."), (JS.includes s "devtools"), (JS.includes s "chrome");
      simpl; done.
  - apply filter_all, cleanPath_Forall.
  - intros H. apply system_segments in H. unfold cleanPath.
    induction H as [|s path [Hd Hc] _ IH]; simpl; [done|].
    rewrite cleanSegment_short, Hd, Hc, IH. simpl. by rewrite !andb_true_r.
Qed.

Lemma requestedItemName_last (l : list string) (x : string) :
  requestedItemName (l ++ [x]) = x.
Proof.
  destruct l as [|a l]; [done|].
  unfold requestedItemName, JS.lastElem.
  rewrite List.map_app. change (List.map Some [x]) with [Some x].
  rewrite List.last_last. simpl. rewrite length_app. simpl.
  by replace (length l + 1)%nat with (S (length l)) by lia.
Qed.

(** X4.  The name asked for in the remote source is the last segment of
    the cleaned path: when the cleaned path ends with [segment], the
    remote lookup path is the configured base path, a slash and
    [segment], the second filter of the path having nothing left to
    remove. *)
Theorem remote_path_is_last_clean_segment (cfg : Config) (path front : list string)
    (segment : string) :
  cleanPath path = front ++ [segment] →
  List.filter validSegment (cleanPath path) = cleanPath path
  ∧ targetItemPathOf cfg (cleanPath path)
    = SITECORE_TARGET_SITE_PATH cfg +:+ "/" +:+ segment.
Proof.
  intros H. split; [apply valid_cleanPath|].
  unfold targetItemPathOf. rewrite valid_cleanPath, H, requestedItemName_last. done.
Qed.

End Sanitizer.

Section FirstTiers.

Variable w : World.
Variable cfg : Config.

Lemma resolve_run_of_body path site locale h r h' :
  resolveBody w cfg path site locale h = (Ok r, h') →
  resolvePageWithWildcard w cfg path site locale h = (Ok r, h').
Proof. intros H. unfold resolvePageWithWildcard, try_catch. by rewrite H. Qed.

(** X5.  A request for the site ".well-known" or the locale "appspecific",
    or with a segment that contains "devtools", "chrome" or ".well-known",
    is answered with nothing before any lookup: no call of the Content
    Client and no remote call is made. *)
Theorem system_request_makes_no_call (path : list string) (site locale : string) h :
  site = ".well-known" ∨ locale = "appspecific"
  ∨ (∃ segment, In segment path
                ∧ (JS.includes segment "devtools" = true
                   ∨ JS.includes segment "chrome" = true
                   ∨ JS.includes segment ".well-known" = true)) →
  resolvePageWithWildcard w cfg path site locale h = (Ok None, h).
Proof.
  intros H. apply resolve_run_of_body. unfold resolveBody.
  assert (E : isSystemRequest path site locale = true); [|by rewrite E].
  unfold isSystemRequest. destruct H as [->|[->|(s & Hin & Hs)]].
  - done.
  - by rewrite orb_true_r.
  - apply orb_true_iff. right. apply existsb_exists. exists s. split; [done|].
    destruct Hs as [-> | [-> | ->]]; by rewrite ?orb_true_r.
Qed.

(** X6.  A request that is not a system request and whose segments are
    all dropped by the cleaning (no segment at all, or only empty and
    dotted ones) is answered with the root document: one call of the
    Content Client, for the empty path and the normalized locale, whose
    answer is returned as it is, also when it is named by the wildcard
    marker; an error of the client gives nothing. *)
Theorem empty_path_is_the_root (path : list string) (site locale : string) h :
  isSystemRequest path site locale = false →
  cleanPath path = [] →
  resolvePageWithWildcard w cfg path site locale h
  = (Ok (clientAnswer w h [] site (normalizeLocale locale)),
     h ++ [EvGetPage [] site (normalizeLocale locale)]).
Proof.
  intros Hs Hc. unfold resolvePageWithWildcard, resolveBody, try_catch.
  rewrite Hs, Hc, getPage_run. unfold clientAnswer.
  by destruct (client_getPage w h [] site (normalizeLocale locale)).
Qed.

(** X7.  When the direct lookup of a non-empty cleaned path answers with a
    document that is not named by the wildcard marker, the resolver
    returns this document unchanged after this one call. *)
Theorem direct_hit_is_returned (path : list string) (site locale : string) h pg :
  isSystemRequest path site locale = false →
  cleanPath path ≠ [] →
  client_getPage w h (cleanPath path) site (normalizeLocale locale) = Ok (Some pg) →
  routeName pg ≠ "*" →
  resolvePageWithWildcard w cfg path site locale h
  = (Ok (Some pg), h ++ [EvGetPage (cleanPath path) site (normalizeLocale locale)]).
Proof.
  intros Hs Hc Hpg Hname. apply resolve_run_of_body. unfold resolveBody.
  rewrite Hs. destruct (cleanPath path) as [|p0 rest] eqn:E; [done|].
  rewrite <- E in *. unfold bind. rewrite getPage_run, Hpg.
  apply String.eqb_neq in Hname. by rewrite Hname.
Qed.

Lemma queryTarget_total path site locale h :
  ∃ o h', queryTargetSiteAndCreatePage w cfg path site locale h = (Ok o, h').
Proof. unfold queryTargetSiteAndCreatePage. apply try_catch_total. Qed.

(** X8.  When the direct lookup of a non-empty cleaned path answers with
    nothing, the documents found by the probe of Step 2 decide nothing:
    if the probe ends without an error, the resolver returns what the
    remote enrichment returns when it is started after the probe, if the
    remote target is configured, and nothing if it is not; if a call of
    the probe throws, the resolver returns nothing. *)
Theorem missing_page_goes_to_enrichment (path : list string) (site locale : string) h :
  isSystemRequest path site locale = false →
  cleanPath path ≠ [] →
  client_getPage w h (cleanPath path) site (normalizeLocale locale) = Ok None →
  let loc := normalizeLocale locale in
  let h1 := h ++ [EvGetPage (cleanPath path) site loc] in
  match probeLoop w site loc (probePaths (cleanPath path)) h1 with
  | (Ok _, h2) =>
      resolvePageWithWildcard w cfg path site locale h
      = if targetConfigured cfg
        then queryTargetSiteAndCreatePage w cfg (cleanPath path) site loc h2
        else (Ok None, h2)
  | (Throw _, h2) =>
      resolvePageWithWildcard w cfg path site locale h = (Ok None, h2)
  end.
Proof.
  intros Hs Hc Hd. cbv zeta.
  assert (Hg : getPage w (cleanPath path) site (normalizeLocale locale) h
               = (Ok None, h ++ [EvGetPage (cleanPath path) site (normalizeLocale locale)]))
    by (by rewrite getPage_run, Hd).
  unfold resolvePageWithWildcard, resolveBody, try_catch. rewrite Hs.
  destruct (cleanPath path) as [|p0 rest] eqn:E; [done|]. rewrite <- E in *.
  rewrite (bind_Ok _ _ _ _ _ Hg), resolveMissing_probe_unused.
  destruct (probeLoop w site (normalizeLocale locale) (probePaths (cleanPath path))
              (h ++ [EvGetPage (cleanPath path) site (normalizeLocale locale)]))
    as [[probe|e] h2] eqn:Hp.
  - rewrite (bind_Ok _ _ _ _ _ Hp).
    destruct (targetConfigured cfg); [|done].
    destruct (queryTarget_total (cleanPath path) site (normalizeLocale locale) h2)
      as (o & h3 & ->). done.
  - by rewrite (bind_Throw _ _ _ _ _ Hp).
Qed.

End FirstTiers.

(* ===================================================================== *)
(** * Further properties: the calls that are made *)
(* ===================================================================== *)

Section Budget.

Variable w : World.
Variable cfg : Config.

Implicit Types (P : HttpRequest → Prop) (g f : nat).

Lemma countGetPage_app (a b : list event) :
  countGetPage (a ++ b) = (countGetPage a + countGetPage b)%nat.
Proof. unfold countGetPage. by rewrite List.filter_app, length_app. Qed.

Lemma countFetch_app (a b : list event) :
  countFetch (a ++ b) = (countFetch a + countFetch b)%nat.
Proof. unfold countFetch. by rewrite List.filter_app, length_app. Qed.

Lemma withinBudget_nil g f P : withinBudget g f P [].
Proof.
  unfold withinBudget, countGetPage, countFetch. simpl.
  split; [lia|]. split; [lia|]. by intros e [].
Qed.

Lemma withinBudget_app g1 f1 g2 f2 g f P (a b : list event) :
  withinBudget g1 f1 P a → withinBudget g2 f2 P b →
  (g1 + g2 ≤ g)%nat → (f1 + f2 ≤ f)%nat →
  withinBudget g f P (a ++ b).
Proof.
  intros (Ha1 & Ha2 & Ha3) (Hb1 & Hb2 & Hb3) Hg Hf.
  split; [|split].
  - rewrite countGetPage_app. lia.
  - rewrite countFetch_app. lia.
  - intros e [He|He]%in_app_or; [by apply Ha3|by apply Hb3].
Qed.

Lemma withinBudget_weaken g f g' f' P P' (a : list event) :
  withinBudget g f P a → (g ≤ g')%nat → (f ≤ f')%nat → (∀ r, P r → P' r) →
  withinBudget g' f' P' a.
Proof.
  intros (H1 & H2 & H3) Hg Hf HP. split; [lia|]. split; [lia|].
  intros e He. specialize (H3 e He). destruct e; auto.
Qed.

Lemma emits_ret {A} (a : A) g f P : emits (ret a) (withinBudget g f P).
Proof.
  intros h r h' [= <- <-]. exists []. rewrite app_nil_r.
  split; [done|]. eapply withinBudget_weaken; [apply (withinBudget_nil 0 0 P)|lia|lia|auto].
Qed.

Lemma emits_lift {A} (a : result A) g f P : emits (lift a) (withinBudget g f P).
Proof.
  intros h r h' [= <- <-]. exists []. rewrite app_nil_r.
  split; [done|]. eapply withinBudget_weaken; [apply (withinBudget_nil 0 0 P)|lia|lia|auto].
Qed.

Lemma emits_throw {A} (e : exn) g f P : emits (@throw A e) (withinBudget g f P).
Proof.
  intros h r h' [= <- <-]. exists []. rewrite app_nil_r.
  split; [done|]. eapply withinBudget_weaken; [apply (withinBudget_nil 0 0 P)|lia|lia|auto].
Qed.

Lemma emits_getPage path site locale g f P :
  (1 ≤ g)%nat → emits (getPage w path site locale) (withinBudget g f P).
Proof.
  intros Hg h r h'. rewrite getPage_run. intros [= <- <-]. eexists. split; [done|].
  unfold withinBudget, countGetPage, countFetch. simpl.
  split; [done|]. split; [lia|]. by intros e [<-|[]].
Qed.

Lemma emits_bind {A B} (m : M A) (k : A → M B) g1 f1 g2 f2 g f P :
  emits m (withinBudget g1 f1 P) →
  (∀ a, emits (k a) (withinBudget g2 f2 P)) →
  (g1 + g2 ≤ g)%nat → (f1 + f2 ≤ f)%nat →
  emits (bind m k) (withinBudget g f P).
Proof.
  intros Hm Hk Hg Hf h r h' H.
  apply bind_inv in H as [(a & h1 & H1 & H2)|(e & H1 & _)].
  - apply Hm in H1 as (e1 & -> & B1). apply Hk in H2 as (e2 & -> & B2).
    exists (e1 ++ e2). rewrite app_assoc. split; [done|].
    by apply (withinBudget_app g1 f1 g2 f2).
  - apply Hm in H1 as (e1 & -> & B1). exists e1. split; [done|].
    eapply withinBudget_weaken; [exact B1|lia|lia|auto].
Qed.

Lemma emits_try {A} (m : M A) (hd : exn → M A) g1 f1 g2 f2 g f P :
  emits m (withinBudget g1 f1 P) →
  (∀ e, emits (hd e) (withinBudget g2 f2 P)) →
  (g1 + g2 ≤ g)%nat → (f1 + f2 ≤ f)%nat →
  emits (try_catch m hd) (withinBudget g f P).
Proof.
  intros Hm Hk Hg Hf h r h' H.
  apply try_catch_inv in H as [(a & H1 & _)|(e & h1 & H1 & H2)].
  - apply Hm in H1 as (e1 & -> & B1). exists e1. split; [done|].
    eapply withinBudget_weaken; [exact B1|lia|lia|auto].
  - apply Hm in H1 as (e1 & -> & B1). apply Hk in H2 as (e2 & -> & B2).
    exists (e1 ++ e2). rewrite app_assoc. split; [done|].
    by apply (withinBudget_app g1 f1 g2 f2).
Qed.

Lemma emits_weaken {A} (m : M A) g f g' f' P P' :
  emits m (withinBudget g f P) → (g ≤ g')%nat → (f ≤ f')%nat → (∀ r, P r → P' r) →
  emits m (withinBudget g' f' P').
Proof.
  intros Hm Hg Hf HP h r h' H. apply Hm in H as (e & -> & B).
  exists e. split; [done|]. by apply (withinBudget_weaken g f g' f' P).
Qed.

Lemma emits_makeGraphQLRequest base q path lang key g f P :
  (1 ≤ f)%nat → (∀ r, requestOf cfg base q path lang key r → P r) →
  emits (makeGraphQLRequest w cfg base q path lang key) (withinBudget g f P).
Proof.
  intros Hf HP h r h'. unfold makeGraphQLRequest.
  destruct (negb (JS.truthy (JS.or (SITECORE_GRAPHQL_API_KEY cfg) key))).
  { apply emits_throw. }
  unfold bind, fetch.
  match goal with
  | |- context [global_fetch w h ?req] =>
      assert (Hreq : requestOf cfg base q path lang key req) by (by repeat split);
      set (rq := req) in *
  end.
  intros H. exists [EvFetch rq]. split.
  - destruct (global_fetch w h rq) as [resp|]; [|by inversion H].
    destruct (negb (resp_ok resp)); [by inversion H|].
    destruct (resp_json resp) as [res|]; [|by inversion H].
    destruct (res_errors res); by inversion H.
  - unfold withinBudget, countGetPage, countFetch. simpl.
    split; [lia|]. split; [done|]. intros e [<-|[]]. auto.
Qed.

Lemma truthy_true (s : string) : JS.truthy s = true ↔ s ≠ "".
Proof.
  unfold JS.truthy. rewrite negb_true_iff. split.
  - by intros H ->.
  - intros H. by apply String.eqb_neq.
Qed.

Lemma truthy_or (a b : string) : JS.truthy b = true → JS.truthy (JS.or a b) = true.
Proof. unfold JS.or. by destruct (JS.truthy a) eqn:E. Qed.

(** A remote request with a key: what is sent and when it succeeds. *)
Lemma makeGraphQLRequest_sent base q path lang key h :
  JS.truthy (JS.or (SITECORE_GRAPHQL_API_KEY cfg) key) = true →
  let run := makeGraphQLRequest w cfg base q path lang key h in
  let req := {| req_endpoint := graphQLEndpointOf base;
                req_apikey := JS.or (SITECORE_GRAPHQL_API_KEY cfg) key;
                req_query := q; req_path := path; req_language := lang |} in
  snd run = h ++ [EvFetch req]
  ∧ ∀ d, fst run = Ok d ↔
         ∃ resp res, global_fetch w h req = Some resp ∧ resp_ok resp = true
                     ∧ resp_json resp = Some res ∧ res_errors res = None
                     ∧ res_data res = d.
Proof.
  intros Hk. cbv zeta. unfold makeGraphQLRequest, graphQLEndpointOf. cbv zeta.
  rewrite Hk. cbn [negb]. unfold bind, fetch.
  match goal with
  | |- context [global_fetch w h ?r] => set (req := r)
  end.
  split.
  - destruct (global_fetch w h req) as [resp|]; [|done].
    destruct (negb (resp_ok resp)); [done|].
    destruct (resp_json resp) as [res|]; [|done].
    by destruct (res_errors res).
  - intros d. destruct (global_fetch w h req) as [resp|].
    2:{ split; [done|]. by intros (? & ? & [=] & _). }
    destruct (resp_ok resp) eqn:Eok; cbn [negb].
    2:{ split; [done|]. intros (? & ? & [= <-] & Hok & _). congruence. }
    destruct (resp_json resp) as [res|] eqn:Ej.
    2:{ split; [done|]. intros (? & ? & [= <-] & _ & Hj & _). congruence. }
    destruct (res_errors res) eqn:Ee.
    { split; [done|]. intros (? & ? & [= <-] & _ & Hj & He & _). congruence. }
    split.
    + intros [= <-]. by exists resp, res.
    + intros (? & ? & [= <-] & _ & Hj & _ & <-). simpl. congruence.
Qed.

End Budget.

Section ResolverBudget.

Variable w : World.
Variable cfg : Config.

Implicit Types (P : HttpRequest → Prop) (g f : nat).

Lemma emits_responseItem d g f P : emits (responseItem d) (withinBudget g f P).
Proof. destruct d; [apply emits_ret|apply emits_throw]. Qed.

Lemma emits_remoteLookup {A} base q path lang key (k : option RemoteItem → M A) g f P :
  (∀ r, requestOf cfg base q path lang key r → P r) →
  (∀ item, emits (k item) (withinBudget g f P)) →
  emits (bind (makeGraphQLRequest w cfg base q path lang key)
           (fun response => bind (responseItem response) k))
    (withinBudget g (S f) P).
Proof.
  intros HP Hk. apply (emits_bind _ _ 0 1 g f); [|intros d|lia|lia].
  - apply emits_makeGraphQLRequest; [lia|done].
  - apply (emits_bind _ _ 0 0 g f); [apply emits_responseItem|done|lia|lia].
Qed.

Lemma emits_templateLoopBody site loc wp0 wildcardPath g f P :
  (2 ≤ g)%nat →
  emits (templateLoopBody w site loc wp0 wildcardPath) (withinBudget g f P).
Proof.
  intros Hg. unfold templateLoopBody.
  apply (emits_try _ _ 2 0 0 0); [|intros; apply emits_ret|lia|lia].
  apply (emits_bind _ _ 1 0 1 0); [by apply emits_getPage| |lia|lia].
  intros [page|]; [|apply emits_ret]. cbv zeta.
  destruct (_ || _ || _); [apply emits_ret|].
  destruct (_ && _); [|apply emits_ret].
  apply (emits_try _ _ 1 0 0 0); [|intros; apply emits_ret|lia|lia].
  apply (emits_bind _ _ 1 0 0 0); [by apply emits_getPage| |lia|lia].
  intros [child|]; [|apply emits_ret]. destruct (String.eqb _ _); apply emits_ret.
Qed.

Lemma emits_ancestorTemplate path site loc it g f P :
  (2 ≤ g)%nat →
  emits (ancestorTemplate w path site loc it) (withinBudget g f P).
Proof.
  intros Hg. unfold ancestorTemplate. cbv zeta.
  apply (emits_bind _ _ 1 0 1 0); [by apply emits_getPage| |lia|lia].
  intros [parent|]; [apply emits_ret|].
  apply (emits_bind _ _ 1 0 0 0); [by apply emits_getPage| |lia|lia].
  intros [root|]; apply emits_ret.
Qed.

(** The template search for a non-empty path: at most four calls, and
    three when it finds nothing. *)
Lemma findWildcardPage_calls p0 rest site loc h r h' P :
  findWildcardPage w (p0 :: rest) site loc h = (r, h') →
  ∃ evs, h' = h ++ evs
         ∧ withinBudget 4 0 P evs
         ∧ (r = Ok None → withinBudget 3 0 P evs).
Proof.
  assert (B : ∀ evs, Forall (fun e => isGetPageB e = true) evs →
                     ∀ n, (length evs ≤ n)%nat → withinBudget n 0 P evs).
  { intros evs Hall n Hn. unfold withinBudget, countGetPage, countFetch.
    split; [|split].
    - etransitivity; [apply List.filter_length_le|done].
    - induction Hall as [|e evs He _ IH]; simpl; [lia|].
      destruct e; try discriminate. simpl in *. apply IH. lia.
    - intros e He. rewrite Forall_forall in Hall.
      apply list_elem_of_In, Hall in He. by destruct e. }
  unfold findWildcardPage, templatePaths.
  rewrite templateLoop_cons, templateLoopBody_marker by apply arrayIncludes_pair.
  cbn [fst snd].
  destruct (clientAnswer w h [p0; "*"] site loc) as [d1|].
  { rewrite bool_decide_eq_true_2 by done. intros [= <- <-].
    eexists. split; [done|]. split; [|done]. apply B; [repeat constructor|simpl; lia]. }
  rewrite bool_decide_eq_false_2 by (intros H; by apply H).
  rewrite templateLoop_cons, templateLoopBody_marker by apply arrayIncludes_marker.
  cbn [fst snd].
  destruct (clientAnswer w _ ["*"] site loc) as [d2|].
  { rewrite bool_decide_eq_true_2 by done. intros [= <- <-]. rewrite <- app_assoc.
    eexists. split; [done|]. split; [|done]. apply B; [repeat constructor|simpl; lia]. }
  rewrite bool_decide_eq_false_2 by (intros H; by apply H).
  rewrite templateLoop_cons, templateLoopBody_parent. cbv zeta.
  destruct (clientAnswer w _ [p0] site loc) as [d3|].
  2:{ intros [= <- <-]. rewrite <- !app_assoc.
      eexists. split; [done|]. split; intros; apply B; try repeat constructor; simpl; lia. }
  destruct (String.eqb (routeName d3) "*" || String.eqb p0 "*").
  { intros [= <- <-]. rewrite <- !app_assoc.
    eexists. split; [done|]. split; [|done]. apply B; [repeat constructor|simpl; lia]. }
  destruct (clientAnswer w _ [p0; "*"] site loc) as [ch|];
    [destruct (String.eqb (routeName ch) "*")|];
    intros [= <- <-]; rewrite <- !app_assoc;
    (eexists; split; [done|]; split; [|done]; apply B; [repeat constructor|simpl; lia]).
Qed.

Lemma emits_templateThenAncestor p0 rest site loc it P :
  emits (bind (findWildcardPage w (p0 :: rest) site loc)
           (fun wildcardPage =>
              match wildcardPage with
              | Some wp => lift (createPageFromWildcard wp it)
              | None => ancestorTemplate w (p0 :: rest) site loc it
              end))
    (withinBudget 5 0 P).
Proof.
  intros h r h' H. apply bind_inv in H as [(wp & h1 & H1 & H2)|(e & H1 & _)].
  - apply (findWildcardPage_calls _ _ _ _ _ _ _ P) in H1 as (e1 & -> & B4 & B3).
    destruct wp as [wp|].
    + inversion H2; subst. exists e1. split; [done|].
      eapply withinBudget_weaken; [exact B4|lia|lia|auto].
    + apply (emits_ancestorTemplate _ _ _ _ 2 0 P) in H2 as (e2 & -> & B2); [|lia].
      exists (e1 ++ e2). rewrite app_assoc. split; [done|].
      apply (withinBudget_app 3 0 2 0); auto.
  - apply (findWildcardPage_calls _ _ _ _ _ _ _ P) in H1 as (e1 & -> & B4 & _).
    exists e1. split; [done|]. eapply withinBudget_weaken; [exact B4|lia|lia|auto].
Qed.

Lemma normalizeLocale_language locale :
  (if JS.truthy (normalizeLocale locale)
      && negb (String.eqb (normalizeLocale locale) "appspecific")
   then normalizeLocale locale else "en") = normalizeLocale locale.
Proof.
  unfold normalizeLocale.
  destruct (JS.truthy locale) eqn:E1; [|done]. simpl.
  destruct (String.eqb locale "appspecific") eqn:E2; [done|]. simpl.
  destruct (String.eqb locale "undefined") eqn:E3; [done|]. simpl.
  by rewrite E1, E2.
Qed.

(** The request for the item of a path. *)
Lemma emits_queryTarget p0 rest site locale P :
  (∀ r, requestOf cfg (edgeUrl cfg) GET_ITEM_WITH_FIELDS_QUERY
          (targetItemPathOf cfg (p0 :: rest)) (normalizeLocale locale) (contextId cfg) r →
        P r) →
  emits (queryTargetSiteAndCreatePage w cfg (p0 :: rest) site (normalizeLocale locale))
    (withinBudget 5 1 P).
Proof.
  intros HP. unfold queryTargetSiteAndCreatePage.
  apply (emits_try _ _ 5 1 0 0); [|intros; apply emits_ret|lia|lia].
  destruct (_ || _); [apply emits_ret|].
  destruct (_ || _); [apply emits_ret|]. cbv zeta.
  rewrite normalizeLocale_language.
  apply emits_remoteLookup; [done|].
  intros [it|]; [|apply emits_ret]. apply emits_templateThenAncestor.
Qed.

Lemma emits_probeLoop site loc paths g f P :
  (length paths ≤ g)%nat → emits (probeLoop w site loc paths) (withinBudget g f P).
Proof.
  revert g f. induction paths as [|path paths IH]; intros g f Hg; simpl in *.
  { apply emits_ret. }
  apply (emits_bind _ _ 1 0 (length paths) 0); [by apply emits_getPage| |lia|lia].
  intros [page|]; [apply emits_ret|apply IH; lia].
Qed.

Lemma emits_logChildrenById ident lang g f P :
  (1 ≤ f)%nat →
  (∀ r, requestOf cfg (edgeUrl cfg) GET_CHILDREN_BY_ID_QUERY ident lang (contextId cfg) r →
        P r) →
  emits (logChildrenById w cfg ident lang) (withinBudget g f P).
Proof.
  intros Hf HP. unfold logChildrenById. destruct (JS.truthy ident); [|apply emits_ret].
  apply (emits_try _ _ 0 1 0 0); [|intros; apply emits_ret|lia|lia].
  apply emits_remoteLookup; [done|]. intros [it|]; apply emits_ret.
Qed.

Lemma emits_logChildrenByPath formats lang g f P :
  (length formats ≤ f)%nat →
  (∀ r pathFormat, In pathFormat formats →
     requestOf cfg (edgeUrl cfg) GET_CHILDREN_BY_PATH_QUERY pathFormat lang (contextId cfg) r →
     P r) →
  emits (logChildrenByPath w cfg formats lang) (withinBudget g f P).
Proof.
  revert g f. induction formats as [|pf formats IH]; intros g f Hf HP; simpl in *.
  { apply emits_ret. }
  apply (emits_bind _ _ 0 1 0 (length formats)); [| |lia|lia].
  - apply (emits_try _ _ 0 1 0 0); [|intros; apply emits_ret|lia|lia].
    apply emits_remoteLookup; [intros r; apply HP; by left|].
    intros [it|]; apply emits_ret.
  - intros [|]; [apply emits_ret|]. apply IH; [lia|]. intros r p Hp. apply HP. by right.
Qed.

End ResolverBudget.

Section ResolverCalls.

Variable w : World.
Variable cfg : Config.

Lemma emits_logWildcardChildren wildcardItemPath ident lang P :
  (∀ r p, (r.(req_query) = GET_CHILDREN_BY_ID_QUERY ∧ p = ident)
          ∨ (r.(req_query) = GET_CHILDREN_BY_PATH_QUERY
             ∧ ∃ p0, wildcardItemPath = Some p0
                     ∧ In p [p0; JS.stripPrefix "/" p0;
                             JS.stripPrefix "/sitecore/content/" p0]) →
          requestOf cfg (edgeUrl cfg) r.(req_query) p lang (contextId cfg) r → P r) →
  emits (logWildcardChildren w cfg wildcardItemPath ident lang)
    (withinBudget 0 (match wildcardItemPath with Some _ => 4 | None => 1 end) P).
Proof.
  intros HP. unfold logWildcardChildren.
  set (n := match wildcardItemPath with Some _ => 4 | None => 1 end).
  assert (Hn : (1 ≤ n)%nat) by (subst n; destruct wildcardItemPath; lia).
  apply (emits_try _ _ 0 n 0 0); [|intros; apply emits_ret|lia|lia].
  destruct (_ || _); [apply emits_ret|].
  destruct (negb _); [apply emits_ret|].
  apply (emits_bind _ _ 0 1 0 (n - 1)); [| |lia|lia].
  - apply emits_logChildrenById; [lia|]. intros r Hr.
    apply (HP r ident); [left; split; [apply Hr|done]|].
    destruct Hr as (? & ? & Hq & ?). by rewrite Hq.
  - intros [|]; [apply emits_ret|].
    destruct wildcardItemPath as [p0|]; [|apply emits_ret].
    destruct (JS.truthy p0); [|apply emits_ret].
    apply (emits_bind _ _ 0 3 0 0); [|intros; apply emits_ret|lia|subst n; lia].
    apply emits_logChildrenByPath; [simpl; lia|]. intros r p Hp Hr.
    apply (HP r p); [right; split; [apply Hr|by exists p0]|].
    destruct Hr as (? & ? & Hq & ?). by rewrite Hq.
Qed.

Lemma emits_resolveMissing p0 rest site locale P :
  (∀ r, requestOf cfg (edgeUrl cfg) GET_ITEM_WITH_FIELDS_QUERY
          (targetItemPathOf cfg (p0 :: rest)) (normalizeLocale locale) (contextId cfg) r →
        P r) →
  emits (resolveMissing w cfg (p0 :: rest) site (normalizeLocale locale))
    (withinBudget 8 1 P).
Proof.
  intros HP. unfold resolveMissing.
  assert (Q : emits (if targetConfigured cfg
                     then bind (queryTargetSiteAndCreatePage w cfg (p0 :: rest) site
                                  (normalizeLocale locale))
                            (fun targetPage => match targetPage with
                                               | Some tp => ret (Some tp)
                                               | None => ret None
                                               end)
                     else ret None) (withinBudget 5 1 P)).
  { destruct (targetConfigured cfg); [|apply emits_ret].
    apply (emits_bind _ _ 5 1 0 0); [by apply emits_queryTarget| |lia|lia].
    intros [tp|]; apply emits_ret. }
  apply (emits_bind _ _ 3 0 5 1); [by apply emits_probeLoop| |lia|lia].
  intros probe. cbv zeta. by destruct (_ && _).
Qed.

Lemma emits_resolve path site locale P :
  (∀ r, requestOf cfg (edgeUrl cfg) GET_ITEM_WITH_FIELDS_QUERY
          (targetItemPathOf cfg (cleanPath path)) (normalizeLocale locale) (contextId cfg) r →
        P r) →
  (∀ r ident lang,
     requestOf cfg (edgeUrl cfg) GET_CHILDREN_BY_ID_QUERY ident lang (contextId cfg) r →
     P r) →
  emits (resolvePageWithWildcard w cfg path site locale) (withinBudget 9 1 P).
Proof.
  intros HI HC. unfold resolvePageWithWildcard.
  apply (emits_try _ _ 9 1 0 0); [|intros; apply emits_ret|lia|lia].
  unfold resolveBody. destruct (isSystemRequest _ _ _); [apply emits_ret|]. cbv zeta.
  destruct (cleanPath path) as [|p0 rest] eqn:E; [apply emits_getPage; lia|].
  apply (emits_bind _ _ 1 0 8 1); [by apply emits_getPage| |lia|lia].
  intros [pg|].
  - destruct (_ && _); [|apply emits_ret].
    apply (emits_bind _ _ 0 1 0 0); [|intros; apply emits_ret|lia|lia].
    apply (emits_logWildcardChildren None _ _ P).
    intros r p [[Hq ->]|[Hq (p1 & [=] & _)]] Hr. rewrite Hq in Hr. by eapply HC.
  - by apply emits_resolveMissing.
Qed.

(** X9.  One call of the resolver makes at most nine calls of the Content
    Client and at most one remote request, and reads the clock never.
    The remote request goes to the GraphQL endpoint of the configured
    edge URL with the configured key, and it is either the diagnostic
    query for the children of a wildcard item or the query for the item
    whose path is the target site path followed by the cleaned path's
    last segment, in the normalised locale. *)
Theorem resolve_call_budget (path : list string) (site locale : string) (h : list event) :
  ∃ calls,
    snd (resolvePageWithWildcard w cfg path site locale h) = h ++ calls
    ∧ withinBudget 9 1
        (fun r =>
           req_endpoint r = graphQLEndpointOf (edgeUrl cfg)
           ∧ req_apikey r = JS.or (SITECORE_GRAPHQL_API_KEY cfg) (contextId cfg)
           ∧ (req_query r = GET_CHILDREN_BY_ID_QUERY
              ∨ (req_query r = GET_ITEM_WITH_FIELDS_QUERY
                 ∧ req_path r = targetItemPathOf cfg (cleanPath path)
                 ∧ req_language r = normalizeLocale locale)))
        calls.
Proof.
  destruct (resolvePageWithWildcard w cfg path site locale h) as [r h'] eqn:E.
  eapply emits_resolve in E; [exact E| |].
  - intros r0 (He & Hk & Hq & Hp & Hl). split; [done|]. split; [done|]. by right.
  - intros r0 ident lang (He & Hk & Hq & _). split; [done|]. split; [done|]. by left.
Qed.

(** X10.  The diagnostic listing of a wildcard item's children ends
    without an error and without a value, whatever the remote source
    does; it never calls the Content Client, and it makes at most four
    remote requests (one when no item path is given): a query by id for
    the given id, then queries by path for the given path and for the
    path without its leading slash and without its content-root prefix.
    Nothing is requested when the edge URL or the context id is empty. *)
Theorem wildcard_children_log_is_silent (wildcardItemPath : option string)
    (wildcardItemId language : string) (h : list event) :
  ∃ calls,
    logWildcardChildren w cfg wildcardItemPath wildcardItemId language h
    = (Ok tt, h ++ calls)
    ∧ withinBudget 0 (match wildcardItemPath with Some _ => 4 | None => 1 end)
        (fun r =>
           req_endpoint r = graphQLEndpointOf (edgeUrl cfg)
           ∧ req_language r = language
           ∧ ((req_query r = GET_CHILDREN_BY_ID_QUERY ∧ req_path r = wildcardItemId)
              ∨ (req_query r = GET_CHILDREN_BY_PATH_QUERY
                 ∧ ∃ p, wildcardItemPath = Some p
                        ∧ In (req_path r)
                            [p; JS.stripPrefix "/" p;
                             JS.stripPrefix "/sitecore/content/" p])))
        calls
    ∧ (JS.truthy (edgeUrl cfg) && JS.truthy (contextId cfg) = false → calls = []).
Proof.
  destruct (logWildcardChildren w cfg wildcardItemPath wildcardItemId language h)
    as [r h'] eqn:E.
  assert (Hr : r = Ok tt).
  { unfold logWildcardChildren in E.
    match type of E with
    | try_catch ?m _ _ = _ => destruct (try_catch_total m tt h) as ([] & h2 & E2)
    end.
    rewrite E2 in E. by inversion E. }
  subst r.
  pose proof E as E0.
  eapply emits_logWildcardChildren in E as (calls & -> & Hb).
  - exists calls. split; [done|]. split; [exact Hb|].
    intros Hoff. unfold logWildcardChildren, try_catch in E0.
    destruct (JS.truthy (edgeUrl cfg)), (JS.truthy (contextId cfg));
      try discriminate; simpl in E0; inversion E0 as [E1];
      rewrite <- (app_nil_r h) in E1 at 1;
      by apply app_inv_head in E1.
  - intros r p Hcase (He & Hk & Hq & Hp & Hl). split; [done|]. split; [done|].
    destruct Hcase as [[Hq' ->]|[Hq' (p0 & Hp0 & Hin)]]; [by left|].
    right. split; [done|]. exists p0. by rewrite Hp.
Qed.

(** X11.  A remote request needs a key: the key of the environment, and
    only when that is empty the key passed by the caller; with neither,
    the request fails before anything is sent.  Otherwise exactly one
    request is sent, to the edge URL without one trailing slash, with
    the first occurrence of the legacy host replaced, followed by
    /api/graphql/v1; the call returns the data member of the answer
    exactly when the transport answers with an ok status, a body that
    parses and no errors member, and throws in every other case. *)
Theorem graphql_request_shape (baseEdgeUrl : string) (q : QueryKind)
    (path language apiKey : string) (h : list event) :
  let key := JS.or (SITECORE_GRAPHQL_API_KEY cfg) apiKey in
  let run := makeGraphQLRequest w cfg baseEdgeUrl q path language apiKey h in
  let req := {| req_endpoint := graphQLEndpointOf baseEdgeUrl; req_apikey := key;
                req_query := q; req_path := path; req_language := language |} in
  (SITECORE_GRAPHQL_API_KEY cfg ≠ "" → key = SITECORE_GRAPHQL_API_KEY cfg)
  ∧ (SITECORE_GRAPHQL_API_KEY cfg = "" → key = apiKey)
  ∧ (key = "" → run = (Throw ApiKeyNotSet, h))
  ∧ (key ≠ "" →
       snd run = h ++ [EvFetch req]
       ∧ ∀ d, fst run = Ok d ↔
              ∃ resp res, global_fetch w h req = Some resp ∧ resp_ok resp = true
                          ∧ resp_json resp = Some res ∧ res_errors res = None
                          ∧ res_data res = d)
  ∧ (JS.includes (JS.trimTrailingSlash baseEdgeUrl) "edge-platform.sitecorecloud.io" = false →
       graphQLEndpointOf baseEdgeUrl = JS.trimTrailingSlash baseEdgeUrl +:+ "/api/graphql/v1")
  ∧ (JS.includes (JS.trimTrailingSlash baseEdgeUrl) "edge-platform.sitecorecloud.io" = true →
       ∃ pre post,
         JS.trimTrailingSlash baseEdgeUrl = pre +:+ "edge-platform.sitecorecloud.io" +:+ post
         ∧ JS.includes pre "edge-platform.sitecorecloud.io" = false
         ∧ graphQLEndpointOf baseEdgeUrl
           = pre +:+ "edge.sitecorecloud.io" +:+ post +:+ "/api/graphql/v1").
Proof.
  cbv zeta. set (key := JS.or (SITECORE_GRAPHQL_API_KEY cfg) apiKey).
  split; [|split; [|split; [|split; [|split]]]].
  - intros H. subst key. unfold JS.or. apply truthy_true in H. by rewrite H.
  - intros H. subst key. unfold JS.or. by rewrite H.
  - intros Hk. unfold makeGraphQLRequest. cbv zeta. fold key. by rewrite Hk.
  - intros Hk. apply truthy_true in Hk.
    apply (makeGraphQLRequest_sent w cfg baseEdgeUrl q path language apiKey h Hk).
  - intros H. unfold graphQLEndpointOf. cbv zeta. by rewrite H.
  - intros H. unfold graphQLEndpointOf. cbv zeta. rewrite H.
    destruct (includes_replace "edge-platform.sitecorecloud.io" "edge.sitecorecloud.io"
                ltac:(done) _ H) as (pre & post & Hx & Hpre & Hr).
    exists pre, post. split; [done|]. split; [done|].
    by rewrite Hr, !append_assoc.
Qed.

End ResolverCalls.

Section SitemapMore.

Variable w : World.
Variable cfg : Config.

Lemma clientAnswer_Some h path site locale pg :
  clientAnswer w h path site locale = Some pg →
  client_getPage w h path site locale = Ok (Some pg).
Proof.
  unfold clientAnswer. destruct (client_getPage w h path site locale) as [[p|]|e]; congruence.
Qed.

(** One iteration of the loop over [possiblePaths]. *)
Lemma prefixLoop_cons site locale path rest h :
  prefixLoop w site locale (path :: rest) h
  = match clientAnswer w h path site locale with
    | Some pg =>
        match route pg with
        | Some r =>
            if String.eqb (name r) "*"
            then (Ok (Some (List.filter (fun segment => negb (String.eqb segment "*")) path)),
                  h ++ [EvGetPage path site locale])
            else prefixLoop w site locale rest (h ++ [EvGetPage path site locale])
        | None => prefixLoop w site locale rest (h ++ [EvGetPage path site locale])
        end
    | None => prefixLoop w site locale rest (h ++ [EvGetPage path site locale])
    end.
Proof.
  simpl. unfold bind at 1, try_catch, bind at 1. rewrite getPage_run. unfold clientAnswer.
  destruct (client_getPage w h path site locale) as [[pg|]|e]; try done.
  destruct (route pg) as [r|]; [|done]. by destruct (String.eqb (name r) "*").
Qed.

Lemma WILDCARD_PATH_PREFIX_truthy : JS.truthy (WILDCARD_PATH_PREFIX cfg) = true.
Proof.
  unfold WILDCARD_PATH_PREFIX, JS.or.
  by destruct (JS.truthy (SITECORE_WILDCARD_PATH_PREFIX cfg)) eqn:E.
Qed.

Lemma getPage_only_budget (evs : list event) n (P : HttpRequest → Prop) :
  Forall (fun e => isGetPageB e = true) evs → (length evs ≤ n)%nat →
  withinBudget n 0 P evs.
Proof.
  intros Hall Hn. unfold withinBudget, countGetPage, countFetch.
  split; [|split].
  - etransitivity; [apply List.filter_length_le|done].
  - clear Hn. induction Hall as [|e evs He _ IH]; simpl; [lia|].
    destruct e; try discriminate. simpl in *. apply IH.
  - intros e He. rewrite Forall_forall in Hall.
    apply list_elem_of_In, Hall in He. by destruct e.
Qed.

(** The detection of the prefix: the two candidate paths in order. *)
Lemma prefix_detection (site locale : string) (h : list event) :
  WILDCARD_PATH_PREFIX cfg ≠ "*" →
  ∃ prefix calls,
    bind (prefixLoop w site locale [[WILDCARD_PATH_PREFIX cfg; "*"]; ["*"]])
      (fun found => match found with
                    | Some prefix => ret prefix
                    | None => ret [WILDCARD_PATH_PREFIX cfg]
                    end) h
    = (Ok prefix, h ++ calls)
    ∧ withinBudget 2 0 (fun _ => False) calls
    ∧ (prefix = [WILDCARD_PATH_PREFIX cfg]
       ∨ (prefix = []
          ∧ ∃ h1 pg r, client_getPage w h1 ["*"] site locale = Ok (Some pg)
                       ∧ route pg = Some r ∧ name r = "*"))
    ∧ (∀ pg r, client_getPage w h [WILDCARD_PATH_PREFIX cfg; "*"] site locale
               = Ok (Some pg) →
               route pg = Some r → name r = "*" →
               prefix = [WILDCARD_PATH_PREFIX cfg]
               ∧ calls = [EvGetPage [WILDCARD_PATH_PREFIX cfg; "*"] site locale]).
Proof.
  set (PREFIX := WILDCARD_PATH_PREFIX cfg). intros Hs.
  assert (Hf : List.filter (fun segment => negb (String.eqb segment "*")) [PREFIX; "*"]
               = [PREFIX]).
  { simpl. apply String.eqb_neq in Hs. by rewrite Hs. }
  unfold bind. rewrite prefixLoop_cons.
  destruct (clientAnswer w h [PREFIX; "*"] site locale) as [pg1|] eqn:E1.
  - apply clientAnswer_Some in E1.
    destruct (route pg1) as [r1|] eqn:R1;
      [destruct (String.eqb (name r1) "*") eqn:N1|].
    + rewrite Hf. eexists _, _. split; [reflexivity|].
      split; [apply getPage_only_budget; [repeat constructor|simpl; lia]|].
      split; [by left|]. done.
    + rewrite prefixLoop_cons.
      destruct (clientAnswer w _ ["*"] site locale) as [pg2|] eqn:E2.
      * apply clientAnswer_Some in E2.
        destruct (route pg2) as [r2|] eqn:R2;
          [destruct (String.eqb (name r2) "*") eqn:N2|]; simpl; rewrite <- app_assoc;
          (eexists _, _; split; [reflexivity|];
           split; [apply getPage_only_budget; [repeat constructor|simpl; lia]|];
           split;
           [|intros pg r Hp Hr Hn; rewrite E1 in Hp; inversion Hp; subst;
             rewrite R1 in Hr; inversion Hr; subst; rewrite Hn in N1; discriminate]).
        -- right. split; [done|]. apply String.eqb_eq in N2. eauto 6.
        -- by left.
        -- by left.
      * simpl; rewrite <- app_assoc.
        eexists _, _; split; [reflexivity|].
        split; [apply getPage_only_budget; [repeat constructor|simpl; lia]|].
        split; [by left|].
        intros pg r Hp Hr Hn. rewrite E1 in Hp. inversion Hp; subst.
        rewrite R1 in Hr. inversion Hr; subst. rewrite Hn in N1. discriminate.
    + rewrite prefixLoop_cons.
      destruct (clientAnswer w _ ["*"] site locale) as [pg2|] eqn:E2.
      * apply clientAnswer_Some in E2.
        destruct (route pg2) as [r2|] eqn:R2;
          [destruct (String.eqb (name r2) "*") eqn:N2|]; simpl; rewrite <- app_assoc;
          (eexists _, _; split; [reflexivity|];
           split; [apply getPage_only_budget; [repeat constructor|simpl; lia]|];
           split;
           [|intros pg r Hp Hr Hn; rewrite E1 in Hp; inversion Hp; subst;
             rewrite R1 in Hr; discriminate]).
        -- right. split; [done|]. apply String.eqb_eq in N2. eauto 6.
        -- by left.
        -- by left.
      * simpl; rewrite <- app_assoc.
        eexists _, _; split; [reflexivity|].
        split; [apply getPage_only_budget; [repeat constructor|simpl; lia]|].
        split; [by left|].
        intros pg r Hp Hr Hn. rewrite E1 in Hp. inversion Hp; subst.
        rewrite R1 in Hr. discriminate.
  - assert (Hno : ∀ pg, client_getPage w h [PREFIX; "*"] site locale ≠ Ok (Some pg)).
    { intros pg Hp. unfold clientAnswer in E1. by rewrite Hp in E1. }
    rewrite prefixLoop_cons.
    destruct (clientAnswer w _ ["*"] site locale) as [pg2|] eqn:E2.
    + apply clientAnswer_Some in E2.
      destruct (route pg2) as [r2|] eqn:R2;
        [destruct (String.eqb (name r2) "*") eqn:N2|]; simpl; rewrite <- app_assoc;
        (eexists _, _; split; [reflexivity|];
         split; [apply getPage_only_budget; [repeat constructor|simpl; lia]|];
         split; [|intros pg r Hp; by destruct (Hno pg)]).
      * right. split; [done|]. apply String.eqb_eq in N2. eauto 6.
      * by left.
      * by left.
    + simpl; rewrite <- app_assoc.
      eexists _, _; split; [reflexivity|].
      split; [apply getPage_only_budget; [repeat constructor|simpl; lia]|].
      split; [by left|].
      intros pg r Hp. by destruct (Hno pg).
Qed.

(** X12.  The path prefix of the sitemap entries.  A configured prefix
    other than "blog" with at least one non-empty segment is used as it
    is, split at the slashes, and nothing is called.  Otherwise the
    Content Client is asked at most twice, for the configured prefix
    followed by the wildcard marker and then for the marker alone, and it
    is never an error when it fails: the prefix is the configured one (or
    "blog"), and it is empty only when the client answered the marker
    path with a wildcard-named document. *)
Theorem wildcard_prefix_outcomes (site locale : string) (h : list event) :
  let configured := List.filter JS.truthy (JS.splitChar "/" (WILDCARD_PATH_PREFIX cfg)) in
  ∃ prefix calls,
    getWildcardPathPrefix w cfg site locale h = (Ok prefix, h ++ calls)
    ∧ withinBudget 2 0 (fun _ => False) calls
    ∧ (WILDCARD_PATH_PREFIX cfg ≠ "blog" → configured ≠ [] →
         prefix = configured ∧ calls = [])
    ∧ (WILDCARD_PATH_PREFIX cfg = "blog" ∨ configured = [] →
         (prefix = [WILDCARD_PATH_PREFIX cfg]
          ∨ (prefix = []
             ∧ ∃ h1 pg r, client_getPage w h1 ["*"] site locale = Ok (Some pg)
                          ∧ route pg = Some r ∧ name r = "*"))
         ∧ (∀ pg r, client_getPage w h [WILDCARD_PATH_PREFIX cfg; "*"] site locale
                    = Ok (Some pg) →
                    route pg = Some r → name r = "*" →
                    prefix = [WILDCARD_PATH_PREFIX cfg]
                    ∧ calls = [EvGetPage [WILDCARD_PATH_PREFIX cfg; "*"] site locale])).
Proof.
  cbv zeta. unfold getWildcardPathPrefix. cbv zeta.
  rewrite WILDCARD_PATH_PREFIX_truthy. cbn [andb].
  set (PREFIX := WILDCARD_PATH_PREFIX cfg).
  set (segs := List.filter JS.truthy (JS.splitChar "/" PREFIX)).
  assert (Hstar : PREFIX = "blog" ∨ segs = [] → PREFIX ≠ "*").
  { intros [E|E] Hp; [by rewrite Hp in E|]. subst segs. by rewrite Hp in E. }
  destruct (String.eqb PREFIX "blog") eqn:Eb; cbn [negb].
  - apply String.eqb_eq in Eb.
    destruct (prefix_detection site locale h) as (prefix & calls & Hrun & Hb & Hp & Hfirst);
      [apply Hstar; by left|].
    exists prefix, calls. split; [exact Hrun|]. split; [exact Hb|]. by split.
  - apply String.eqb_neq in Eb. destruct segs as [|s ss] eqn:Es.
    + destruct (prefix_detection site locale h) as (prefix & calls & Hrun & Hb & Hp & Hfirst);
        [apply Hstar; by right|].
      exists prefix, calls. split; [exact Hrun|]. split; [exact Hb|]. by split.
    + exists (s :: ss), []. rewrite app_nil_r. split; [done|].
      split; [apply withinBudget_nil|]. split; [done|]. by intros [E|E].
Qed.

End SitemapMore.

Section SitemapChildren.

Variable w : World.
Variable cfg : Config.

(** X13.  The children listed in the sitemap come from one remote request
    at most: the query by path for the configured target path, in the
    given locale (English for an empty locale and for "appspecific"),
    sent to the endpoint of the edge URL.  The call never fails: without
    a target name, target path, edge URL or context id nothing is
    requested and nothing is listed; a list that is not empty is the
    children list of an item the remote source answered with; and when
    the remote source answers with an item, its children are listed. *)
Theorem target_children_request (locale : string) (h : list event) :
  let language :=
    if JS.truthy locale && negb (String.eqb locale "appspecific") then locale else "en" in
  let req := {| req_endpoint := graphQLEndpointOf (edgeUrl cfg);
                req_apikey := JS.or (SITECORE_GRAPHQL_API_KEY cfg) (contextId cfg);
                req_query := GET_CHILDREN_BY_PATH_QUERY;
                req_path := SITECORE_TARGET_SITE_PATH cfg;
                req_language := language |} in
  let configured :=
    JS.truthy (SITECORE_TARGET_SITE_NAME cfg) && JS.truthy (SITECORE_TARGET_SITE_PATH cfg)
    && JS.truthy (edgeUrl cfg) && JS.truthy (contextId cfg) in
  ∃ children calls,
    getTargetSiteChildren w cfg locale h = (Ok children, h ++ calls)
    ∧ (calls = [] ∨ calls = [EvFetch req])
    ∧ (configured = false → children = [] ∧ calls = [])
    ∧ (children ≠ [] →
         ∃ resp it, global_fetch w h req = Some resp ∧ answersWith resp it
                    ∧ item_children it = Some children)
    ∧ (∀ resp it, configured = true → global_fetch w h req = Some resp →
                  answersWith resp it →
                  children = default [] (item_children it) ∧ calls = [EvFetch req]).
Proof.
  cbv zeta. unfold getTargetSiteChildren, TARGET_SITE_NAME, TARGET_SITE_PATH. cbv zeta.
  set (language := if JS.truthy locale && negb (String.eqb locale "appspecific")
                   then locale else "en").
  set (req := {| req_endpoint := graphQLEndpointOf (edgeUrl cfg);
                 req_apikey := JS.or (SITECORE_GRAPHQL_API_KEY cfg) (contextId cfg);
                 req_query := GET_CHILDREN_BY_PATH_QUERY;
                 req_path := SITECORE_TARGET_SITE_PATH cfg;
                 req_language := language |}).
  destruct (JS.truthy (SITECORE_TARGET_SITE_NAME cfg)) eqn:E1; cbn [negb orb andb];
    [|exists [], []; rewrite app_nil_r; repeat split; auto; try done].
  destruct (JS.truthy (SITECORE_TARGET_SITE_PATH cfg)) eqn:E2; cbn [negb orb andb];
    [|exists [], []; rewrite app_nil_r; repeat split; auto; try done].
  destruct (JS.truthy (edgeUrl cfg)) eqn:E3; cbn [negb orb andb];
    [|exists [], []; rewrite app_nil_r; repeat split; auto; try done].
  destruct (JS.truthy (contextId cfg)) eqn:E4; cbn [negb orb andb];
    [|exists [], []; rewrite app_nil_r; repeat split; auto; try done].
  assert (Hk : JS.truthy (JS.or (SITECORE_GRAPHQL_API_KEY cfg) (contextId cfg)) = true)
    by by apply truthy_or.
  destruct (makeGraphQLRequest_sent w cfg (edgeUrl cfg) GET_CHILDREN_BY_PATH_QUERY
              (SITECORE_TARGET_SITE_PATH cfg) language (contextId cfg) h Hk)
    as [Hsnd Hfst].
  fold req in Hsnd, Hfst. unfold try_catch, bind at 1.
  destruct (makeGraphQLRequest w cfg (edgeUrl cfg) GET_CHILDREN_BY_PATH_QUERY
              (SITECORE_TARGET_SITE_PATH cfg) language (contextId cfg) h)
    as [[d|e] h1] eqn:Hm; simpl in Hsnd, Hfst; subst h1.
  2:{ exists [], [EvFetch req]. split; [done|]. split; [by right|].
      split; [done|]. split; [done|].
      intros resp it _ Hf (Hok & res & Hj & He & Hd).
      assert (Hno : Throw e = Ok (Some (Some it))) by (apply Hfst; by exists resp, res).
      discriminate. }
  destruct (proj1 (Hfst d) eq_refl) as (resp & res & Hf & Hok & Hj & He & Hd).
  assert (Hsame : ∀ resp' it', global_fetch w h req = Some resp' → answersWith resp' it' →
                               d = Some (Some it')).
  { intros resp' it' Hf' (_ & res' & Hj' & _ & Hd').
    rewrite Hf in Hf'. inversion Hf'; subst resp'.
    rewrite Hj in Hj'. inversion Hj'; subst res'. congruence. }
  destruct d as [[it|]|]; unfold bind, responseItem, ret, throw.
  - exists (default [] (item_children it)), [EvFetch req].
    split; [by destruct (item_children it)|]. split; [by right|]. split; [done|].
    split.
    + intros Hne. exists resp, it. split; [done|].
      split; [split; [done|by exists res]|].
      by destruct (item_children it).
    + intros resp' it' _ Hf' Ha'. specialize (Hsame _ _ Hf' Ha'). by inversion Hsame.
  - exists [], [EvFetch req]. split; [done|]. split; [by right|].
    split; [done|]. split; [done|].
    intros resp' it' _ Hf' Ha'. specialize (Hsame _ _ Hf' Ha'). discriminate.
  - exists [], [EvFetch req]. split; [done|]. split; [by right|].
    split; [done|]. split; [done|].
    intros resp' it' _ Hf' Ha'. specialize (Hsame _ _ Hf' Ha'). discriminate.
Qed.

End SitemapChildren.

Section SitemapEntries.

Variable w : World.
Variable cfg : Config.

(** The entries of a list of children: one per child, in order, each
    stamped with the clock as read after the entries before it. *)
Lemma buildEntries_run baseUrl site loc prefix children :
  ∀ h, ∃ entries,
    buildEntries w baseUrl site loc prefix children h
    = (Ok entries, h ++ repeat EvNow (length children))
    ∧ length entries = length children
    ∧ ∀ i child, children !! i = Some child →
        entries !! i
        = Some (urlEntry (childUrl baseUrl site loc prefix child)
                  (date_now w (h ++ repeat EvNow i))).
Proof.
  induction children as [|c children IH]; intros h; simpl.
  { exists []. rewrite app_nil_r. by repeat split. }
  unfold bind at 1, nowISO. unfold bind at 1.
  destruct (IH (h ++ [EvNow])) as (es & -> & Hlen & Hi).
  eexists. split; [by rewrite <- app_assoc|]. split; [simpl; by rewrite Hlen|].
  intros [|i] child Hc; simpl in *.
  - inversion Hc; subst. by rewrite app_nil_r.
  - rewrite (Hi i child Hc). by rewrite <- app_assoc.
Qed.

Lemma insertEntries_general xml entries :
  (JS.includes xml closingTag = true →
     ∃ pre post, xml = pre +:+ closingTag +:+ post
                 ∧ JS.includes pre closingTag = false
                 ∧ insertEntries xml entries
                   = pre +:+ post +:+ JS.join "" entries +:+ nl +:+ closingTag)
  ∧ (JS.includes xml closingTag = false →
       insertEntries xml entries = xml +:+ JS.join "" entries).
Proof.
  unfold insertEntries. split; intros H; rewrite H.
  - destruct (includes_replace closingTag "" ltac:(done) xml H)
      as (pre & post & Hx & Hpre & Hr).
    exists pre, post. split; [done|]. split; [done|].
    rewrite Hr. cbv zeta. by rewrite append_nil, append_assoc.
  - done.
Qed.

Lemma enhance_total xml requestUrl h :
  ∃ out h', enhanceSitemapWithWildcardPages w cfg xml requestUrl h = (Ok out, h').
Proof.
  unfold enhanceSitemapWithWildcardPages.
  destruct (_ || _); [eexists _, _; reflexivity|]. apply try_catch_total.
Qed.

(** X14.  With a configured remote target and default site and a request
    URL that parses, a non-empty list of remote children adds one URL
    entry per child, in the order of the children: the entry of a child
    holds the escaped address made of the request's origin, the default
    site, the locale "en", the prefix and the child's name, and the
    clock as read when the entry is made.  The first closing tag of
    the base is taken out, and the entries, a newline and the closing
    tag are written at the end of what remains, after any text that
    followed the tag in the base; a base without closing tag gets the
    entries at its end; nothing else of the base changes. *)
Theorem sitemap_entries_follow_children xml requestUrl h prefix children h1 h2
    protocol host :
  JS.truthy (SITECORE_TARGET_SITE_NAME cfg) = true →
  JS.truthy (SITECORE_TARGET_SITE_PATH cfg) = true →
  JS.truthy (sitemapDefaultSite cfg) = true →
  getWildcardPathPrefix w cfg (sitemapDefaultSite cfg) "en" h = (Ok prefix, h1) →
  getTargetSiteChildren w cfg "en" h1 = (Ok children, h2) →
  children ≠ [] →
  url_parse w requestUrl = Some (protocol, host) →
  ∃ out entries,
    enhanceSitemapWithWildcardPages w cfg xml requestUrl h
    = (Ok out, h2 ++ repeat EvNow (length children))
    ∧ length entries = length children
    ∧ (∀ i child, children !! i = Some child →
         entries !! i
         = Some (urlEntry (childUrl (protocol +:+ "//" +:+ host) (sitemapDefaultSite cfg)
                             "en" prefix child)
                   (date_now w (h2 ++ repeat EvNow i))))
    ∧ (JS.includes xml closingTag = true →
         ∃ pre post, xml = pre +:+ closingTag +:+ post
                     ∧ JS.includes pre closingTag = false
                     ∧ out = pre +:+ post +:+ JS.join "" entries +:+ nl +:+ closingTag)
    ∧ (JS.includes xml closingTag = false → out = xml +:+ JS.join "" entries).
Proof.
  intros Hn Hp Hs Hprefix Hchildren Hne Hurl.
  unfold enhanceSitemapWithWildcardPages, TARGET_SITE_NAME, TARGET_SITE_PATH.
  rewrite Hn, Hp, Hs. cbn [negb orb]. cbv zeta.
  unfold try_catch, bind at 1. rewrite Hprefix.
  unfold bind at 1. rewrite Hchildren.
  destruct children as [|c children]; [done|]. cbn [length Nat.eqb].
  rewrite Hurl. unfold bind.
  destruct (buildEntries_run (protocol +:+ "//" +:+ host) (sitemapDefaultSite cfg) "en"
              prefix (c :: children) h2) as (es & Hrun & Hlen & Hi).
  rewrite Hrun. unfold ret. exists (insertEntries xml es), es.
  split; [done|]. split; [done|]. split; [done|]. apply insertEntries_general.
Qed.

(** X15.  The sitemap route.  When the handler of the SDK answers, the
    route answers with status 200, the XML content type and the one-hour
    cache header, and a body that is what the enrichment makes of the
    SDK's sitemap: no failure of the enrichment reaches the caller and
    the SDK's handler is not asked again.  When the SDK's handler answers
    with nothing, the route answers with status 500.  Only when the
    SDK's handler throws is it asked a second time, and the route ends
    as that second call does. *)
Theorem sitemap_route_outcomes (defaultGET : SitemapRoute.DefaultHandler)
    (requestUrl : string) (h : list event) :
  match defaultGET 0%nat h requestUrl with
  | Ok (Some resp) =>
      ∃ body h',
        enhanceSitemapWithWildcardPages w cfg (SitemapRoute.rr_body resp) requestUrl h
        = (Ok body, h')
        ∧ SitemapRoute.GET w cfg defaultGET requestUrl h
          = (Ok (Some {| SitemapRoute.rr_status := 200;
                         SitemapRoute.rr_headers :=
                           [("Content-Type", "application/xml");
                            ("Cache-Control", "public, max-age=3600, s-maxage=3600")];
                         SitemapRoute.rr_body := body |}), h')
  | Ok None =>
      SitemapRoute.GET w cfg defaultGET requestUrl h
      = (Ok (Some {| SitemapRoute.rr_status := 500;
                     SitemapRoute.rr_headers := [];
                     SitemapRoute.rr_body := "Sitemap not available" |}), h)
  | Throw _ =>
      SitemapRoute.GET w cfg defaultGET requestUrl h = (defaultGET 1%nat h requestUrl, h)
  end.
Proof.
  unfold SitemapRoute.GET, SitemapRoute.callDefault, try_catch, bind.
  destruct (defaultGET 0%nat h requestUrl) as [[resp|]|e]; [|done|done].
  destruct (enhance_total (SitemapRoute.rr_body resp) requestUrl h) as (body & h' & E).
  exists body, h'. split; [done|]. by rewrite E.
Qed.

End SitemapEntries.

Section Readers.

(** The bound value of a binding after the propagation. *)
Lemma bindingJson_propagated tf b :
  bindingJson (updateBinding (Some tf) b)
  = match bindingJson b with
    | Some jv => Some {| jv_value := Some (bindingValue tf); jv_rest := jv_rest jv |}
    | None => None
    end.
Proof.
  destruct b as [[[f|] br]|]; simpl; try done.
  destruct f as [[jv|] fr]; simpl; done.
Qed.

Lemma datasourceOf_update tf cf r r' :
  updateRenderingFields (Some tf) cf r = Ok r' →
  bindingJson (Title.datasourceOf (fields r'))
  = match bindingJson (Title.datasourceOf (fields r)) with
    | Some jv => Some {| jv_value := Some (bindingValue tf); jv_rest := jv_rest jv |}
    | None => None
    end.
Proof.
  unfold updateRenderingFields, Title.datasourceOf.
  destruct (fields r) as [| |rf] eqn:E; [intros [= <-]; by rewrite E|done|].
  destruct (data rf) as [d|] eqn:Ed; intros [= <-]; simpl; [|by rewrite E, Ed].
  destruct (datasource d) as [b|] eqn:Eb.
  - rewrite <- (bindingJson_propagated tf (Some b)).
    by destruct (updateBinding (Some tf) (Some b)) eqn:Eu;
      [|destruct b as [[[[jv|] fr]|] br]; discriminate].
  - simpl. apply bindingJson_propagated.
Qed.

Lemma overlayWildcard_placeholders tpl n i t c page :
  overlayWildcard tpl n i t c = Ok (Some page) →
  ∃ rt, route tpl = Some rt
        ∧ match placeholders rt with
          | Some phs =>
              ∃ phs', placeholdersOf page = Some phs'
                      ∧ updatedBy
                          (Some (overrideField (default ∅ (route_fields rt) !! "Title") t))
                          (updateFields (default ∅ (route_fields rt)) t c !! "Content")
                          phs phs'
          | None => placeholdersOf page = None
          end.
Proof.
  intros H. apply overlayWildcard_Ok in H as (rt & Hrt & phs' & Hphs & ->).
  exists rt. split; [done|]. unfold placeholdersOf. simpl.
  destruct (placeholders rt) as [phs|]; [|done].
  exists phs'. split; [done|]. by apply updatePlaceholders_Ok.
Qed.

(** X16.  What the Title component displays on an enriched page.  On a
    page built on a wildcard template, every Title rendering of a
    top-level placeholder displays the remote title, whether it reads a
    value bound under its datasource or context item or falls back to
    the Title field of the route.  On every enriched page, also one built
    on the parent or the root page, a Title rendering without a bound
    value displays the remote title. *)
Theorem title_component_shows_remote_title (tpl : Page) (it : RemoteItem) (page : Page) :
  createPageFromWildcard tpl it = Ok (Some page) ∨ createPageFromTemplate tpl it = Some page →
  (∀ fs, bindingJson (Title.datasourceOf fs) = None →
         Title.textValue (Title.titleField fs page) = Some (itemTitle it))
  ∧ (createPageFromWildcard tpl it = Ok (Some page) →
     ∀ phs placeholderName renderings rendering,
       placeholdersOf page = Some phs →
       phs !! placeholderName = Some renderings →
       In rendering renderings →
       Title.textValue (Title.titleField (fields rendering) page) = Some (itemTitle it)).
Proof.
  intros H.
  assert (HT : ∃ o, routeField page "Title" = Some (overrideField o (itemTitle it))).
  { unfold createPageFromWildcard, createPageFromTemplate in H.
    apply overlay_Title in H as (rt & _ & HTitle & _). eauto. }
  destruct HT as (o & HT).
  assert (Hfall : ∀ fs, bindingJson (Title.datasourceOf fs) = None →
                        Title.textValue (Title.titleField fs page) = Some (itemTitle it)).
  { intros fs Hb. unfold Title.titleField. cbv zeta. by rewrite Hb, HT. }
  split; [exact Hfall|].
  intros Hw phs phn rs r Hphs Hrs Hr.
  unfold createPageFromWildcard in Hw.
  apply overlayWildcard_placeholders in Hw as (rt & _ & Hp).
  destruct (placeholders rt) as [phs0|]; [|congruence].
  destruct Hp as (phs' & Hp & Hupd). rewrite Hp in Hphs.
  inversion Hphs; subst phs'; clear Hphs.
  specialize (Hupd phn). rewrite Hrs in Hupd.
  destruct (phs0 !! phn) as [rs0|]; [|done].
  apply updateEach_Ok in Hupd.
  assert (Hr0 : ∃ r0, updateRenderingFields
                        (Some (overrideField (default ∅ (route_fields rt) !! "Title")
                                 (itemTitle it)))
                        (updateFields (default ∅ (route_fields rt)) (itemTitle it)
                           (itemContent it) !! "Content") r0 = Ok r).
  { clear Hrs. induction Hupd as [|r0 r' rs0 rs' Hr0 _ IH]; [done|].
    destruct Hr as [<-|Hr]; [by exists r0|by apply IH]. }
  destruct Hr0 as (r0 & Hr0).
  pose proof (datasourceOf_update _ _ _ _ Hr0) as Hd.
  destruct (bindingJson (Title.datasourceOf (fields r0))) as [jv|] eqn:Eb.
  - unfold Title.titleField. cbv zeta. rewrite Hd. simpl.
    by rewrite bindingValue_override.
  - by apply Hfall.
Qed.

(** X17.  What the PageContent component displays on an enriched page
    when the rendering has no Content field of its own: the remote
    content when the item has one, and otherwise the Content field of
    the template, as it was. *)
Theorem page_content_shows_remote_content (tpl : Page) (it : RemoteItem) (page : Page)
    (fs : option RenderingFields) :
  createPageFromWildcard tpl it = Ok (Some page) ∨ createPageFromTemplate tpl it = Some page →
  match fs with
  | Some rf => fields_rest rf !! "Content" = None ∨ fields_rest rf !! "Content" = Some JNull
  | None => True
  end →
  (itemContent it ≠ "" →
     ∃ f, PageContent.field fs page = Some (inr f) ∧ value f = Some (itemContent it))
  ∧ (itemContent it = "" → PageContent.field fs page = PageContent.field fs tpl).
Proof.
  intros H Hown.
  unfold createPageFromWildcard, createPageFromTemplate in H.
  apply overlay_Title in H as (rt & _ & _ & HC).
  assert (Hf : ∀ p, PageContent.field fs p
                    = match routeField p "Content" with
                      | Some f => Some (inr f)
                      | None => None
                      end).
  { intros p. unfold PageContent.field. cbv zeta.
    destruct fs as [rf|]; [|done]. by destruct Hown as [-> | ->]. }
  rewrite !Hf, HC. split.
  - intros Hne. apply String.eqb_neq in Hne. unfold JS.truthy. rewrite Hne. simpl.
    eexists. split; reflexivity.
  - intros ->. done.
Qed.

(** X18.  An overlay changes the name and the id of the route, its Title
    field and its Content field, and nothing else outside the
    placeholders: the other members of the route and of the page, the
    language and every other route field are those of the template, and
    the overridden Title and Content fields keep the members of the
    template's fields other than the two values. *)
Theorem overlay_changes_name_id_title_content (tpl : Page) (it : RemoteItem) (page : Page) :
  createPageFromWildcard tpl it = Ok (Some page) ∨ createPageFromTemplate tpl it = Some page →
  ∃ rt rt',
    route tpl = Some rt ∧ route page = Some rt'
    ∧ name rt' = item_name it ∧ itemId rt' = item_id it
    ∧ route_rest rt' = route_rest rt
    ∧ language page = language tpl ∧ page_rest page = page_rest tpl
    ∧ (∀ k, k ≠ "Title" → k ≠ "Content" → routeField page k = routeField tpl k)
    ∧ (∀ k f, k = "Title" ∨ k = "Content" → routeField tpl k = Some f →
         ∃ f', routeField page k = Some f'
               ∧ field_rest f' = field_rest f
               ∧ ∀ jv, jsonValue f = Some jv →
                       ∃ jv', jsonValue f' = Some jv' ∧ jv_rest jv' = jv_rest jv).
Proof.
  intros H.
  assert (E : ∃ rt rt', route tpl = Some rt ∧ route page = Some rt'
                        ∧ name rt' = item_name it ∧ itemId rt' = item_id it
                        ∧ route_rest rt' = route_rest rt
                        ∧ language page = language tpl ∧ page_rest page = page_rest tpl
                        ∧ route_fields rt'
                          = Some (updateFields (default ∅ (route_fields rt))
                                    (itemTitle it) (itemContent it))).
  { unfold createPageFromWildcard, createPageFromTemplate in H. destruct H as [H|H].
    - apply overlayWildcard_Ok in H as (rt & Hrt & phs' & _ & ->).
      exists rt. eexists. by repeat split.
    - unfold overlayTemplate, JSON_clone in H.
      destruct (route tpl) as [rt|]; [|done].
      injection H as <-. exists rt. eexists. by repeat split. }
  destruct E as (rt & rt' & Hr & Hr' & Hn & Hi & Hrest & Hl & Hp & Hf).
  exists rt, rt'. repeat (split; [done|]).
  assert (Hlook : ∀ k, routeField page k
                       = updateFields (default ∅ (route_fields rt))
                           (itemTitle it) (itemContent it) !! k).
  { intros k. unfold routeField. by rewrite Hr', Hf. }
  assert (Htpl : ∀ k, routeField tpl k = default ∅ (route_fields rt) !! k).
  { intros k. unfold routeField. rewrite Hr. by destruct (route_fields rt). }
  split.
  - intros k H1 H2. by rewrite Hlook, Htpl, updateFields_other.
  - intros k f [-> | ->] Hk; rewrite Htpl in Hk; rewrite Hlook.
    + rewrite updateFields_Title, Hk. eexists. split; [done|]. split; [done|].
      intros jv Hjv. simpl. rewrite Hjv. eexists. split; reflexivity.
    + rewrite updateFields_Content, Hk. destruct (JS.truthy (itemContent it)).
      * eexists. split; [done|]. split; [done|].
        intros jv Hjv. simpl. rewrite Hjv. eexists. split; reflexivity.
      * exists f. split; [done|]. split; [done|]. intros jv Hjv. by exists jv.
Qed.

End Readers.

Section Metadata.

Variable w : World.
Variable cfg : Config.

(** X19.  The metadata of a page never fail: the title is the value of
    the Title field of the page the resolver returns, and "Page" when the
    resolver returns nothing, when the page has no Title field, when the
    Title field has no value, and when its value is empty; the calls
    made are those of the resolver.  For an enriched page the title is
    the remote title. *)
Theorem metadata_title_of_resolved_page (path : option (list string))
    (site locale : string) (h : list event) :
  ∃ page title h',
    resolvePageWithWildcard w cfg (default [] path) site locale h = (Ok page, h')
    ∧ PageRoute.generateMetadata w cfg path site locale h = (Ok title, h')
    ∧ title ≠ ""
    ∧ (page = None → title = "Page")
    ∧ (∀ p f v, page = Some p → routeField p "Title" = Some f → value f = Some v →
                title = JS.or v "Page")
    ∧ (∀ p tpl it, page = Some p →
         createPageFromWildcard tpl it = Ok (Some p) ∨ createPageFromTemplate tpl it = Some p →
         title = JS.or (itemTitle it) "Page")
    ∧ (∀ p, page = Some p → routeField p "Title" = None → title = "Page")
    ∧ (∀ p f, page = Some p → routeField p "Title" = Some f → value f = None →
              title = "Page")
    ∧ (∀ p f, page = Some p → routeField p "Title" = Some f → value f = Some "" →
              title = "Page")
    ∧ (∀ p f v, page = Some p → routeField p "Title" = Some f → value f = Some v →
                v ≠ "" → title = v).
Proof.
  unfold PageRoute.generateMetadata, bind.
  destruct (try_catch_total (resolveBody w cfg (default [] path) site locale) None h)
    as (page & h' & E).
  fold (resolvePageWithWildcard w cfg (default [] path) site locale) in E.
  rewrite E. eexists page, _, h'. split; [done|]. split; [done|].
  assert (Hv : ∀ p f v, page = Some p → routeField p "Title" = Some f → value f = Some v →
                        JS.or (default "" match page with
                                          | Some p => match routeField p "Title" with
                                                      | Some f => value f
                                                      | None => None
                                                      end
                                          | None => None
                                          end) "Page" = JS.or v "Page").
  { intros p f v -> Hf Hval. by rewrite Hf, Hval. }
  split; [|split; [|split; [|split; [|split; [|split; [|split]]]]]].
  - unfold JS.or. destruct (JS.truthy _) eqn:Et; [|done]. by apply truthy_true in Et.
  - by intros ->.
  - exact Hv.
  - intros p tpl it Hp Ho. unfold createPageFromWildcard, createPageFromTemplate in Ho.
    apply overlay_Title in Ho as (rt & _ & HT & _). by eapply Hv.
  - intros p -> Hf. by rewrite Hf.
  - intros p f -> Hf Hval. by rewrite Hf, Hval.
  - intros p f Hp Hf Hval. by rewrite (Hv p f "").
  - intros p f v Hp Hf Hval Hne. rewrite (Hv p f v) by done.
    unfold JS.or, JS.truthy. apply String.eqb_neq in Hne. by rewrite Hne.
Qed.

End Metadata.

Section StatelessClient.

Variable w : World.
Variable cfg : Config.

Lemma clientAnswer_stateless :
  clientStateless w →
  ∀ h h' path site locale,
    clientAnswer w h path site locale = clientAnswer w h' path site locale.
Proof. intros Hs h h' path site locale. unfold clientAnswer. by rewrite (Hs h h'). Qed.

(** The template search with a client that answers a path always the
    same way. *)
Lemma findWildcardPage_stateless p0 rest site locale h wp h' :
  clientStateless w →
  findWildcardPage w (p0 :: rest) site locale h = (Ok wp, h') →
  match wp with
  | Some tpl => ∃ path, In path [[p0; "*"]; ["*"]; [p0]]
                        ∧ client_getPage w h path site locale = Ok (Some tpl)
  | None => clientAnswer w h [p0] site locale = None
  end.
Proof.
  intros Hs. pose proof (clientAnswer_stateless Hs) as Hc.
  unfold findWildcardPage, templatePaths.
  rewrite templateLoop_cons, templateLoopBody_marker by apply arrayIncludes_pair.
  cbn [fst snd].
  destruct (clientAnswer w h [p0; "*"] site locale) as [d1|] eqn:E1.
  { rewrite bool_decide_eq_true_2 by done. intros [= <- <-].
    exists [p0; "*"]. split; [by left|]. by apply clientAnswer_Some. }
  rewrite bool_decide_eq_false_2 by (intros H; by apply H).
  rewrite templateLoop_cons, templateLoopBody_marker by apply arrayIncludes_marker.
  cbn [fst snd]. rewrite (Hc _ h).
  destruct (clientAnswer w h ["*"] site locale) as [d2|] eqn:E2.
  { rewrite bool_decide_eq_true_2 by done. intros [= <- <-].
    exists ["*"]. split; [right; by left|]. by apply clientAnswer_Some. }
  rewrite bool_decide_eq_false_2 by (intros H; by apply H).
  rewrite templateLoop_cons, templateLoopBody_parent. cbv zeta. rewrite (Hc _ h).
  destruct (clientAnswer w h [p0] site locale) as [d3|] eqn:E3.
  2:{ by intros [= <- <-]. }
  destruct (String.eqb (routeName d3) "*" || String.eqb p0 "*").
  { intros [= <- <-]. exists [p0]. split; [right; right; by left|].
    by apply clientAnswer_Some. }
  rewrite (Hc _ h), E1. intros [= <- <-].
  exists [p0]. split; [right; right; by left|]. by apply clientAnswer_Some.
Qed.

(** X20.  With a Content Client whose answers do not depend on the calls
    made before, the page of an enrichment is built in one of two ways
    only: with the title pushed into the placeholders, on a document the
    client answers with at the first segment followed by the marker, at
    the marker or at the first segment itself (the parent page); or
    without it, on the root document, and then the client has no
    document at the first segment.  The separate parent branch of the
    code is never the one that builds the page. *)
Theorem stateless_client_templates (p0 : string) (rest : list string)
    (site locale : string) (h : list event) (page : Page) (h' : list event) :
  clientStateless w →
  queryTargetSiteAndCreatePage w cfg (p0 :: rest) site locale h = (Ok (Some page), h') →
  ∃ it tpl,
    (createPageFromWildcard tpl it = Ok (Some page)
     ∧ ∃ path, In path [[p0; "*"]; ["*"]; [p0]]
               ∧ client_getPage w h path site locale = Ok (Some tpl))
    ∨ (createPageFromTemplate tpl it = Some page
       ∧ client_getPage w h [] site locale = Ok (Some tpl)
       ∧ client_getPage w h [p0] site locale = Ok None).
Proof.
  intros Hs H. unfold queryTargetSiteAndCreatePage in H.
  apply try_catch_inv in H as [(o & H & [= <-])|(e & h1 & _ & [=])].
  destruct (_ || _); [discriminate|].
  destruct (_ || _); [discriminate|]. cbv zeta in H.
  apply bind_Ok_inv in H as (d & h1 & _ & H).
  apply bind_Ok_inv in H as ([it|] & h2 & _ & H); [|discriminate].
  apply bind_Ok_inv in H as (wp & h3 & Hfind & H).
  apply (findWildcardPage_stateless _ _ _ _ _ _ _ Hs) in Hfind.
  exists it. destruct wp as [tpl|].
  - exists tpl. left. inversion H as [[Hp He]]. split; [done|].
    destruct Hfind as (path & Hin & Hc). exists path. split; [done|].
    by rewrite (Hs h h2).
  - unfold ancestorTemplate in H. cbv zeta in H.
    apply bind_Ok_inv in H as (parent & h4 & Hparent & H).
    rewrite getPage_run in Hparent. inversion Hparent as [[Hpa He]]. subst h4.
    assert (Hnone : client_getPage w h [p0] site locale = Ok None).
    { rewrite (Hs h h3), Hpa. unfold clientAnswer in Hfind.
      rewrite (Hs h2 h3), Hpa in Hfind. by subst parent. }
    rewrite (Hs h3 h), Hnone in Hpa. inversion Hpa; subst parent.
    apply bind_Ok_inv in H as (root & h5 & Hroot & H).
    rewrite getPage_run in Hroot. inversion Hroot as [[Hro He]].
    destruct root as [root|]; [|discriminate]. inversion H as [[Hp He']].
    exists root. right. split; [done|]. split; [|done]. by rewrite (Hs h (h3 ++ [EvGetPage [p0] site locale])).
Qed.

End StatelessClient.

Section ComponentMapFacts.

Import Providers.

Lemma arrayIncludes_elem (names : list string) (x : string) :
  JS.arrayIncludes names x = true ↔ x ∈ names.
Proof.
  unfold JS.arrayIncludes. rewrite existsb_exists. split.
  - intros (y & Hin & He). apply String.eqb_eq in He. subst.
    by apply list_elem_of_In.
  - intros Hin. exists x. split; [by apply list_elem_of_In|apply String.eqb_refl].
Qed.

Lemma setAdd_elem (n x : string) (names : list string) :
  x ∈ setAdd n names ↔ x = n ∨ x ∈ names.
Proof.
  unfold setAdd. destruct (JS.arrayIncludes names n) eqn:E.
  - apply arrayIncludes_elem in E. split; [by right|]. by intros [->|].
  - rewrite elem_of_app, list_elem_of_singleton. tauto.
Qed.

Lemma extractRendering_Node componentName placeholders componentNames :
  extractRendering (Node componentName placeholders) componentNames
  = let componentNames :=
      match componentName with
      | Some n => if JS.truthy n then setAdd n componentNames else componentNames
      | None => componentNames
      end in
    match placeholders with
    | Some phs => extractComponents phs componentNames
    | None => componentNames
    end.
Proof. reflexivity. Qed.

Lemma namesOfNode_Node componentName placeholders :
  namesOfNode (Node componentName placeholders)
  = match componentName with
    | Some n => if JS.truthy n then [n] else []
    | None => []
    end
    ++ match placeholders with
       | Some phs => namesOfPlaceholders phs
       | None => []
       end.
Proof. reflexivity. Qed.

Lemma forEachRendering_elem (rs : list LayoutNode) :
  Forall (fun r => ∀ acc x, x ∈ extractRendering r acc ↔ x ∈ acc ∨ x ∈ namesOfNode r) rs →
  ∀ acc x, x ∈ forEachRendering rs acc ↔ x ∈ acc ∨ x ∈ namesOfList rs.
Proof.
  induction 1 as [|r rs Hr _ IH]; intros acc x; simpl.
  - rewrite elem_of_nil. tauto.
  - rewrite IH, Hr, elem_of_app. tauto.
Qed.

Lemma extractComponents_elem (phs : list (string * list LayoutNode)) :
  Forall (fun ph => Forall (fun r => ∀ acc x, x ∈ extractRendering r acc
                                              ↔ x ∈ acc ∨ x ∈ namesOfNode r) (snd ph)) phs →
  ∀ acc x, x ∈ extractComponents phs acc ↔ x ∈ acc ∨ x ∈ namesOfPlaceholders phs.
Proof.
  induction 1 as [|[n rs] phs Hrs _ IH]; intros acc x; simpl.
  - rewrite elem_of_nil. tauto.
  - rewrite IH, (forEachRendering_elem rs Hrs), elem_of_app. tauto.
Qed.

(** The names collected from a rendering are its names at every depth. *)
Lemma extractRendering_elem (r : LayoutNode) :
  ∀ acc x, x ∈ extractRendering r acc ↔ x ∈ acc ∨ x ∈ namesOfNode r.
Proof.
  induction r as [cn phs IH] using LayoutNode_induction. intros acc x.
  rewrite extractRendering_Node, namesOfNode_Node. cbv zeta.
  rewrite elem_of_app.
  set (acc' := match cn with
               | Some n => if JS.truthy n then setAdd n acc else acc
               | None => acc
               end).
  assert (Hacc : x ∈ acc' ↔ x ∈ acc ∨ x ∈ match cn with
                                          | Some n => if JS.truthy n then [n] else []
                                          | None => []
                                          end).
  { subst acc'. destruct cn as [n|]; [destruct (JS.truthy n)|];
      rewrite ?setAdd_elem, ?list_elem_of_singleton, ?elem_of_nil; tauto. }
  destruct phs as [phs|].
  - rewrite (extractComponents_elem phs IH), Hacc. tauto.
  - rewrite Hacc, elem_of_nil. tauto.
Qed.

Lemma extractComponents_names (phs : list (string * list LayoutNode)) (x : string) :
  x ∈ extractComponents phs [] ↔ x ∈ namesOfPlaceholders phs.
Proof.
  rewrite extractComponents_elem, elem_of_nil; [tauto|].
  apply Forall_forall. intros ph _. apply Forall_forall. intros r _.
  apply extractRendering_elem.
Qed.

Variable Component : Type.
Variable MissingComponentModule : Component.

Lemma addMissing_lookup (names : list string) :
  ∀ (m : gmap string Component) (k : string),
    addMissing Component MissingComponentModule names m !! k
    = match m !! k with
      | Some c => Some c
      | None => if bool_decide (k ∈ names) then Some MissingComponentModule else None
      end.
Proof.
  unfold addMissing. induction names as [|n names IH]; intros m k; simpl.
  { by destruct (m !! k). }
  rewrite IH. destruct (m !! n) as [c|] eqn:En.
  - destruct (m !! k) as [c'|] eqn:Ek; [done|].
    assert (k ≠ n) by (intros ->; congruence).
    replace (bool_decide (k ∈ n :: names)) with (bool_decide (k ∈ names)); [done|].
      apply bool_decide_ext. rewrite elem_of_cons. tauto.
  - destruct (decide (k = n)) as [->|Hne].
    + rewrite lookup_insert_eq, En, bool_decide_eq_true_2; [done|]. by left.
    + rewrite lookup_insert_ne by done. destruct (m !! k); [done|].
      replace (bool_decide (k ∈ n :: names)) with (bool_decide (k ∈ names)); [done|].
      apply bool_decide_ext. rewrite elem_of_cons. tauto.
Qed.

Lemma addAliases_lookup (m : gmap string Component) (k : string) :
  addAliases Component componentAliases m !! k
  = match m !! k with
    | Some c => Some c
    | None => if String.eqb k "sxa-header" then m !! "SxaHeader"
              else if String.eqb k "sxa-footer" then m !! "SxaFooter"
              else None
    end.
Proof.
  unfold addAliases, componentAliases. simpl.
  set (m1 := match m !! "SxaHeader" with
             | Some c => match m !! "sxa-header" with
                         | Some _ => m
                         | None => <["sxa-header" := c]> m
                         end
             | None => m
             end).
  assert (H1 : ∀ k, m1 !! k = match m !! k with
                              | Some c => Some c
                              | None => if String.eqb k "sxa-header"
                                        then m !! "SxaHeader" else None
                              end).
  { intros k'. subst m1. destruct (m !! "SxaHeader") as [c|] eqn:Ea.
    - destruct (m !! "sxa-header") as [c'|] eqn:Eb.
      + destruct (m !! k') eqn:Ek; [done|].
        destruct (String.eqb k' "sxa-header") eqn:E; [|done].
        apply String.eqb_eq in E. congruence.
      + destruct (String.eqb k' "sxa-header") eqn:E.
        * apply String.eqb_eq in E. subst k'. by rewrite lookup_insert_eq, Eb.
        * apply String.eqb_neq in E. rewrite lookup_insert_ne by done.
          by destruct (m !! k').
    - destruct (m !! k'); [done|]. by destruct (String.eqb k' "sxa-header"). }
  destruct (m1 !! "SxaFooter") as [c|] eqn:Ea.
  - destruct (m1 !! "sxa-footer") as [c'|] eqn:Eb.
    + rewrite H1. rewrite !H1 in Ea, Eb. simpl in Ea, Eb.
      destruct (m !! k) eqn:Ek; [done|].
      destruct (String.eqb k "sxa-header") eqn:E; [done|].
      destruct (String.eqb k "sxa-footer") eqn:E'; [|done].
      apply String.eqb_eq in E'. subst k. rewrite Ek in Eb. discriminate.
    + destruct (String.eqb k "sxa-footer") eqn:E'.
      * apply String.eqb_eq in E'. subst k. rewrite lookup_insert_eq.
        rewrite !H1 in Ea, Eb. simpl in Ea, Eb.
        destruct (m !! "sxa-footer"); [discriminate|].
        by destruct (m !! "SxaFooter").
      * apply String.eqb_neq in E'. rewrite lookup_insert_ne by done.
        rewrite H1. destruct (m !! k); [done|].
        by destruct (String.eqb k "sxa-header").
  - rewrite H1. rewrite H1 in Ea. simpl in Ea.
    destruct (m !! "SxaFooter"); [discriminate|].
    destruct (m !! k); [done|].
    destruct (String.eqb k "sxa-header"); [done|].
    by destruct (String.eqb k "sxa-footer").
Qed.

(** X21.  The component map handed to the provider.  Every entry of the
    base map is kept as it is.  Every component name that occurs in the
    page's tree, at any depth of nested placeholders, and that the base
    map lacks is mapped to the MissingComponent module.  The two
    kebab-case aliases are added for the entries "SxaHeader" and
    "SxaFooter" when these exist by then and the alias is not a key
    already.  No other key is added. *)
Theorem enhanced_map_lookup (baseMap : gmap string Component)
    (routePlaceholders : option (list (string * list LayoutNode))) (k : string) :
  let names := match routePlaceholders with
               | Some phs => namesOfPlaceholders phs
               | None => []
               end in
  let registered (key : string) :=
    match baseMap !! key with
    | Some c => Some c
    | None => if bool_decide (key ∈ names) then Some MissingComponentModule else None
    end in
  createEnhancedComponentMap Component MissingComponentModule baseMap routePlaceholders !! k
  = match registered k with
    | Some c => Some c
    | None => if String.eqb k "sxa-header" then registered "SxaHeader"
              else if String.eqb k "sxa-footer" then registered "SxaFooter"
              else None
    end.
Proof.
  cbv zeta. unfold createEnhancedComponentMap. cbv zeta.
  rewrite addAliases_lookup, !addMissing_lookup.
  assert (E : ∀ key,
             bool_decide (key ∈ match routePlaceholders with
                                | Some phs => extractComponents phs []
                                | None => []
                                end)
             = bool_decide (key ∈ match routePlaceholders with
                                  | Some phs => namesOfPlaceholders phs
                                  | None => []
                                  end)).
  { intros key. apply bool_decide_ext. destruct routePlaceholders as [phs|]; [|done].
    apply extractComponents_names. }
  by rewrite !E.
Qed.

End ComponentMapFacts.

Section CallTargets.

Variable w : World.
Variable cfg : Config.

Implicit Type Q : list string → string → string → Prop.

Lemma calls_ret {A} (a : A) Q : emits (ret a) (clientCallsAre Q).
Proof. intros h r h' [= <- <-]. exists []. rewrite app_nil_r. by split; [|constructor]. Qed.

Lemma calls_lift {A} (a : result A) Q : emits (lift a) (clientCallsAre Q).
Proof. intros h r h' [= <- <-]. exists []. rewrite app_nil_r. by split; [|constructor]. Qed.

Lemma calls_throw {A} (e : exn) Q : emits (@throw A e) (clientCallsAre Q).
Proof. intros h r h' [= <- <-]. exists []. rewrite app_nil_r. by split; [|constructor]. Qed.

Lemma calls_getPage path site locale Q :
  Q path site locale → emits (getPage w path site locale) (clientCallsAre Q).
Proof.
  intros HQ h r h'. rewrite getPage_run. intros [= <- <-]. eexists. split; [done|].
  by repeat constructor.
Qed.

Lemma calls_bind {A B} (m : M A) (k : A → M B) Q :
  emits m (clientCallsAre Q) → (∀ a, emits (k a) (clientCallsAre Q)) →
  emits (bind m k) (clientCallsAre Q).
Proof.
  intros Hm Hk h r h' H.
  apply bind_inv in H as [(a & h1 & H1 & H2)|(e & H1 & _)].
  - apply Hm in H1 as (e1 & -> & B1). apply Hk in H2 as (e2 & -> & B2).
    exists (e1 ++ e2). rewrite app_assoc. split; [done|]. by apply Forall_app.
  - apply Hm in H1 as (e1 & -> & B1). by exists e1.
Qed.

Lemma calls_try {A} (m : M A) (hd : exn → M A) Q :
  emits m (clientCallsAre Q) → (∀ e, emits (hd e) (clientCallsAre Q)) →
  emits (try_catch m hd) (clientCallsAre Q).
Proof.
  intros Hm Hk h r h' H.
  apply try_catch_inv in H as [(a & H1 & _)|(e & h1 & H1 & H2)].
  - apply Hm in H1 as (e1 & -> & B1). by exists e1.
  - apply Hm in H1 as (e1 & -> & B1). apply Hk in H2 as (e2 & -> & B2).
    exists (e1 ++ e2). rewrite app_assoc. split; [done|]. by apply Forall_app.
Qed.

Lemma calls_of_budget {A} (m : M A) g f P Q :
  emits m (withinBudget g f P) → (g = 0)%nat → emits m (clientCallsAre Q).
Proof.
  intros Hm -> h r h' H. apply Hm in H as (evs & -> & Hg & _ & Hall).
  exists evs. split; [done|]. apply Forall_forall. intros e He.
  apply list_elem_of_In in He. specialize (Hall e He). destruct e; try done.
  exfalso. unfold countGetPage in Hg.
  assert (Hin : In (EvGetPage path site locale) (List.filter isGetPageB evs))
    by (apply filter_In; by split).
  destruct (List.filter isGetPageB evs); [done|simpl in Hg; lia].
Qed.

Lemma calls_remoteLookup {A} base q path lang key (k : option RemoteItem → M A) Q :
  (∀ item, emits (k item) (clientCallsAre Q)) →
  emits (bind (makeGraphQLRequest w cfg base q path lang key)
           (fun response => bind (responseItem response) k))
    (clientCallsAre Q).
Proof.
  intros Hk. apply calls_bind.
  - apply (calls_of_budget _ 0 1 (fun _ => True)); [|done].
    apply emits_makeGraphQLRequest; [lia|done].
  - intros [d|]; apply calls_bind; try done; [apply calls_ret|apply calls_throw].
Qed.

Lemma calls_findWildcardPage p0 rest site loc Q :
  Q [p0; "*"] site loc → Q ["*"] site loc → Q [p0] site loc →
  emits (findWildcardPage w (p0 :: rest) site loc) (clientCallsAre Q).
Proof.
  intros Q1 Q2 Q3 h r h'.
  unfold findWildcardPage, templatePaths.
  rewrite templateLoop_cons, templateLoopBody_marker by apply arrayIncludes_pair.
  cbn [fst snd].
  destruct (clientAnswer w h [p0; "*"] site loc) as [d1|].
  { rewrite bool_decide_eq_true_2 by done. intros [= <- <-].
    eexists. split; [done|]. by repeat constructor. }
  rewrite bool_decide_eq_false_2 by (intros H; by apply H).
  rewrite templateLoop_cons, templateLoopBody_marker by apply arrayIncludes_marker.
  cbn [fst snd].
  destruct (clientAnswer w _ ["*"] site loc) as [d2|].
  { rewrite bool_decide_eq_true_2 by done. intros [= <- <-]. rewrite <- app_assoc.
    eexists. split; [done|]. by repeat constructor. }
  rewrite bool_decide_eq_false_2 by (intros H; by apply H).
  rewrite templateLoop_cons, templateLoopBody_parent. cbv zeta.
  destruct (clientAnswer w _ [p0] site loc) as [d3|].
  2:{ intros [= <- <-]. rewrite <- !app_assoc.
      eexists. split; [done|]. by repeat constructor. }
  destruct (String.eqb (routeName d3) "*" || String.eqb p0 "*").
  { intros [= <- <-]. rewrite <- !app_assoc.
    eexists. split; [done|]. by repeat constructor. }
  destruct (clientAnswer w _ [p0; "*"] site loc) as [ch|];
    [destruct (String.eqb (routeName ch) "*")|];
    intros [= <- <-]; rewrite <- !app_assoc;
    (eexists; split; [done|]; by repeat constructor).
Qed.

Lemma calls_queryTarget p0 rest site loc Q :
  Q [p0; "*"] site loc → Q ["*"] site loc → Q [p0] site loc → Q [] site loc →
  emits (queryTargetSiteAndCreatePage w cfg (p0 :: rest) site loc) (clientCallsAre Q).
Proof.
  intros Q1 Q2 Q3 Q4. unfold queryTargetSiteAndCreatePage.
  apply calls_try; [|intros; apply calls_ret].
  destruct (_ || _); [apply calls_ret|].
  destruct (_ || _); [apply calls_ret|]. cbv zeta.
  apply calls_remoteLookup. intros [it|]; [|apply calls_ret].
  apply calls_bind; [by apply calls_findWildcardPage|].
  intros [wp|]; [apply calls_lift|].
  unfold ancestorTemplate. cbv zeta.
  apply calls_bind; [by apply calls_getPage|].
  intros [parent|]; [apply calls_ret|].
  apply calls_bind; [by apply calls_getPage|]. intros [root|]; apply calls_ret.
Qed.

Lemma calls_probeLoop site loc paths Q :
  (∀ p, In p paths → Q p site loc) →
  emits (probeLoop w site loc paths) (clientCallsAre Q).
Proof.
  induction paths as [|path paths IH]; intros HQ; simpl; [apply calls_ret|].
  apply calls_bind; [apply calls_getPage, HQ; by left|].
  intros [page|]; [apply calls_ret|]. apply IH. intros p Hp. apply HQ. by right.
Qed.

Lemma normalizeLocale_valid locale :
  normalizeLocale locale ≠ "" ∧ normalizeLocale locale ≠ "appspecific"
  ∧ normalizeLocale locale ≠ "undefined".
Proof.
  unfold normalizeLocale, JS.truthy.
  destruct (String.eqb locale "") eqn:E1; [done|].
  destruct (String.eqb locale "appspecific") eqn:E2; [done|].
  destruct (String.eqb locale "undefined") eqn:E3; [done|]. simpl.
  by apply String.eqb_neq in E1, E2, E3.
Qed.

Lemma In_sliceInit (x : string) (xs : list string) : In x (JS.sliceInit xs) → In x xs.
Proof.
  unfold JS.sliceInit. induction xs as [|a [|b xs] IH]; simpl; [done|done|].
  intros [->|H]; [by left|]. right. by apply IH.
Qed.

(** X22.  The Content Client is asked only about the request: every one
    of the resolver's calls is made for the site of the request and for
    the normalized locale, which is never empty, "appspecific" or
    "undefined", and for the cleaned path, the root, the marker, or (for
    a non-empty cleaned path) its first segment with or without the
    marker or the path with the marker in place of its last segment.
    So every segment the client is asked about is the marker or a
    segment of the cleaned path. *)
Theorem resolve_asks_only_for_the_request (path : list string) (site locale : string)
    (h : list event) :
  ∃ calls,
    snd (resolvePageWithWildcard w cfg path site locale h) = h ++ calls
    ∧ (∀ p s l, In (EvGetPage p s l) calls →
         s = site ∧ l = normalizeLocale locale ∧ In p (requestPaths (cleanPath path)))
    ∧ (∀ p s l segment, In (EvGetPage p s l) calls → In segment p →
         segment = "*" ∨ In segment (cleanPath path))
    ∧ normalizeLocale locale ≠ "" ∧ normalizeLocale locale ≠ "appspecific"
    ∧ normalizeLocale locale ≠ "undefined".
Proof.
  set (Q := fun (p : list string) (s l : string) =>
              s = site ∧ l = normalizeLocale locale ∧ In p (requestPaths (cleanPath path))).
  assert (E : emits (resolvePageWithWildcard w cfg path site locale) (clientCallsAre Q)).
  { unfold resolvePageWithWildcard. apply calls_try; [|intros; apply calls_ret].
    unfold resolveBody. destruct (isSystemRequest _ _ _); [apply calls_ret|]. cbv zeta.
    subst Q. destruct (cleanPath path) as [|p0 rest] eqn:Ec.
    { apply calls_getPage. split; [done|]. split; [done|]. by left. }
    assert (Hq : ∀ p, In p (requestPaths (p0 :: rest)) →
                      site = site ∧ normalizeLocale locale = normalizeLocale locale
                      ∧ In p (requestPaths (p0 :: rest))) by done.
    apply calls_bind; [apply calls_getPage, Hq; by left|].
    intros [pg|].
    - destruct (_ && _); [|apply calls_ret].
      apply calls_bind; [|intros; apply calls_ret].
      apply (calls_of_budget _ 0 1 (fun _ => True)); [|done].
      by apply (emits_logWildcardChildren w cfg None).
    - unfold resolveMissing.
      assert (T : emits (if targetConfigured cfg
                         then bind (queryTargetSiteAndCreatePage w cfg (p0 :: rest) site
                                      (normalizeLocale locale))
                                (fun targetPage => match targetPage with
                                                   | Some tp => ret (Some tp)
                                                   | None => ret None
                                                   end)
                         else ret None)
                    (clientCallsAre
                       (fun p s l => s = site ∧ l = normalizeLocale locale
                                     ∧ In p (requestPaths (p0 :: rest))))).
      { destruct (targetConfigured cfg); [|apply calls_ret].
        apply calls_bind; [|intros [tp|]; apply calls_ret].
        apply calls_queryTarget; apply Hq; simpl; tauto. }
      apply calls_bind.
      + apply calls_probeLoop. intros p Hp. apply Hq.
        unfold probePaths in Hp. simpl in Hp.
        destruct Hp as [<-|[<-|[<-|[]]]]; [simpl; tauto|simpl; tauto|].
        destruct rest as [|p1 rest]; [simpl; tauto|].
        change (1 <? length (p0 :: p1 :: rest))%nat with true. cbv iota.
        right; right; right; right; right. by left.
      + intros probe. cbv zeta. by destruct (_ && _). }
  destruct (resolvePageWithWildcard w cfg path site locale h) as [r h'] eqn:Er.
  apply E in Er as (calls & -> & Hall). exists calls. split; [done|].
  assert (Hcalls : ∀ p s l, In (EvGetPage p s l) calls → Q p s l).
  { intros p s l Hin. unfold clientCallsAre in Hall. rewrite Forall_forall in Hall.
    apply list_elem_of_In in Hin. by apply Hall in Hin. }
  split; [exact Hcalls|]. split; [|apply normalizeLocale_valid].
  intros p s l segment Hin Hseg. apply Hcalls in Hin as (_ & _ & Hp).
  unfold requestPaths in Hp. destruct Hp as [<-|[<-|[<-|Hp]]].
  - by right.
  - done.
  - destruct Hseg as [<-|[]]. by left.
  - destruct (cleanPath path) as [|p0 rest]; [done|].
    destruct Hp as [<-|[<-|[<-|[]]]].
    + destruct Hseg as [<-|[<-|[]]]; [right; by left|by left].
    + destruct Hseg as [<-|[]]. right; by left.
    + apply in_app_or in Hseg as [Hs|[<-|[]]]; [|by left].
      right. by apply In_sliceInit.
Qed.

End CallTargets.

Section PageViewFacts.

Import PageView.

Lemma assignField_other key k o h :
  k ≠ key → fieldRef (assignField key o h) k = fieldRef h k.
Proof.
  intros Hk. unfold assignField, fieldRef. destruct (hp_fields h) as [fs|] eqn:E.
  - simpl. by rewrite lookup_insert_ne.
  - by rewrite E.
Qed.

Lemma assignField_objects key o h l :
  is_Some (hp_objects h !! l) → hp_objects (assignField key o h) !! l = hp_objects h !! l.
Proof.
  intros Hl. unfold assignField. destruct (hp_fields h) as [fs|] eqn:E; [|done]. simpl.
  apply lookup_insert_ne. intros <-.
  apply elem_of_dom in Hl. by apply is_fresh in Hl.
Qed.

Lemma assignField_value key o h :
  hp_fields h ≠ None →
  valueOf (assignField key o h) (fieldRef (assignField key o h) key) = fo_value o.
Proof.
  intros Hf. unfold assignField, fieldRef, valueOf.
  destruct (hp_fields h) as [fs|]; [|done]. simpl. by rewrite !lookup_insert_eq.
Qed.

Lemma restore_other key k b a orig h :
  k ≠ key → fieldRef (restore key b a orig h) k = fieldRef h k.
Proof.
  intros Hk. unfold restore. destruct orig as [o|]; [|done].
  destruct (bool_decide _); [by apply assignField_other|done].
Qed.

Lemma restore_objects key b a orig h l :
  is_Some (hp_objects h !! l) → hp_objects (restore key b a orig h) !! l = hp_objects h !! l.
Proof.
  intros Hl. unfold restore. destruct orig as [o|]; [|done].
  destruct (bool_decide _); [by apply assignField_objects|done].
Qed.

Lemma restore_without_fields key b a orig h :
  hp_fields h = None → restore key b a orig h = h.
Proof.
  intros Hf. unfold restore, assignField. rewrite Hf.
  destruct orig; [|done]. by destruct (bool_decide _).
Qed.

(** X23.  What the page component guarantees about the Title field after
    the component data are fetched.  If the fetch leaves the value of the
    old Title object as it was, the Title of the page has that value in
    the end, whatever object the fetch put in its place.  But a change
    made inside the old Title object itself is not seen: the field is
    then left as the fetch made it.  Without route fields after the
    fetch nothing is touched. *)
Theorem component_data_restoration (Props : Type)
    (getComponentData : Heap → result (Heap * Props))
    (h0 h1 : Heap) (props : Props) (l0 : loc) (o : FieldObject) :
  getComponentData h0 = Ok (h1, props) →
  fieldRef h0 "Title" = Some l0 →
  hp_objects h0 !! l0 = Some o →
  wellFormed h1 →
  is_Some (hp_objects h1 !! l0) →
  ∃ h3,
    afterResolution Props getComponentData h0 = Ok (h3, props)
    ∧ (hp_fields h1 ≠ None → valueOf h1 (Some l0) = fo_value o →
         valueOf h3 (fieldRef h3 "Title") = fo_value o)
    ∧ (fieldRef h1 "Title" = Some l0 →
         fieldRef h3 "Title" = Some l0 ∧ hp_objects h3 !! l0 = hp_objects h1 !! l0)
    ∧ (hp_fields h1 = None → h3 = h1).
Proof.
  intros Hg Hl0 Ho Hwf Hold. unfold afterResolution. rewrite Hg, Hl0. cbv zeta.
  change (shallowCopy h0 (Some l0)) with (hp_objects h0 !! l0). rewrite Ho.
  set (h2 := restore "Title" (Some l0) (fieldRef h1 "Title") (Some o) h1).
  set (h3 := restore "Content" _ _ _ h2).
  assert (HT3 : fieldRef h3 "Title" = fieldRef h2 "Title")
    by (by apply restore_other).
  assert (HO3 : ∀ l, is_Some (hp_objects h2 !! l) → hp_objects h3 !! l = hp_objects h2 !! l)
    by (intros l; apply restore_objects).
  exists h3. split; [done|]. split; [|split].
  - intros Hf Hval. rewrite HT3. subst h2. unfold restore in *.
    destruct (bool_decide (valueOf h1 (Some l0) ≠ valueOf h1 (fieldRef h1 "Title"))) eqn:Eb.
    + pose proof (assignField_value "Title" o h1 Hf) as Hv.
      destruct (fieldRef (assignField "Title" o h1) "Title") as [l'|] eqn:El'.
      * unfold valueOf in Hv |- *.
        destruct (hp_objects (assignField "Title" o h1) !! l') as [o'|] eqn:Eo'.
        -- rewrite HO3 by (rewrite Eo'; eauto). by rewrite Eo'.
        -- unfold assignField, fieldRef in El', Eo'.
           destruct (hp_fields h1) as [fs|]; [|done]. simpl in El', Eo'.
           rewrite lookup_insert_eq in El'. inversion El'; subst l'.
           by rewrite lookup_insert_eq in Eo'.
      * unfold assignField, fieldRef in El'.
        destruct (hp_fields h1) as [fs|]; [|done]. simpl in El'.
        by rewrite lookup_insert_eq in El'.
    + apply bool_decide_eq_false in Eb. apply dec_stable in Eb.
      destruct (fieldRef h1 "Title") as [la|] eqn:Ea.
      * unfold valueOf. rewrite HO3 by (by apply (Hwf "Title")).
        unfold valueOf in Eb, Hval. by rewrite <- Eb.
      * rewrite <- Hval, Eb. done.
  - intros Hsame.
    assert (E2 : h2 = h1).
    { subst h2. unfold restore. rewrite Hsame.
      rewrite bool_decide_eq_false_2; [done|]. intros H. by apply H. }
    rewrite HT3, HO3; rewrite E2; done.
  - intros Hf.
    assert (E2 : h2 = h1) by (by apply restore_without_fields).
    subst h3. rewrite restore_without_fields; by rewrite E2.
Qed.

End PageViewFacts.

Section EnrichmentOrder.

Variable w : World.
Variable cfg : Config.

Lemma budget_without_fetch g (P : HttpRequest → Prop) (evs : list event) :
  withinBudget g 0 P evs → Forall isGetPage evs.
Proof.
  intros (_ & Hf & Hall). apply Forall_forall. intros e He.
  pose proof He as He'. apply list_elem_of_In, Hall in He'.
  destruct e as [p s l|r|]; [done| |done].
  exfalso. unfold countFetch in Hf.
  assert (Hin : In (EvFetch r) (List.filter isFetchB evs))
    by (apply filter_In; split; [by apply list_elem_of_In|done]).
  destruct (List.filter isFetchB evs); [done|simpl in Hf; lia].
Qed.

(** X24.  An enrichment asks the remote source first and the Content
    Client afterwards: its calls are none at all, or one item query
    followed by calls of the Content Client only, and the Content Client
    is asked for a template only when the remote source has answered
    the query with an item. *)
Theorem enrichment_asks_remote_first (p0 : string) (rest : list string)
    (site locale : string) (h : list event) :
  ∃ calls,
    snd (queryTargetSiteAndCreatePage w cfg (p0 :: rest) site locale h) = h ++ calls
    ∧ (calls = []
       ∨ ∃ req clientCalls,
           calls = EvFetch req :: clientCalls
           ∧ req_query req = GET_ITEM_WITH_FIELDS_QUERY
           ∧ Forall isGetPage clientCalls
           ∧ (clientCalls ≠ [] →
                ∃ resp it, global_fetch w h req = Some resp ∧ answersWith resp it)).
Proof.
  destruct (queryTargetSiteAndCreatePage w cfg (p0 :: rest) site locale h) as [r h'] eqn:E.
  simpl. unfold queryTargetSiteAndCreatePage in E.
  assert (Hnone : h' = h →
                    ∃ calls, h' = h ++ calls
                      ∧ (calls = []
                         ∨ ∃ req clientCalls,
                             calls = EvFetch req :: clientCalls
                             ∧ req_query req = GET_ITEM_WITH_FIELDS_QUERY
                             ∧ Forall isGetPage clientCalls
                             ∧ (clientCalls ≠ [] →
                                  ∃ resp it, global_fetch w h req = Some resp
                                             ∧ answersWith resp it))).
  { intros ->. exists []. rewrite app_nil_r. split; [done|by left]. }
  assert (Hone : ∀ req, req_query req = GET_ITEM_WITH_FIELDS_QUERY →
                   h' = h ++ [EvFetch req] →
                   ∃ calls, h' = h ++ calls
                      ∧ (calls = []
                         ∨ ∃ req clientCalls,
                             calls = EvFetch req :: clientCalls
                             ∧ req_query req = GET_ITEM_WITH_FIELDS_QUERY
                             ∧ Forall isGetPage clientCalls
                             ∧ (clientCalls ≠ [] →
                                  ∃ resp it, global_fetch w h req = Some resp
                                             ∧ answersWith resp it))).
  { intros req Hq ->. exists [EvFetch req]. split; [done|]. right.
    exists req, []. split; [done|]. split; [done|]. split; [constructor|done]. }
  apply try_catch_inv in E as [(o & E & _)|(e & h1 & E & [= _ <-])].
  - destruct (_ || _); [apply Hnone; unfold ret in E; congruence|].
    destruct (_ || _); [apply Hnone; unfold ret in E; congruence|]. cbv zeta in E.
    apply bind_Ok_inv in E as (d & h1 & Hm & E).
    apply makeGraphQLRequest_inv in Hm as [[_ [=]]|(req & -> & Hq & _ & _ & Hans)].
    destruct Hans as (resp & res & Hf & Hok & Hj & He & Hd).
    apply bind_Ok_inv in E as (item & h2 & Hi & E).
    destruct d as [d|]; [|discriminate]. inversion Hi; subst item h2; clear Hi.
    destruct d as [it|]; [|inversion E; subst; by apply (Hone req)].
    apply (emits_templateThenAncestor w p0 rest site _ it (fun _ => True)) in E
      as (cc & -> & Hb).
    exists (EvFetch req :: cc). rewrite <- app_assoc. split; [done|]. right.
    exists req, cc. split; [done|]. split; [done|].
    split; [by eapply budget_without_fetch|].
    intros _. exists resp, it. split; [done|]. split; [done|]. by exists res.
  - destruct (_ || _); [discriminate|].
    destruct (_ || _); [discriminate|]. cbv zeta in E.
    apply bind_inv in E as [(d & h2 & Hm & E)|(e' & Hm & _)].
    + apply makeGraphQLRequest_inv in Hm as [[_ [=]]|(req & -> & Hq & _ & _ & Hans)].
      destruct Hans as (resp & res & Hf & Hok & Hj & He & Hd).
      apply bind_inv in E as [(item & h3 & Hi & E)|(e' & Hi & _)].
      * destruct d as [d|]; [|discriminate]. inversion Hi; subst item h3; clear Hi.
        destruct d as [it|]; [|discriminate].
        apply (emits_templateThenAncestor w p0 rest site _ it (fun _ => True)) in E
          as (cc & -> & Hb).
        exists (EvFetch req :: cc). rewrite <- app_assoc. split; [done|]. right.
        exists req, cc. split; [done|]. split; [done|].
        split; [by eapply budget_without_fetch|].
        intros _. exists resp, it. split; [done|]. split; [done|]. by exists res.
      * destruct d as [d|]; [discriminate|]. inversion Hi; subst. by apply (Hone req).
    + apply makeGraphQLRequest_inv in Hm as [[-> _]|(req & -> & Hq & _)].
      * by apply Hnone.
      * by apply (Hone req).
Qed.

End EnrichmentOrder.

(* ===================================================================== *)
(** * Further runs on the sample sites *)
(* ===================================================================== *)

Module MoreRuns.

Import Examples MoreExamples.

Lemma remote_path_is_last_clean_segment_witness :
  cleanPath request = ["blog"] ++ ["post-1"]
  ∧ targetItemPathOf cfg (cleanPath request)
    = SITECORE_TARGET_SITE_PATH cfg +:+ "/" +:+ "post-1".
Proof.
  split; [reflexivity|].
  apply (remote_path_is_last_clean_segment cfg request ["blog"] "post-1"). reflexivity.
Defined.

Lemma system_request_makes_no_call_witness :
  resolvePageWithWildcard missWorld cfg devtoolsRequest "blogs" "en" start
  = (Ok None, start).
Proof.
  apply (system_request_makes_no_call missWorld cfg devtoolsRequest "blogs" "en" start).
  right; right. exists "com.chrome.devtools.json".
  split; [right; right; left; reflexivity|]. left. reflexivity.
Defined.

Lemma empty_path_is_the_root_witness :
  resolvePageWithWildcard rootOnlyWorld cfg [] "blogs" "en" start
  = (Ok (Some rootDoc), start ++ [EvGetPage [] "blogs" "en"]).
Proof.
  apply (empty_path_is_the_root rootOnlyWorld cfg [] "blogs" "en" start); reflexivity.
Defined.

Lemma direct_hit_is_returned_witness :
  resolvePageWithWildcard directHitWorld cfg request "blogs" "en" start
  = (Ok (Some rootDoc), start ++ [EvGetPage request "blogs" "en"]).
Proof.
  apply (direct_hit_is_returned directHitWorld cfg request "blogs" "en" start rootDoc);
    [reflexivity|discriminate|reflexivity|discriminate].
Defined.

Lemma missing_page_goes_to_enrichment_witness :
  resolvePageWithWildcard missWorld cfg request "blogs" "en" start
  = queryTargetSiteAndCreatePage missWorld cfg request "blogs" "en"
      [EvGetPage request "blogs" "en"; EvGetPage ["blog"; "*"] "blogs" "en"].
Proof.
  apply (missing_page_goes_to_enrichment missWorld cfg request "blogs" "en" start);
    [reflexivity|discriminate|reflexivity].
Defined.

Lemma sitemap_entries_follow_children_witness :
  ∃ out entries,
    enhanceSitemapWithWildcardPages twoPostsWorld cfg baseSitemap sitemapRequestUrl start
    = (Ok out,
       [EvGetPage ["blog"; "*"] "blogs" "en";
        EvFetch {| req_endpoint := "https://edge.sitecorecloud.io/api/graphql/v1";
                   req_apikey := "ctx-0001";
                   req_query := GET_CHILDREN_BY_PATH_QUERY;
                   req_path := "/sitecore/content/bcu/target/Home/blog";
                   req_language := "en" |}] ++ repeat EvNow (length [post1; post2]))
    ∧ length entries = length [post1; post2]
    ∧ (∀ i child, [post1; post2] !! i = Some child →
         entries !! i
         = Some (urlEntry (childUrl ("https:" +:+ "//" +:+ "www.example.com")
                             (sitemapDefaultSite cfg) "en" ["blog"] child)
                   (date_now twoPostsWorld
                      ([EvGetPage ["blog"; "*"] "blogs" "en";
                        EvFetch {| req_endpoint := "https://edge.sitecorecloud.io/api/graphql/v1";
                                   req_apikey := "ctx-0001";
                                   req_query := GET_CHILDREN_BY_PATH_QUERY;
                                   req_path := "/sitecore/content/bcu/target/Home/blog";
                                   req_language := "en" |}] ++ repeat EvNow i))))
    ∧ (JS.includes baseSitemap closingTag = true →
         ∃ pre post, baseSitemap = pre +:+ closingTag +:+ post
                     ∧ JS.includes pre closingTag = false
                     ∧ out = pre +:+ post +:+ JS.join "" entries +:+ nl +:+ closingTag)
    ∧ (JS.includes baseSitemap closingTag = false → out = baseSitemap +:+ JS.join "" entries).
Proof.
  apply (sitemap_entries_follow_children twoPostsWorld cfg baseSitemap sitemapRequestUrl start
           ["blog"] [post1; post2] [EvGetPage ["blog"; "*"] "blogs" "en"]);
    try reflexivity. discriminate.
Defined.

(** The sitemap of the site with two remote children: the second name is
    escaped. *)
Example sitemap_two_children :
  fst (enhanceSitemapWithWildcardPages twoPostsWorld cfg baseSitemap sitemapRequestUrl start)
  = Ok ("<urlset><url>...</url>"
          +:+ nl +:+ "    <url>"
          +:+ nl +:+ "      <loc>https://www.example.com/blogs/en/blog/post-1</loc>"
          +:+ nl +:+ "      <lastmod>2025-01-01T00:00:00.000Z</lastmod>"
          +:+ nl +:+ "      <changefreq>weekly</changefreq>"
          +:+ nl +:+ "      <priority>0.8</priority>"
          +:+ nl +:+ "    </url>"
          +:+ nl +:+ "    <url>"
          +:+ nl +:+ "      <loc>https://www.example.com/blogs/en/blog/q&amp;a</loc>"
          +:+ nl +:+ "      <lastmod>2025-01-01T00:00:00.000Z</lastmod>"
          +:+ nl +:+ "      <changefreq>weekly</changefreq>"
          +:+ nl +:+ "      <priority>0.8</priority>"
          +:+ nl +:+ "    </url>"
          +:+ nl +:+ "</urlset>").
Proof. vm_compute. reflexivity. Qed.

Lemma title_component_shows_remote_title_witness :
  Title.textValue (Title.titleField (fields (titleRendering "Hello")) helloPage)
  = Some "Hello"
  ∧ Title.textValue (Title.titleField (fields plainRendering) helloPage) = Some "Hello".
Proof.
  pose proof (title_component_shows_remote_title wildcardDoc hello helloPage
                (or_introl eq_refl)) as [_ H].
  split.
  - apply (H eq_refl {[ "headless-main" := [titleRendering "Hello"; plainRendering] ]}
             "headless-main" [titleRendering "Hello"; plainRendering]);
      [reflexivity|reflexivity|left; reflexivity].
  - apply (H eq_refl {[ "headless-main" := [titleRendering "Hello"; plainRendering] ]}
             "headless-main" [titleRendering "Hello"; plainRendering]);
      [reflexivity|reflexivity|right; left; reflexivity].
Defined.

Lemma page_content_shows_remote_content_witness :
  PageContent.field None helloPage = PageContent.field None wildcardDoc.
Proof.
  apply (page_content_shows_remote_content wildcardDoc hello helloPage None
           (or_introl eq_refl) I).
  reflexivity.
Defined.

Lemma overlay_changes_name_id_title_content_witness :
  ∃ rt rt',
    route wildcardDoc = Some rt ∧ route helloPage = Some rt'
    ∧ name rt' = "Hello" ∧ itemId rt' = "item-42"
    ∧ route_rest rt' = route_rest rt
    ∧ language helloPage = language wildcardDoc
    ∧ page_rest helloPage = page_rest wildcardDoc
    ∧ (∀ k, k ≠ "Title" → k ≠ "Content" →
            routeField helloPage k = routeField wildcardDoc k)
    ∧ (∀ k f, k = "Title" ∨ k = "Content" → routeField wildcardDoc k = Some f →
         ∃ f', routeField helloPage k = Some f'
               ∧ field_rest f' = field_rest f
               ∧ ∀ jv, jsonValue f = Some jv →
                       ∃ jv', jsonValue f' = Some jv' ∧ jv_rest jv' = jv_rest jv).
Proof.
  apply (overlay_changes_name_id_title_content wildcardDoc hello helloPage).
  left. reflexivity.
Defined.

Lemma rootOnlyWorld_stateless : clientStateless rootOnlyWorld.
Proof. intros h h' path site locale. reflexivity. Defined.

Lemma stateless_client_templates_witness :
  ∃ it tpl,
    (createPageFromWildcard tpl it = Ok (Some helloOnRoot)
     ∧ ∃ path, In path [["blog"; "*"]; ["*"]; ["blog"]]
               ∧ client_getPage rootOnlyWorld start path "blogs" "en" = Ok (Some tpl))
    ∨ (createPageFromTemplate tpl it = Some helloOnRoot
       ∧ client_getPage rootOnlyWorld start [] "blogs" "en" = Ok (Some tpl)
       ∧ client_getPage rootOnlyWorld start ["blog"] "blogs" "en" = Ok None).
Proof.
  apply (stateless_client_templates rootOnlyWorld cfg "blog" ["post-1"] "blogs" "en" start
           helloOnRoot
           (snd (queryTargetSiteAndCreatePage rootOnlyWorld cfg request "blogs" "en" start))
           rootOnlyWorld_stateless).
  reflexivity.
Defined.

Lemma heapReplaced_wellFormed : PageView.wellFormed heapReplaced.
Proof.
  intros key l H. unfold PageView.fieldRef in H. simpl in H.
  apply lookup_singleton_Some in H as [_ <-]. exists (titleObject "Wildcard"). reflexivity.
Defined.

Lemma component_data_restoration_witness :
  ∃ h3,
    PageView.afterResolution unit replacingFetch heapBefore = Ok (h3, tt)
    ∧ PageView.valueOf h3 (PageView.fieldRef h3 "Title") = Some "Hello".
Proof.
  destruct (component_data_restoration unit replacingFetch heapBefore heapReplaced tt
              1%positive (titleObject "Hello") eq_refl eq_refl eq_refl
              heapReplaced_wellFormed)
    as (h3 & Hrun & Hval & _).
  - exists (titleObject "Hello"). reflexivity.
  - exists h3. split; [exact Hrun|]. apply Hval; [discriminate|reflexivity].
Defined.

Lemma sitemap_gains_one_entry_witness :
  ∃ out loc,
    enhanceSitemapWithWildcardPages missWorld cfg baseSitemap sitemapRequestUrl start
    = (Ok out,
       [EvGetPage ["blog"; "*"] "blogs" "en";
        EvFetch {| req_endpoint := "https://edge.sitecorecloud.io/api/graphql/v1";
                   req_apikey := "ctx-0001";
                   req_query := GET_CHILDREN_BY_PATH_QUERY;
                   req_path := "/sitecore/content/bcu/target/Home/blog";
                   req_language := "en" |}] ++ [EvNow])
    ∧ let lastmod := "2025-01-01T00:00:00.000Z" in
      let block := nl +:+ "    <url>" +:+ nl
                      +:+ "      <loc>" +:+ loc +:+ "</loc>" +:+ nl
                      +:+ "      <lastmod>" +:+ lastmod +:+ "</lastmod>" +:+ nl
                      +:+ "      <changefreq>weekly</changefreq>" +:+ nl
                      +:+ "      <priority>0.8</priority>" +:+ nl
                      +:+ "    </url>" in
      wellEscaped loc = true
      ∧ unescapeFrom 0 loc
        = ("https:" +:+ "//" +:+ "www.example.com") +:+ "/"
          +:+ JS.join "/" (["blogs"; "en"] ++ ["blog"] ++ ["post-1"])
      ∧ (freeOf "<" lastmod = true →
         occurrences "<url>" block = 1%nat ∧ occurrences "</url>" block = 1%nat)
      ∧ (JS.includes baseSitemap closingTag = true →
         ∃ pre post,
           baseSitemap = pre +:+ closingTag +:+ post
           ∧ JS.includes pre closingTag = false
           ∧ out = pre +:+ post +:+ block +:+ nl +:+ closingTag
           ∧ (freeOf "<" lastmod = true →
              occurrences "<url>" out = S (occurrences "<url>" (pre +:+ post))
              ∧ occurrences "</url>" out = S (occurrences "</url>" (pre +:+ post))))
      ∧ (JS.includes baseSitemap closingTag = false → out = baseSitemap +:+ block).
Proof.
  apply (sitemap_gains_one_entry missWorld cfg baseSitemap sitemapRequestUrl start
           ["blog"] post1 [EvGetPage ["blog"; "*"] "blogs" "en"]);
    reflexivity.
Defined.

(** The sitemap of the specification's example holds one block before
    the synthesis and two after it, and still one closing tag of the
    set. *)
Example sitemap_example_blocks :
  occurrences "<url>" baseSitemap = 1%nat
  ∧ occurrences "</url>" baseSitemap = 1%nat
  ∧ ∃ out,
      fst (enhanceSitemapWithWildcardPages missWorld cfg baseSitemap sitemapRequestUrl start)
      = Ok out
      ∧ occurrences "<url>" out = 2%nat
      ∧ occurrences "</url>" out = 2%nat
      ∧ occurrences closingTag out = 1%nat.
Proof.
  split; [reflexivity|]. split; [reflexivity|].
  eexists. split; [vm_compute; reflexivity|].
  repeat split; vm_compute; reflexivity.
Qed.

End MoreRuns.
